(** * Claude export processor: record store, sync engine and renderer

    A shallow embedding of the parts of the export processor that its
    specification makes claims about:

    - [BaseRepository]    src/repositories/BaseRepository.js
    - [ZipProcessor]      src/processors/ZipProcessor.js
    - [MarkdownGenerator] src/generators/MarkdownGenerator.js
    - [AppController]     src/controllers/AppController.js

    and of the functions beside them:

    - [ConversationsRepository], [UsersQueries], [ProjectsQueries]
                          src/repositories/*.js
    - [StoreRecords]      the loops of [storeData] over users and projects
    - [FileUtils]         src/utils/fileUtils.js
    - [Document]          metadata, footer and text direction of the
                          generator

    Conventions.  A JavaScript object used as a record is a Rocq record
    whose fields are all optional ([None] is an absent key, that is,
    [undefined]); the fields carry the types that the export format and
    the JSDoc of the sources give them.  A collection of the store is the
    array [db.data[collection]], a [list].  Strings are sequences of code
    units below 256.  An [async] method is modelled by its result and the
    state it leaves. *)

From Stdlib Require Import String Ascii List ZArith Lia Bool.
From Stdlib Require DecimalString Sorted.
From stdpp Require Import base option list strings.

Local Open Scope string_scope.
Local Open Scope list_scope.

(** ** JavaScript conventions shared by the modules *)

Module Js.

(** Truthiness of [x.f] for an optional string field and for an optional
    boolean field: [undefined], [""] and [false] are falsy. *)
Definition truthy_string (o : option string) : bool :=
  match o with
  | Some s => negb (String.eqb s "")
  | None => false
  end.

Definition truthy_bool (o : option bool) : bool :=
  match o with
  | Some b => b
  | None => false
  end.

(** [a === b] on optional primitive fields. *)
Definition strict_eq `{EqDecision A} (a b : option A) : bool :=
  bool_decide (a = b).

(** [`${x}`] for an optional string: [undefined] prints as its name. *)
Definition interpolate (o : option string) : string :=
  match o with
  | Some s => s
  | None => "undefined"
  end.

(** The result of an [async] function: the promise is resolved, rejected
    with an [Error] carrying a message, or an exception escapes every
    handler of the program. *)
Inductive promise (A : Type) : Type :=
| Resolved (a : A)
| Rejected (message : string)
| Unhandled.
Arguments Resolved {A} a.
Arguments Rejected {A} message.
Arguments Unhandled {A}.

(** *** Strings

    The string methods are written on the list of code units and lifted
    to [string]. *)
Definition chars := list ascii.

Definition lift (f : chars → chars) (s : string) : string :=
  string_of_list_ascii (f (list_ascii_of_string s)).

Fixpoint take_while (p : ascii → bool) (s : chars) : chars :=
  match s with
  | [] => []
  | c :: s' => if p c then c :: take_while p s' else []
  end.

Fixpoint drop_while (p : ascii → bool) (s : chars) : chars :=
  match s with
  | [] => []
  | c :: s' => if p c then drop_while p s' else s
  end.

Definition code_in (lo hi : nat) (c : ascii) : bool :=
  (lo <=? nat_of_ascii c)%nat && (nat_of_ascii c <=? hi)%nat.

Definition newline : ascii := ascii_of_nat 10.

(** White space and line terminators below 256, as [trim] strips them:
    TAB, LF, VT, FF, CR, SPACE and NBSP. *)
Definition is_white_space (c : ascii) : bool :=
  code_in 9 13 c || code_in 32 32 c || code_in 160 160 c.

Definition trim_text (s : chars) : chars :=
  rev (drop_while is_white_space (rev (drop_while is_white_space s))).

Definition trim : string → string := lift trim_text.

(** [toLowerCase] on code units below 256: A-Z and the accented capitals
    of Latin-1 (all of 192-222 but the multiplication sign 215). *)
Definition lower_char (c : ascii) : ascii :=
  if code_in 65 90 c || (code_in 192 222 c && negb (code_in 215 215 c))
  then ascii_of_nat (nat_of_ascii c + 32)
  else c.

Definition toLowerCase : string → string := lift (map lower_char).

(** [s.split("\n")[0]] *)
Definition first_line : string → string :=
  lift (take_while (λ c, negb (Ascii.eqb c newline))).

(** [s.substring(0, n)] and [s.slice(0, n)] *)
Definition substring_to (n : nat) : string → string := lift (take n).

(** [haystack.includes(needle)] *)
Fixpoint includes (needle haystack : string) : bool :=
  String.prefix needle haystack ||
  match haystack with
  | EmptyString => false
  | String _ rest => includes needle rest
  end.

(** *** Dates

    A [Date] that is not the invalid date, by its UTC fields. *)
Record date := mkDate {
  year : Z;
  month : Z;
  day : Z;
  hours : Z;
  minutes : Z;
  seconds : Z;
  milliseconds : Z
}.

(** [new Date(0)] *)
Definition epoch : date := mkDate 1970 1 1 0 0 0 0.

Local Open Scope Z_scope.

Definition digit (n : Z) : ascii := ascii_of_N (Z.to_N (48 + n mod 10)).

Definition pad2 (n : Z) : chars := [digit (n / 10); digit n].
Definition pad3 (n : Z) : chars := digit (n / 100) :: pad2 n.
Definition pad4 (n : Z) : chars := digit (n / 1000) :: pad3 n.
Definition pad6 (n : Z) : chars :=
  digit (n / 100000) :: digit (n / 10000) :: pad4 n.

(** The year of [toISOString]: four digits from 0 to 9999, otherwise a
    sign and six digits. *)
Definition iso_year (y : Z) : chars :=
  if (0 <=? y) && (y <=? 9999) then pad4 y
  else (if y <? 0 then "-"%char else "+"%char) :: pad6 (Z.abs y).

(** [d.toISOString()]: [YYYY-MM-DDTHH:mm:ss.sssZ] *)
Definition toISOString_text (d : date) : chars :=
  (iso_year (year d) ++ "-"%char :: pad2 (month d) ++ "-"%char :: pad2 (day d)
   ++ "T"%char :: pad2 (hours d) ++ ":"%char :: pad2 (minutes d)
   ++ ":"%char :: pad2 (seconds d) ++ "."%char :: pad3 (milliseconds d)
   ++ ["Z"%char])%list.

Definition toISOString (d : date) : string :=
  string_of_list_ascii (toISOString_text d).

(** A number that orders valid dates as their time values do; the sort
    of the sync engine only looks at the sign of a difference. *)
Definition date_rank (d : date) : Z :=
  (((((year d * 13 + month d) * 32 + day d) * 24 + hours d) * 60
    + minutes d) * 60 + seconds d) * 1000 + milliseconds d.

(** The date-time strings of the export, [YYYY-MM-DDTHH:mm:ssZ] with an
    optional fraction of a second of which three digits are kept, for a
    day that exists in the calendar.  This is the part of [Date.parse]
    that the examples run on; the functions below take the parser of the
    engine as an argument. *)
Definition digit_value (c : ascii) : option Z :=
  if code_in 48 57 c then Some (Z.of_nat (nat_of_ascii c) - 48) else None.

Fixpoint number_value (acc : Z) (s : chars) : option Z :=
  match s with
  | [] => Some acc
  | c :: s' => d ← digit_value c; number_value (10 * acc + d) s'
  end.

Definition field (from len : nat) (s : chars) : option Z :=
  let digits := take len (drop from s) in
  if (length digits =? len)%nat then number_value 0 digits else None.

Definition punctuation (at_ : nat) (c : ascii) (s : chars) : bool :=
  bool_decide (s !! at_ = Some c).

Definition fraction (s : chars) : option Z :=
  match s with
  | [z] => if Ascii.eqb z "Z" then Some 0 else None
  | dot :: rest =>
      if Ascii.eqb dot "." &&
         bool_decide (drop_while (code_in 48 57) rest = ["Z"%char]) &&
         negb (bool_decide (take_while (code_in 48 57) rest = []))
      then number_value 0 (take 3 (take_while (code_in 48 57) rest ++
                                   ["0"; "0"]%char)%list)
      else None
  | [] => None
  end.

Definition leap_year (y : Z) : bool :=
  (y mod 4 =? 0) && (negb (y mod 100 =? 0) || (y mod 400 =? 0)).

Definition days_in_month (y m : Z) : Z :=
  if m =? 2 then (if leap_year y then 29 else 28)
  else if (m =? 4) || (m =? 6) || (m =? 9) || (m =? 11) then 30
  else 31.

Definition parse_utc (str : string) : option date :=
  let s := list_ascii_of_string str in
  if punctuation 4 "-" s && punctuation 7 "-" s && punctuation 10 "T" s &&
     punctuation 13 ":" s && punctuation 16 ":" s
  then
    y ← field 0 4 s; mo ← field 5 2 s; d ← field 8 2 s;
    h ← field 11 2 s; mi ← field 14 2 s; sec ← field 17 2 s;
    ms ← fraction (drop 19 s);
    if (1 <=? mo) && (mo <=? 12) && (1 <=? d) && (d <=? days_in_month y mo)
       && (h <=? 23) && (mi <=? 59) && (sec <=? 59)
    then Some (mkDate y mo d h mi sec ms)
    else None
  else None.

End Js.

(** ** BaseRepository: the generic record store *)

(** What the repository needs of the objects it stores: their [uuid] key
    and the object spread [{...existing, ...updates}].  A partial record
    is a record in which the other keys are absent. *)
Class Item (R : Type) := {
  item_uuid : R → option string;
  spread : R → R → R;
  spread_uuid : ∀ e u,
    item_uuid (spread e u) = from_option Some (item_uuid e) (item_uuid u);
  spread_again : ∀ e u, spread (spread e u) u = spread e u;
  spread_self : ∀ r, spread r r = r
}.

Module BaseRepository.
Section Repository.
Context {R : Type} `{Item R}.

(** [this.db.data[this.collection]] *)
Definition collection := list R.

(** [(item) => item.uuid === uuid] *)
Definition has_uuid (k : option string) (item : R) : Prop :=
  item_uuid item = k.

#[global] Instance has_uuid_dec k item : Decision (has_uuid k item).
Proof. unfold has_uuid. apply _. Defined.

Definition findAll (data : collection) : list R := data.

(** [find(...) || null] *)
Definition findByUuid (k : option string) (data : collection) : option R :=
  snd <$> list_find (has_uuid k) data.

Definition count (data : collection) : nat := length data.

(** [push(item)]; the item is returned. *)
Definition insert (item : R) (data : collection) : collection * R :=
  (data ++ [item], item).

(** [findIndex], then the element at that index is replaced by the spread
    of the old element and the updates; [null] when no element matches. *)
Definition update (k : option string) (updates : R) (data : collection)
  : collection * option R :=
  match list_find (has_uuid k) data with
  | None => (data, None)
  | Some (index, existing) =>
      let updatedItem := spread existing updates in
      (<[index := updatedItem]> data, Some updatedItem)
  end.

(** [findIndex], then [splice(index, 1)]. *)
Definition delete (k : option string) (data : collection)
  : collection * bool :=
  match list_find (has_uuid k) data with
  | None => (data, false)
  | Some (index, _) => (base.delete index data, true)
  end.

(** [some((item) => item.uuid === uuid)] *)
Definition exists_ (k : option string) (data : collection) : bool :=
  bool_decide (Exists (has_uuid k) data).

Definition upsert (item : R) (data : collection) : collection * option R :=
  if exists_ (item_uuid item) data
  then update (item_uuid item) item data
  else let '(data', inserted) := insert item data in (data', Some inserted).

(** The uuid values of a collection are pairwise distinct. *)
Definition uuid_unique (data : collection) : Prop :=
  NoDup (item_uuid <$> data).

End Repository.
End BaseRepository.

(** ** The conversation record *)

(** A message of a conversation; [getTitle] reads its [text]. *)
Record message := {
  sender : option string;
  text : option string
}.

(** A conversation as exported, with the two keys that the render phase
    adds to the stored record.  [account] holds [account.uuid]. *)
Record conversation := {
  uuid : option string;
  name : option string;
  created_at : option string;
  updated_at : option string;
  account : option string;
  chat_messages : option (list message);
  processed : option bool;
  markdownPath : option string
}.

(** One key of [{...existing, ...updates}]: the key of the updates when
    they have it, the existing one otherwise. *)
Definition spread_key {A} (existing updates : option A) : option A :=
  match updates with
  | Some _ => updates
  | None => existing
  end.

Definition spread_conversation (existing updates : conversation)
  : conversation :=
  {| uuid := spread_key (uuid existing) (uuid updates);
     name := spread_key (name existing) (name updates);
     created_at := spread_key (created_at existing) (created_at updates);
     updated_at := spread_key (updated_at existing) (updated_at updates);
     account := spread_key (account existing) (account updates);
     chat_messages :=
       spread_key (chat_messages existing) (chat_messages updates);
     processed := spread_key (processed existing) (processed updates);
     markdownPath :=
       spread_key (markdownPath existing) (markdownPath updates) |}.

#[global] Program Instance conversation_item : Item conversation := {|
  item_uuid := uuid;
  spread := spread_conversation
|}.
Next Obligation. intros e u. simpl. by destruct (uuid u). Qed.
Next Obligation.
  intros e [u1 u2 u3 u4 u5 u6 u7 u8]. unfold spread_conversation. simpl.
  by destruct u1, u2, u3, u4, u5, u6, u7, u8.
Qed.
Next Obligation.
  intros [r1 r2 r3 r4 r5 r6 r7 r8]. unfold spread_conversation. simpl.
  by destruct r1, r2, r3, r4, r5, r6, r7, r8.
Qed.

(** ** The user and project records

    The two other collections of the store, with the keys of the
    export. *)

Module UsersRepository.

Record user := {
  uuid : option string;
  full_name : option string;
  email_address : option string
}.

Definition spread_user (existing updates : user) : user :=
  {| uuid := spread_key (uuid existing) (uuid updates);
     full_name := spread_key (full_name existing) (full_name updates);
     email_address :=
       spread_key (email_address existing) (email_address updates) |}.

#[global] Program Instance user_item : Item user := {|
  item_uuid := uuid;
  spread := spread_user
|}.
Next Obligation. intros e u. simpl. by destruct (uuid u). Qed.
Next Obligation.
  intros e [u1 u2 u3]. unfold spread_user. simpl. by destruct u1, u2, u3.
Qed.
Next Obligation.
  intros [r1 r2 r3]. unfold spread_user. simpl. by destruct r1, r2, r3.
Qed.

End UsersRepository.

Module ProjectsRepository.

Record project := {
  uuid : option string;
  name : option string;
  description : option string;
  created_at : option string;
  updated_at : option string;
  creator : option string
}.

Definition spread_project (existing updates : project) : project :=
  {| uuid := spread_key (uuid existing) (uuid updates);
     name := spread_key (name existing) (name updates);
     description := spread_key (description existing) (description updates);
     created_at := spread_key (created_at existing) (created_at updates);
     updated_at := spread_key (updated_at existing) (updated_at updates);
     creator := spread_key (creator existing) (creator updates) |}.

#[global] Program Instance project_item : Item project := {|
  item_uuid := uuid;
  spread := spread_project
|}.
Next Obligation. intros e u. simpl. by destruct (uuid u). Qed.
Next Obligation.
  intros e [u1 u2 u3 u4 u5 u6]. unfold spread_project. simpl.
  by destruct u1, u2, u3, u4, u5, u6.
Qed.
Next Obligation.
  intros [r1 r2 r3 r4 r5 r6]. unfold spread_project. simpl.
  by destruct r1, r2, r3, r4, r5, r6.
Qed.

End ProjectsRepository.

(** ** MarkdownGenerator *)

Module MarkdownGenerator.
Import Js.

(** *** getTitle *)

(** [Conversation ${conversation.uuid}] *)
Definition fallbackTitle (c : conversation) : string :=
  "Conversation " +:+ interpolate (uuid c).

Definition getTitle (c : conversation) : string :=
  if truthy_string (name c) && truthy_string (trim <$> name c)
  then interpolate (name c)
  else
    match chat_messages c with
    | Some (firstMessage :: _) =>
        if truthy_string (text firstMessage) &&
           truthy_string (trim <$> text firstMessage)
        then
          let firstLine :=
            trim (first_line (interpolate (text firstMessage))) in
          if (50 <? String.length firstLine)%nat
          then substring_to 50 firstLine +:+ "..."
          else firstLine
        else fallbackTitle c
    | _ => fallbackTitle c
    end.

(** *** processText

    [text.replace(pattern, callback)], where the global pattern is: a
    fence of three backticks, a first group of word characters [\w*],
    a second, lazy group of any characters [[\s\S]*?], and a fence. *)

(** [\w] *)
Definition is_word (c : ascii) : bool :=
  code_in 48 57 c || code_in 65 90 c || code_in 95 95 c || code_in 97 122 c.

(** [[\s\S]] *)
Definition any_char (c : ascii) : bool := true.

Definition backtick : ascii := "`"%char.

Definition fence : chars := [backtick; backtick; backtick].

Definition at_fence (s : chars) : bool :=
  bool_decide (take 3 s = fence).

(** The backtracking matcher.  A piece of the pattern is run on the text
    [s] with a continuation [k] for the rest of the pattern: it tries
    the prefixes of [s] that it can match, in the order of the engine,
    passes the prefix and the text behind it to [k], and stops at the
    first success of [k]. *)
Section Matcher.
Context {A : Type}.

Definition literal (p s : chars) (k : chars → chars → option A)
  : option A :=
  if bool_decide (take (length p) s = p) then k p (drop (length p) s)
  else None.

(** A greedy star on a class of characters: one more character first,
    and no more when that fails. *)
Fixpoint greedy_star (class : ascii → bool) (s : chars)
  (k : chars → chars → option A) : option A :=
  match s with
  | c :: s' =>
      if class c
      then
        match greedy_star class s' (λ taken, k (c :: taken)) with
        | Some r => Some r
        | None => k [] s
        end
      else k [] s
  | [] => k [] []
  end.

(** A lazy star on a class of characters: no more character first,
    and one more when that fails. *)
Fixpoint lazy_star (class : ascii → bool) (s : chars)
  (k : chars → chars → option A) : option A :=
  match k [] s with
  | Some r => Some r
  | None =>
      match s with
      | c :: s' =>
          if class c then lazy_star class s' (λ taken, k (c :: taken))
          else None
      | [] => None
      end
  end.
End Matcher.

(** The pattern at the head of [s]: the two groups and the text behind
    the match. *)
Definition match_fence (s : chars) : option (chars * chars * chars) :=
  literal fence s (λ _ s1,
    greedy_star is_word s1 (λ language s2,
      lazy_star any_char s2 (λ code s3,
        literal fence s3 (λ _ rest, Some (language, code, rest))))).

(** The callback: the language, then the code without one newline at
    its start and one at its end, between fences. *)
Definition strip_start (code : chars) : chars :=
  match code with
  | c :: rest => if Ascii.eqb c newline then rest else code
  | [] => code
  end.

Definition strip_end (code : chars) : chars :=
  if bool_decide (last code = Some newline) then removelast code
  else code.

Definition block (language code : chars) : chars :=
  let language := trim_text language in
  let code := strip_start code in
  let code := strip_end code in
  fence ++ language ++ [newline] ++ code ++ [newline] ++ fence.

(** The global replacement: where the pattern matches, the callback
    gives the text and the search goes on behind the match; elsewhere
    the character is copied.  A match has six characters or more, so the
    length of the text is fuel enough. *)
Fixpoint replace_all (fuel : nat) (s : chars) : chars :=
  match fuel, s with
  | S fuel', c :: s' =>
      match match_fence s with
      | Some (language, code, rest) =>
          block language code ++ replace_all fuel' rest
      | None => c :: replace_all fuel' s'
      end
  | _, _ => s
  end.

Definition replace_blocks (s : chars) : chars :=
  replace_all (length s) s.

Definition processText (t : string) : string :=
  if negb (truthy_string (Some t)) then ""
  else lift replace_blocks t.

End MarkdownGenerator.

(** ** AppController *)

Module AppController.
Import Js BaseRepository.

Inductive decision := Invalid | Skipped | Stored.

Record tally := {
  processedCount : nat;
  skippedCount : nat
}.

(** The store and the output directory during the render phase. *)
Record render_state := {
  conversations : list conversation;
  files : list (string * string);
  generatedCount : nat;
  renderSkipped : nat
}.

(** [{ processed: true, markdownPath: outputPath }] *)
Definition renderedKeys (outputPath : string) : conversation :=
  {| uuid := None; name := None; created_at := None; updated_at := None;
     account := None; chat_messages := None;
     processed := Some true; markdownPath := Some outputPath |}.

(** [s.replace(/[-:]/g, "")] *)
Definition remove_dashes_colons : chars → chars :=
  filter (λ c, c ≠ "-"%char ∧ c ≠ ":"%char).

(** [s.replace("T", "_")]: the first occurrence only. *)
Fixpoint replace_first_T (s : chars) : chars :=
  match s with
  | [] => []
  | c :: s' =>
      if Ascii.eqb c "T" then "_"%char :: s' else c :: replace_first_T s'
  end.

(** [toISOString().replace(/[-:]/g, "").replace("T", "_").slice(0, 15)] *)
Definition timestamp (d : date) : string :=
  string_of_list_ascii
    (take 15 (replace_first_T (remove_dashes_colons (toISOString_text d)))).

(** [[a-z0-9]] *)
Definition is_slug_char (c : ascii) : bool :=
  code_in 97 122 c || code_in 48 57 c.

(** [s.replace(/[^a-z0-9]+/g, "-")]: every run of other characters
    becomes one dash; [in_run] tells that the run has begun. *)
Fixpoint dash_runs (in_run : bool) (s : chars) : chars :=
  match s with
  | [] => []
  | c :: s' =>
      if is_slug_char c then c :: dash_runs false s'
      else if in_run then dash_runs true s'
      else "-"%char :: dash_runs true s'
  end.

Definition is_dash (c : ascii) : bool := Ascii.eqb c "-".

(** [s.replace(/^-+|-+$/g, "")] *)
Definition strip_dashes (s : chars) : chars :=
  rev (drop_while is_dash (rev (drop_while is_dash s))).

(** The slug of a name:
    [toLowerCase()], the two replacements, [slice(0, 50)]. *)
Definition slug (name : string) : string :=
  lift (λ s, take 50 (strip_dashes (dash_runs false s))) (toLowerCase name).

(** [nameSlug]: the uuid, or the slug of a truthy name when the slug is
    not empty. *)
Definition nameSlug (c : conversation) : string :=
  if truthy_string (name c)
  then
    let s := slug (interpolate (name c)) in
    if negb (truthy_string (Some s)) then interpolate (uuid c) else s
  else interpolate (uuid c).

Section Controller.
(** [options.force], [options.outputDir], the clock and the parser of
    [Date], [path.join], and [markdownGenerator.generate] by its
    outcome: [None] when it throws. *)
Variable force : bool.
Variable outputDir : string.
Variable Date_parse : string → option date.
Variable now : date.
Variable path_join : string → string → string.
Variable generate : conversation → option string.

(** *** storeData: the conversations *)

(** [new Date(c.updated_at || 0)]; [None] is the invalid date. *)
Definition updatedDate (c : conversation) : option date :=
  if truthy_string (updated_at c)
  then Date_parse (interpolate (updated_at c))
  else Some epoch.

(** [(a, b) => new Date(b.updated_at || 0) - new Date(a.updated_at || 0)];
    [None] is [NaN]. *)
Definition newestFirst (a b : conversation) : option Z :=
  tb ← updatedDate b; ta ← updatedDate a;
  Some (date_rank tb - date_rank ta)%Z.

(** [[...conversations].sort(newestFirst)] as a stable insertion sort;
    a comparison that is [NaN] counts as zero.  When some date is
    invalid the comparator is not an order and the engine may produce
    another permutation. *)
Fixpoint sorted_insert (c : conversation) (sorted : list conversation)
  : list conversation :=
  match sorted with
  | [] => [c]
  | d :: rest =>
      if bool_decide (0 < default 0 (newestFirst d c))%Z
      then c :: sorted
      else d :: sorted_insert c rest
  end.

Definition sortedConversations (batch : list conversation)
  : list conversation :=
  foldl (λ sorted c, sorted_insert c sorted) [] batch.

(** [force || !existing || !existing.processed ||
     existing.updated_at !== conversation.updated_at] *)
Definition shouldProcess (existingConversation : option conversation)
  (c : conversation) : bool :=
  force ||
  match existingConversation with
  | None => true
  | Some existing =>
      negb (truthy_bool (processed existing)) ||
      negb (strict_eq (updated_at existing) (updated_at c))
  end.

(** The body of the loop over the sorted conversations. *)
Definition storeConversation (c : conversation)
  (data : list conversation) : list conversation * decision :=
  if negb (truthy_string (uuid c)) then (data, Invalid)
  else
    let existingConversation := findByUuid (uuid c) data in
    if negb (shouldProcess existingConversation c) then (data, Skipped)
    else ((upsert c data).1, Stored).

Definition count_decision (d : decision) (t : tally) : tally :=
  match d with
  | Stored => {| processedCount := S (processedCount t);
                 skippedCount := skippedCount t |}
  | _ => {| processedCount := processedCount t;
            skippedCount := S (skippedCount t) |}
  end.

Fixpoint storeLoop (sorted : list conversation)
  (data : list conversation) (t : tally) : list conversation * tally :=
  match sorted with
  | [] => (data, t)
  | c :: rest =>
      let '(data', d) := storeConversation c data in
      storeLoop rest data' (count_decision d t)
  end.

(** The turns of the loop: each conversation with the store as it is
    when the loop reaches the conversation, and the decision taken. *)
Fixpoint storeTrace (sorted : list conversation)
  (data : list conversation)
  : list (conversation * list conversation * decision) :=
  match sorted with
  | [] => []
  | c :: rest =>
      let '(data', d) := storeConversation c data in
      (c, data, d) :: storeTrace rest data'
  end.

(** The part of [storeData] on the conversations collection; the
    loops over users and projects upsert into their own collections.
    The elements of the batch are objects: on [null] the comparator of
    the sort throws before the loop is reached. *)
Definition storeData (batch : list conversation)
  (data : list conversation) : list conversation * tally :=
  storeLoop (sortedConversations batch) data
    {| processedCount := 0; skippedCount := 0 |}.

(** *** generateMarkdownFiles *)

(** [!this.force && conversation.processed && conversation.markdownPath] *)
Definition alreadyRendered (c : conversation) : bool :=
  negb force && truthy_bool (processed c) &&
  truthy_string (markdownPath c).

(** [new Date(conversation.created_at || new Date())] *)
Definition createdDate (c : conversation) : option date :=
  if truthy_string (created_at c)
  then Date_parse (interpolate (created_at c))
  else Some now.

(** [`${timestamp}_${nameSlug}.md`]; [toISOString] throws on the
    invalid date, and then there is no filename. *)
Definition outputFilename (c : conversation) : option string :=
  d ← createdDate c;
  Some (timestamp d +:+ "_" +:+ nameSlug c +:+ ".md").

(** The body of the loop: the skip, then the [try] block, whose
    [catch] only logs. *)
Definition renderConversation (c : conversation) (st : render_state)
  : render_state :=
  if alreadyRendered c
  then {| conversations := conversations st; files := files st;
          generatedCount := generatedCount st;
          renderSkipped := S (renderSkipped st) |}
  else
    match generate c with
    | None => st
    | Some markdown =>
        match outputFilename c with
        | None => st
        | Some filename =>
            let outputPath := path_join outputDir filename in
            {| conversations :=
                 (update (uuid c) (renderedKeys outputPath)
                    (conversations st)).1;
               files := files st ++ [(outputPath, markdown)];
               generatedCount := S (generatedCount st);
               renderSkipped := renderSkipped st |}
        end
    end.

(** [for (const conversation of conversations)] on the array of the
    store itself: step [index] reads the element that is there then. *)
Fixpoint renderLoop (steps index : nat) (st : render_state)
  : render_state :=
  match steps with
  | O => st
  | S steps' =>
      match conversations st !! index with
      | None => st
      | Some c => renderLoop steps' (S index) (renderConversation c st)
      end
  end.

Definition generateMarkdownFiles (data : list conversation)
  (written : list (string * string)) : render_state :=
  renderLoop (length data) 0
    {| conversations := data; files := written;
       generatedCount := 0; renderSkipped := 0 |}.

End Controller.
End AppController.

(** ** ZipProcessor *)

Module ZipProcessor.
Import Js.
Section Processor.
(** The decoded elements of the JSON arrays. *)
Context {J : Type}.

(** What reading and parsing an extracted file gives. *)
Inductive file_content :=
| JsonArray (elements : list J)
| JsonOther
| Malformed (message : string)
| Unreadable (message : string).

Record entry := {
  entryName : string;
  content : file_content
}.

(** An archive on disk: [new AdmZip(path)] and [extractAllTo] are
    library calls that may throw an error with some message. *)
Record archive := {
  open_error : option string;
  entries : list entry;
  extract_error : option string
}.

Record export := {
  users : list J;
  projects : list J;
  conversations : list J
}.

(** [entries.find((e) => e.entryName.includes(fragment))] *)
Definition findEntry (fragment : string) (es : list entry)
  : option entry :=
  List.find (λ e, includes fragment (entryName e)) es.

(** [require(filePath)] in a [try]: an array, or the empty array. *)
Definition processJsonFile (c : file_content) : list J :=
  match c with
  | JsonArray elements => elements
  | _ => []
  end.

(** The streaming parse.  The file stream and the parser have error
    handlers that reject; the array streamer has none, so its error on
    a document that is not an array escapes. *)
Definition processConversationsFile (c : file_content)
  : promise (list J) :=
  match c with
  | JsonArray elements => Resolved elements
  | JsonOther => Unhandled
  | Malformed message => Rejected ("Error parsing JSON: " +:+ message)
  | Unreadable message => Rejected ("Error reading file: " +:+ message)
  end.

Definition missingMessage : string :=
  "Missing conversations.json file in the zip archive".

(** The [catch] of [process]. *)
Definition failed (message : string) : promise export :=
  Rejected ("Failed to process zip file: " +:+ message).

Definition process (zip : archive) : promise export :=
  match open_error zip with
  | Some message => failed message
  | None =>
      let conversationsEntry :=
        findEntry "conversations.json" (entries zip) in
      let usersEntry := findEntry "users.json" (entries zip) in
      let projectsEntry := findEntry "projects.json" (entries zip) in
      match conversationsEntry with
      | None => failed missingMessage
      | Some conversationsEntry =>
          match extract_error zip with
          | Some message => failed message
          | None =>
              let users :=
                from_option (processJsonFile ∘ content) [] usersEntry in
              let projects :=
                from_option (processJsonFile ∘ content) []
                  projectsEntry in
              match processConversationsFile
                      (content conversationsEntry) with
              | Resolved conversations =>
                  Resolved {| users := users; projects := projects;
                              conversations := conversations |}
              | Rejected message => failed message
              | Unhandled => Unhandled
              end
          end
      end
  end.

End Processor.
Arguments file_content : clear implicits.
Arguments entry : clear implicits.
Arguments archive : clear implicits.
Arguments export : clear implicits.
End ZipProcessor.

(** ** Rules of the specification, closed forms and sample data *)

Module Spec.
Import Js BaseRepository AppController.

(** The decision table of the sync engine: a conversation [c] is
    processed against the stored record [existing] when one of the four
    conditions holds. *)
Definition process_rule (force : bool) (existing : option conversation)
  (c : conversation) : Prop :=
  force = true ∨
  existing = None ∨
  (∃ e, existing = Some e ∧ processed e ≠ Some true) ∨
  (∃ e, existing = Some e ∧ updated_at e ≠ updated_at c).

(** What the render phase makes of one stored conversation taken on its
    own: a skipped conversation and one whose rendering throws stay as
    they are, a rendered one gets the two keys. *)
Definition rendered_record (force : bool) (outputDir : string)
  (Date_parse : string → option date) (now : date)
  (path_join : string → string → string)
  (generate : conversation → option string) (c : conversation)
  : conversation :=
  if alreadyRendered force c then c
  else
    match generate c, outputFilename Date_parse now c with
    | Some _, Some filename =>
        spread c (renderedKeys (path_join outputDir filename))
    | _, _ => c
    end.

(** The store after [i] steps of the render loop over [data], when the
    uuids of [data] are distinct. *)
Definition partly_rendered (force : bool) (outputDir : string)
  (Date_parse : string → option date) (now : date)
  (path_join : string → string → string)
  (generate : conversation → option string)
  (data : list conversation) (i : nat) : list conversation :=
  (rendered_record force outputDir Date_parse now path_join generate <$>
     take i data) ++ drop i data.

(** An optional string that is absent or holds white space only. *)
Definition blank (o : option string) : Prop :=
  ∀ s, o = Some s → trim s = "".

(** A line cut after 50 characters, with an ellipsis when it was
    longer. *)
Definition ellipsize (line : string) : string :=
  if (50 <? String.length line)%nat
  then substring_to 50 line +:+ "..."
  else line.

(** [YYYYMMDD_HHMMSS] *)
Definition stamp (d : date) : string :=
  string_of_list_ascii
    (pad4 (year d) ++ pad2 (month d) ++ pad2 (day d) ++
     "_"%char :: pad2 (hours d) ++ pad2 (minutes d) ++ pad2 (seconds d)).

(** The characters of a slug: lower-case letters, digits and dashes. *)
Definition slug_characters (s : string) : Prop :=
  Forall (λ c, is_slug_char c || is_dash c = true) (list_ascii_of_string s).

(** The text before the first fence of [s] and the text behind that
    fence. *)
Fixpoint split_fence (s : chars) : option (chars * chars) :=
  match s with
  | [] => None
  | c :: s' =>
      if MarkdownGenerator.at_fence s then Some ([], drop 3 s)
      else prod_map (cons c) id <$> split_fence s'
  end.

(** A text in which no fence occurs. *)
Definition fenceless (s : chars) : Prop :=
  ∀ a b, s ≠ a ++ MarkdownGenerator.fence ++ b.

(** A text [p] such that the first fence of [p] followed by a fence is
    that one. *)
Definition clean (p : chars) : Prop :=
  split_fence (p ++ MarkdownGenerator.fence) = Some (p, []).

End Spec.

Module Samples.

Definition hello : message :=
  {| sender := Some "human"; text := Some "Hello, Claude!" |}.

Definition reply : message :=
  {| sender := Some "assistant";
     text := Some "Hello! How can I help you today?" |}.

(** A conversation of the store that has been rendered. *)
Definition stored : conversation :=
  {| uuid := Some "test-uuid-1";
     name := Some "Test Conversation";
     created_at := Some "2025-01-01T12:00:00Z";
     updated_at := Some "2025-01-01T12:30:00Z";
     account := Some "test-account-uuid";
     chat_messages := Some [hello];
     processed := Some true;
     markdownPath := Some "output/20250101_120000_test-conversation.md" |}.

(** The same conversation in a later export, with one more message. *)
Definition changed : conversation :=
  {| uuid := Some "test-uuid-1";
     name := Some "Test Conversation";
     created_at := Some "2025-01-01T12:00:00Z";
     updated_at := Some "2025-03-05T08:00:00Z";
     account := Some "test-account-uuid";
     chat_messages := Some [hello; reply];
     processed := None;
     markdownPath := None |}.

(** A conversation as exported, not yet in the store. *)
Definition fresh : conversation :=
  {| uuid := Some "test-uuid-2";
     name := None;
     created_at := Some "2025-01-01T12:00:00Z";
     updated_at := Some "2025-01-01T12:30:00Z";
     account := Some "test-account-uuid";
     chat_messages :=
       Some [{| sender := Some "human";
                text := Some "What is the meaning of life?" |}];
     processed := None;
     markdownPath := None |}.

(** The conversation of the filename example. *)
Definition test_project : conversation :=
  {| uuid := Some "test-uuid-3";
     name := Some "Test Project!!";
     created_at := Some "2025-01-01T12:00:00Z";
     updated_at := Some "2025-01-01T12:30:00Z";
     account := None;
     chat_messages := Some [hello; reply];
     processed := None;
     markdownPath := None |}.

(** A conversation whose name is a single space. *)
Definition blank_name : conversation :=
  {| uuid := Some "test-uuid-4";
     name := Some " ";
     created_at := Some "2025-01-01T12:00:00Z";
     updated_at := Some "2025-01-01T12:30:00Z";
     account := None;
     chat_messages := Some [hello; reply];
     processed := None;
     markdownPath := None |}.

(** A conversation without a name whose first message starts with
    spaces. *)
Definition padded_message : conversation :=
  {| uuid := Some "test-uuid-5";
     name := None;
     created_at := Some "2025-01-01T12:00:00Z";
     updated_at := Some "2025-01-01T12:30:00Z";
     account := None;
     chat_messages :=
       Some [{| sender := Some "human"; text := Some "  Hi there" |}];
     processed := None;
     markdownPath := None |}.

Definition join (dir file : string) : string := dir +:+ "/" +:+ file.

(** A line break. *)
Definition nl : string := String Js.newline "".

(** A generator that throws on conversations without a name. *)
Definition named_only (c : conversation) : option string :=
  if Js.truthy_string (name c) then Some "# document" else None.

(** The archives of the tests: one without conversations and one with
    nothing else. *)
Definition users_only : ZipProcessor.archive conversation :=
  {| ZipProcessor.open_error := None;
     ZipProcessor.entries :=
       [{| ZipProcessor.entryName := "users.json";
           ZipProcessor.content := ZipProcessor.JsonArray [] |}];
     ZipProcessor.extract_error := None |}.

Definition conversations_only : ZipProcessor.archive conversation :=
  {| ZipProcessor.open_error := None;
     ZipProcessor.entries :=
       [{| ZipProcessor.entryName := "conversations.json";
           ZipProcessor.content := ZipProcessor.JsonArray [fresh] |}];
     ZipProcessor.extract_error := None |}.

End Samples.

(** ** The rest of the program

    The functions that stand beside the ones above in the same sources,
    and the ones that call them. *)

(** *** Arrays: [sort] with a comparator and [slice] *)

Module JsArray.
Section Sort.
Context {A : Type}.
(** The comparator; [None] is [NaN]. *)
Variable compare : A → A → option Z.

(** [[...array].sort(compare)] as the stable insertion sort that
    [AppController.sortedConversations] is written as. *)
Fixpoint sort_insert (x : A) (sorted : list A) : list A :=
  match sorted with
  | [] => [x]
  | y :: rest =>
      if bool_decide (0 < default 0 (compare y x))%Z
      then x :: sorted
      else y :: sort_insert x rest
  end.

Definition sort (array : list A) : list A :=
  foldl (λ sorted x, sort_insert x sorted) [] array.

End Sort.

(** [array.slice(0, limit)] for a count [limit]. *)
Definition slice_to {A} (limit : nat) (array : list A) : list A :=
  take limit array.

End JsArray.

(** *** The queries of the three repositories *)

Module Queries.
Import Js.

(** [x.name && x.name.toLowerCase().includes(lowerName)] *)
Definition nameIncludes (lowerName : string) (o : option string) : bool :=
  truthy_string o && includes lowerName (toLowerCase (interpolate o)).

(** [new Date(x)] for an optional string; [new Date(undefined)] is the
    invalid date. *)
Definition newDate (Date_parse : string → option date) (o : option string)
  : option date :=
  s ← o; Date_parse s.

(** [(a, b) => new Date(b.updated_at) - new Date(a.updated_at)] *)
Definition byUpdated {R} (Date_parse : string → option date)
  (updated : R → option string) (a b : R) : option Z :=
  tb ← newDate Date_parse (updated b);
  ta ← newDate Date_parse (updated a);
  Some (date_rank tb - date_rank ta)%Z.

(** [a >= b] and [a <= b] on time values; a comparison with [NaN] is
    false. *)
Definition time_ge (a b : option Z) : bool :=
  match a, b with
  | Some a, Some b => (b <=? a)%Z
  | _, _ => false
  end.

Definition time_le (a b : option Z) : bool := time_ge b a.

End Queries.

Module ConversationsRepository.
Import Js BaseRepository Queries.

Definition findByName (name_ : string) (data : list conversation)
  : list conversation :=
  let lowerName := toLowerCase name_ in
  List.filter (λ c, nameIncludes lowerName (name c)) data.

(** [conversation.account && conversation.account.uuid === accountUuid] *)
Definition findByAccount (accountUuid : string) (data : list conversation)
  : list conversation :=
  List.filter (λ c, strict_eq (account c) (Some accountUuid)) data.

Definition findRecent (Date_parse : string → option date) (limit : nat)
  (data : list conversation) : list conversation :=
  JsArray.slice_to limit (JsArray.sort (byUpdated Date_parse updated_at) data).

Definition findUnprocessed (data : list conversation) : list conversation :=
  List.filter (λ c, negb (truthy_bool (processed c))) data.

Definition findProcessed (data : list conversation) : list conversation :=
  List.filter (λ c, truthy_bool (processed c)) data.

(** [getTime()] through [date_rank], which orders as the time values
    do. *)
Definition findByDateRange (Date_parse : string → option date)
  (startDate endDate : string) (data : list conversation)
  : list conversation :=
  let start := date_rank <$> newDate Date_parse (Some startDate) in
  let end_ := date_rank <$> newDate Date_parse (Some endDate) in
  List.filter
    (λ c, let createdAt := date_rank <$> newDate Date_parse (created_at c) in
          time_ge createdAt start && time_le createdAt end_)
    data.

Definition findByContent (content : string) (data : list conversation)
  : list conversation :=
  let lowerContent := toLowerCase content in
  List.filter
    (λ c, match chat_messages c with
          | None => false
          | Some messages =>
              existsb (λ m, nameIncludes lowerContent (text m)) messages
          end)
    data.

(** [this.update(uuid, { processed: true, markdownPath })] *)
Definition markAsProcessed (k : option string) (markdownPath : string)
  (data : list conversation) : list conversation * option conversation :=
  update k (AppController.renderedKeys markdownPath) data.

End ConversationsRepository.

Module UsersQueries.
Import Js Queries UsersRepository.

(** [find((user) => user.email_address === email) || null] *)
Definition findByEmail (email : string) (data : list user) : option user :=
  List.find (λ u, strict_eq (email_address u) (Some email)) data.

Definition findByName (name_ : string) (data : list user) : list user :=
  let lowerName := toLowerCase name_ in
  List.filter (λ u, nameIncludes lowerName (full_name u)) data.

End UsersQueries.

Module ProjectsQueries.
Import Js Queries ProjectsRepository.

Definition findByName (name_ : string) (data : list project)
  : list project :=
  let lowerName := toLowerCase name_ in
  List.filter (λ p, nameIncludes lowerName (name p)) data.

(** [project.creator && project.creator.uuid === creatorUuid];
    [creator] holds [creator.uuid]. *)
Definition findByCreator (creatorUuid : string) (data : list project)
  : list project :=
  List.filter (λ p, strict_eq (creator p) (Some creatorUuid)) data.

Definition findRecent (Date_parse : string → option date) (limit : nat)
  (data : list project) : list project :=
  JsArray.slice_to limit (JsArray.sort (byUpdated Date_parse updated_at) data).

End ProjectsQueries.

(** *** AppController.storeData: users and projects *)

Module StoreRecords.
Import BaseRepository.

(** [for (const item of items) { await repository.upsert(item); }] *)
Definition upsertEach {R} `{Item R} (items : list R) (data : list R)
  : list R :=
  foldl (λ data item, (upsert item data).1) data items.

End StoreRecords.

(** *** fileUtils *)

Module FileUtils.
Import Js MarkdownGenerator.

(** [generateFilename]: the timestamp of [created_at], or of the clock,
    and the slug of a truthy name, or the uuid. *)
Definition generateFilename (Date_parse : string → option date) (now : date)
  (c : conversation) : option string :=
  d ← (if truthy_string (created_at c)
       then Date_parse (interpolate (created_at c))
       else Some now);
  let timestamp := AppController.timestamp d in
  let nameSlug :=
    if truthy_string (name c)
    then AppController.slug (interpolate (name c))
    else interpolate (uuid c) in
  Some (timestamp +:+ "_" +:+ nameSlug +:+ ".md").

(** [extractConversationUuid]: the first match of the pattern made of
    the address of a chat and a group of one or more characters among
    a-f, 0-9 and the dash. *)
Definition chatAddress : string := "https://claude.ai/chat/".

Definition is_id_char (c : ascii) : bool :=
  code_in 97 102 c || code_in 48 57 c || AppController.is_dash c.

(** A greedy plus: one character of the class, then a greedy star. *)
Definition greedy_plus {A} (class : ascii → bool) (s : chars)
  (k : chars → chars → option A) : option A :=
  match s with
  | c :: s' =>
      if class c then greedy_star class s' (λ taken, k (c :: taken))
      else None
  | [] => None
  end.

(** The pattern at the head of [s]: its group. *)
Definition match_address (s : chars) : option chars :=
  literal (list_ascii_of_string chatAddress) s (λ _ s1,
    greedy_plus is_id_char s1 (λ group _, Some group)).

(** [content.match(pattern)]: the match that starts first. *)
Fixpoint first_match (s : chars) : option chars :=
  match match_address s with
  | Some group => Some group
  | None =>
      match s with
      | [] => None
      | _ :: s' => first_match s'
      end
  end.

(** The file by its content, [None] when reading it throws. *)
Definition extractConversationUuid (file : option string) : option string :=
  match file with
  | None => None
  | Some content =>
      match first_match (list_ascii_of_string content) with
      | Some group =>
          let id := string_of_list_ascii group in
          if truthy_string (Some id) then Some id else None
      | None => None
      end
  end.

(** [formatFileSize] on a whole number of bytes below 2^53.  A division
    by a power of two is exact on such numbers, and [toFixed(1)] rounds
    the exact value to the nearest tenth, upwards on a tie. *)
Definition decimal (n : Z) : string :=
  DecimalString.NilZero.string_of_int (Z.to_int n).

(** [(size / unit).toFixed(1)] for [size >= 0]: the number of tenths,
    then its digits. *)
Definition tenths (size unit : Z) : Z :=
  ((20 * size + unit) / (2 * unit))%Z.

Definition toFixed1 (size unit : Z) : string :=
  let n := tenths size unit in
  decimal (n / 10) +:+ "." +:+ decimal (n mod 10).

Definition formatFileSize (size : Z) : string :=
  if (size <? 1024)%Z then decimal size +:+ " bytes"
  else if (size <? 1024 * 1024)%Z then toFixed1 size 1024 +:+ " KB"
  else if (size <? 1024 * 1024 * 1024)%Z
       then toFixed1 size (1024 * 1024) +:+ " MB"
  else toFixed1 size (1024 * 1024 * 1024) +:+ " GB".

End FileUtils.

(** *** MarkdownGenerator: metadata, footer and text direction *)

Module Document.
Import Js.

Definition lineFeed : string := String newline "".

(** [generateMetadata]; [formatDate] is
    [dayjs(x).format("YYYY-MM-DD HH:mm:ss")], which prints in the time
    zone of the machine. *)
Definition generateMetadata (formatDate : string → string)
  (c : conversation) : string :=
  let metadata := "" in
  let metadata :=
    if truthy_string (created_at c)
    then metadata +:+ "- **Created at**: " +:+
         formatDate (interpolate (created_at c)) +:+ lineFeed
    else metadata in
  let metadata :=
    if truthy_string (updated_at c)
    then metadata +:+ "- **Last updated**: " +:+
         formatDate (interpolate (updated_at c)) +:+ lineFeed
    else metadata in
  let metadata :=
    if truthy_string (account c)
    then metadata +:+ "- **Account UUID**: " +:+
         interpolate (account c) +:+ lineFeed
    else metadata in
  if truthy_string (Some metadata)
  then "## Metadata" +:+ lineFeed +:+ lineFeed +:+ metadata +:+
       lineFeed +:+ lineFeed +:+ "---" +:+ lineFeed +:+ lineFeed
  else metadata.

(** The last line that [generate] appends:
    [`Original conversation: https://claude.ai/chat/${conversation.uuid}\n`] *)
Definition originalLink (c : conversation) : string :=
  "Original conversation: https://claude.ai/chat/" +:+
  interpolate (uuid c) +:+ lineFeed.

(** [detectTextDirection] on the code units of a text, which here may
    be any 16-bit values. *)
Inductive direction := ltr | rtl.

Local Open Scope N_scope.

Definition unit_in (lo hi u : N) : bool := (lo <=? u) && (u <=? hi).

(** The class of [rtlUnicodeRegex]. *)
Definition rtlUnicode (u : N) : bool :=
  unit_in 0x0591 0x07FF u || unit_in 0xFB1D 0xFDFD u ||
  unit_in 0xFE70 0xFEFC u || unit_in 0x05d0 0x05ea u ||
  unit_in 0x05f0 0x05f4 u.

Definition units (s : string) : list N :=
  N_of_ascii <$> list_ascii_of_string s.

Fixpoint includes_units (needle haystack : list N) : bool :=
  bool_decide (needle `prefix_of` haystack) ||
  match haystack with
  | [] => false
  | _ :: rest => includes_units needle rest
  end.

Definition detectTextDirection (text : list N) : direction :=
  if bool_decide (text = []) then ltr
  else if existsb rtlUnicode text then rtl
  else if includes_units (units "\u05") text ||
          includes_units (units "\u06") text then rtl
  else if (includes_units [0x00d7] text && includes_units [0x2014] text) ||
          includes_units [0x05d2] text ||
          includes_units [0x05d1] text ||
          includes_units [0x05e5] text then rtl
  else ltr.

End Document.
(** *** Notions that the properties below are stated with *)

Module Notions.
Import Js BaseRepository AppController.

(** The first record under the uuid of [item] has every key of [item]
    with the value that [item] gives it. *)
Definition settled {R} `{Item R} (item : R) (data : list R) : Prop :=
  ∃ r, findByUuid (item_uuid item) data = Some r ∧ spread r item = r.

(** A list in which no element has a greater time than an element
    before it. *)
Definition newest_first {A} (time : A → Z) (l : list A) : Prop :=
  Sorted.StronglySorted (λ a b, (time b ≤ time a)%Z) l.

(** The times that the two sorts compare, for records whose dates are
    valid. *)
Definition updatedRank (Date_parse : string → option date)
  (c : conversation) : Z :=
  from_option date_rank 0%Z (updatedDate Date_parse c).

Definition recentRank {R} (Date_parse : string → option date)
  (updated : R → option string) (r : R) : Z :=
  from_option date_rank 0%Z (Queries.newDate Date_parse (updated r)).

(** A conversation that the sync loop does not pass over as invalid. *)
Definition has_id (c : conversation) : bool := truthy_string (uuid c).

(** The file that the render phase writes for one stored conversation
    taken on its own: none for a skipped conversation and for one whose
    rendering throws. *)
Definition rendered_file (force : bool) (outputDir : string)
  (Date_parse : string → option date) (now : date)
  (path_join : string → string → string)
  (generate : conversation → option string) (c : conversation)
  : option (string * string) :=
  if alreadyRendered force c then None
  else
    match generate c, outputFilename Date_parse now c with
    | Some markdown, Some filename =>
        Some (path_join outputDir filename, markdown)
    | _, _ => None
    end.

(** The state of the render loop after the steps on the first [i]
    records of [data], when the uuids of [data] are distinct. *)
Definition state_after (force : bool) (outputDir : string)
  (Date_parse : string → option date) (now : date)
  (path_join : string → string → string)
  (generate : conversation → option string)
  (data : list conversation) (written : list (string * string)) (i : nat)
  : render_state :=
  let file_of :=
    rendered_file force outputDir Date_parse now path_join generate in
  {| conversations :=
       Spec.partly_rendered force outputDir Date_parse now path_join
         generate data i;
     files := written ++ omap file_of (take i data);
     generatedCount := length (omap file_of (take i data));
     renderSkipped :=
       length (List.filter (alreadyRendered force) (take i data)) |}.

(** The stored record of a conversation would make the sync loop skip
    the conversation. *)
Definition kept_back (c : conversation) (data : list conversation) : Prop :=
  ∃ e, findByUuid (uuid c) data = Some e ∧
       truthy_bool (processed e) = true ∧ updated_at e = updated_at c.

End Notions.

(** * Properties *)

(** ** The record store *)

Module StoreProperties.
Import BaseRepository.
Section Store.
Context {R : Type} `{Item R}.
Implicit Types (data : list R) (item r : R) (k : option string).

Lemma find_has_uuid k data i x :
  list_find (has_uuid k) data = Some (i, x) →
  data !! i = Some x ∧ item_uuid x = k ∧
  ∀ j y, data !! j = Some y → j < i → item_uuid y ≠ k.
Proof. intros Hf. by apply list_find_Some in Hf. Qed.

Lemma exists_true k data :
  exists_ k data = true → ∃ i x, list_find (has_uuid k) data = Some (i, x).
Proof.
  unfold exists_. intros Hex%bool_decide_eq_true.
  destruct (list_find (has_uuid k) data) as [[i x]|] eqn:Hf; [eauto|].
  apply list_find_None in Hf. apply Exists_exists in Hex as (x & Hx & Hk).
  rewrite Forall_forall in Hf. by destruct (Hf x Hx).
Qed.

Lemma exists_false k data :
  exists_ k data = false → list_find (has_uuid k) data = None.
Proof.
  unfold exists_. intros Hex%bool_decide_eq_false.
  apply list_find_None, Forall_forall. intros x Hx Hk.
  apply Hex, Exists_exists. eauto.
Qed.

Lemma exists_false_not_in k data :
  exists_ k data = false → k ∉ item_uuid <$> data.
Proof.
  intros Hf%exists_false [x [-> Hx]]%list_elem_of_fmap.
  apply list_find_None in Hf. rewrite Forall_forall in Hf.
  by apply (Hf x Hx).
Qed.

(** The uuid of the element that [update] writes. *)
Lemma updated_uuid k x u :
  item_uuid x = k → item_uuid u = None ∨ item_uuid u = k →
  item_uuid (spread x u) = k.
Proof.
  intros Hx Hu. rewrite spread_uuid.
  destruct Hu as [-> | Hu]; [done|]. rewrite Hu, <- Hx.
  by destruct (item_uuid x).
Qed.

Lemma uuids_after_update k x u i data :
  data !! i = Some x → item_uuid (spread x u) = item_uuid x →
  item_uuid <$> <[i := spread x u]> data = item_uuid <$> data.
Proof.
  intros Hi Hu. rewrite list_fmap_insert, Hu.
  apply list_insert_id. by rewrite list_lookup_fmap, Hi.
Qed.

Lemma update_keeps_unique k u data :
  item_uuid u = None ∨ item_uuid u = k →
  uuid_unique data → uuid_unique (update k u data).1.
Proof.
  intros Hu Hnd. unfold update.
  destruct (list_find (has_uuid k) data) as [[i x]|] eqn:Hf; [|done].
  apply find_has_uuid in Hf as (Hi & Hx & _). unfold uuid_unique.
  change (NoDup (item_uuid <$> <[i := spread x u]> data)).
  rewrite (uuids_after_update k x u i data Hi); [done|].
  rewrite (updated_uuid k x u Hx Hu). done.
Qed.

Lemma delete_keeps_unique k data :
  uuid_unique data → uuid_unique (delete k data).1.
Proof.
  intros Hnd. unfold delete.
  destruct (list_find (has_uuid k) data) as [[i x]|]; [|done]. simpl.
  unfold uuid_unique. rewrite list_fmap_delete.
  exact (sublist_NoDup _ _ Hnd (sublist_delete _ _)).
Qed.

Lemma insert_keeps_unique item data :
  exists_ (item_uuid item) data = false →
  uuid_unique data → uuid_unique (insert item data).1.
Proof.
  intros Hex Hnd. unfold insert, uuid_unique. simpl. rewrite fmap_app.
  apply NoDup_app. split; [done|]. split; [|apply NoDup_singleton].
  intros x Hx [->|[]%elem_of_nil]%elem_of_cons.
  by apply (exists_false_not_in _ _ Hex).
Qed.

Lemma upsert_keeps_unique item data :
  uuid_unique data → uuid_unique (upsert item data).1.
Proof.
  intros Hnd. unfold upsert.
  destruct (exists_ (item_uuid item) data) eqn:Hex.
  - apply update_keeps_unique; auto.
  - by apply insert_keeps_unique.
Qed.

(** What [update] does when the key is found at [i]. *)
Lemma update_found k u data i x :
  list_find (has_uuid k) data = Some (i, x) →
  update k u data = (<[i := spread x u]> data, Some (spread x u)).
Proof. intros Hf. unfold update. by rewrite Hf. Qed.

Lemma upsert_existing r data i x :
  list_find (has_uuid (item_uuid r)) data = Some (i, x) →
  (upsert r data).1 = <[i := spread x r]> data.
Proof.
  intros Hf. unfold upsert.
  assert (exists_ (item_uuid r) data = true) as ->.
  { apply bool_decide_eq_true, Exists_exists.
    apply find_has_uuid in Hf as (Hi & Hx & _).
    exists x. split; [|done]. by eapply list_elem_of_lookup_2. }
  by rewrite (update_found _ _ _ _ _ Hf).
Qed.

Lemma upsert_new r data :
  list_find (has_uuid (item_uuid r)) data = None →
  (upsert r data).1 = data ++ [r].
Proof.
  intros Hf. unfold upsert.
  assert (exists_ (item_uuid r) data = false) as ->; [|done].
  apply bool_decide_eq_false. intros (x & Hx & Hk)%Exists_exists.
  apply list_find_None in Hf. rewrite Forall_forall in Hf.
  by apply (Hf x Hx).
Qed.

End Store.

(** C4. [upsert] is idempotent: for every collection and every record,
    with or without a uuid, a second [upsert] of the record leaves the
    collection that the first one produced, and [count()] is the same
    after both. *)
Theorem upsert_idempotent {R : Type} `{Item R} (r : R) (data : list R) :
  (upsert r (upsert r data).1).1 = (upsert r data).1 ∧
  count (upsert r (upsert r data).1).1 = count (upsert r data).1.
Proof.
  assert ((upsert r (upsert r data).1).1 = (upsert r data).1) as Heq.
  { destruct (list_find (has_uuid (item_uuid r)) data) as [[i x]|] eqn:Hf.
    - rewrite (upsert_existing _ _ _ _ Hf).
      pose proof Hf as (Hi & Hx & Hfirst)%find_has_uuid.
      assert (item_uuid (spread x r) = item_uuid r) as Hux.
      { apply updated_uuid; auto. }
      assert (i < length data) as Hlt by by eapply lookup_lt_Some.
      rewrite (upsert_existing r _ i (spread x r)).
      + by rewrite list_insert_insert_eq, spread_again.
      + apply list_find_Some. split_and!.
        * by apply list_lookup_insert_eq.
        * done.
        * intros j y Hj Hji. rewrite list_lookup_insert_ne in Hj by lia.
          by eapply Hfirst.
    - rewrite (upsert_new _ _ Hf).
      rewrite (upsert_existing r _ (length data) r).
      + rewrite insert_app_r_alt by lia.
        replace (length data - length data) with 0 by lia. simpl.
        by rewrite spread_self.
      + apply list_find_Some. split_and!.
        * by rewrite lookup_app_r, Nat.sub_diag by lia.
        * done.
        * intros j y Hj Hji. rewrite lookup_app_l in Hj by lia.
          apply list_find_None in Hf. rewrite Forall_forall in Hf.
          eapply Hf. by eapply list_elem_of_lookup_2. }
  split; [done|]. by rewrite Heq.
Qed.

(** C3 (as amended).  In a collection whose uuid values are pairwise
    distinct, [delete] and [upsert] always leave them pairwise distinct;
    [insert] does when no stored record has the uuid of the new item, and
    [update] does when the partial record has no uuid or the uuid it is
    applied to. *)
Theorem mutations_keep_uuid_unique {R : Type} `{Item R} (data : list R) :
  uuid_unique data →
  (∀ k, uuid_unique (delete k data).1) ∧
  (∀ item, uuid_unique (upsert item data).1) ∧
  (∀ item, exists_ (item_uuid item) data = false →
           uuid_unique (insert item data).1) ∧
  (∀ k updates, item_uuid updates = None ∨ item_uuid updates = k →
                uuid_unique (update k updates data).1).
Proof.
  intros Hnd. split_and!.
  - intros k. by apply delete_keeps_unique.
  - intros item. by apply upsert_keeps_unique.
  - intros item Hex. by apply insert_keeps_unique.
  - intros k u Hu. by apply update_keeps_unique.
Qed.

Lemma mutations_keep_uuid_unique_witness :
  uuid_unique [Samples.stored] ∧
  (∀ k, uuid_unique (delete k [Samples.stored]).1) ∧
  (∀ item, uuid_unique (upsert item [Samples.stored]).1) ∧
  (∀ item, exists_ (item_uuid item) [Samples.stored] = false →
           uuid_unique (insert item [Samples.stored]).1) ∧
  (∀ k updates, item_uuid updates = None ∨ item_uuid updates = k →
                uuid_unique (update k updates [Samples.stored]).1).
Proof.
  assert (uuid_unique [Samples.stored]) as Hnd.
  { unfold uuid_unique. simpl. apply NoDup_singleton. }
  split; [exact Hnd|].
  exact (mutations_keep_uuid_unique [Samples.stored] Hnd).
Defined.

(** C3, counterexample.  [insert] pushes without looking: inserting the
    changed export of a stored conversation leaves two records with the
    same uuid. *)
Lemma insert_duplicates_uuid :
  uuid_unique [Samples.stored] ∧
  ¬ uuid_unique (insert Samples.changed [Samples.stored]).1.
Proof.
  split.
  - unfold uuid_unique. simpl. apply NoDup_singleton.
  - unfold uuid_unique. simpl. intros Hnd.
    apply NoDup_cons in Hnd as [Hin _]. apply Hin. by left.
Qed.

End StoreProperties.

(** ** The sync engine and the render phase *)

Module ControllerProperties.
Import Js BaseRepository AppController Spec StoreProperties.

Lemma findByUuid_None (k : option string) (data : list conversation) :
  findByUuid k data = None ↔ ∀ x, x ∈ data → uuid x ≠ k.
Proof.
  unfold findByUuid. rewrite fmap_None, list_find_None, Forall_forall.
  done.
Qed.

Lemma shouldProcess_rule force existing c :
  shouldProcess force existing c = true ↔ process_rule force existing c.
Proof.
  unfold shouldProcess, process_rule, strict_eq. split.
  - destruct force; [by left|]. simpl.
    destruct existing as [e|]; [|by right; left].
    intros [Hp|Hu]%orb_true_iff.
    + right; right; left. exists e. split; [done|].
      intros Heq. by rewrite Heq in Hp.
    + right; right; right. exists e. split; [done|].
      by apply negb_true_iff, bool_decide_eq_false in Hu.
  - intros [->|[->|[(e & -> & Hp)|(e & -> & Hu)]]].
    + done.
    + by rewrite orb_true_r.
    + apply orb_true_iff; right. apply orb_true_iff; left.
      destruct (processed e) as [[]|]; done.
    + apply orb_true_iff; right. apply orb_true_iff; right.
      by apply negb_true_iff, bool_decide_eq_false.
Qed.

Lemma sorted_insert_perm Date_parse c sorted :
  sorted_insert Date_parse c sorted ≡ₚ c :: sorted.
Proof.
  induction sorted as [|d rest IH]; [done|]. simpl.
  case_bool_decide; [done|]. rewrite IH. apply Permutation_swap.
Qed.

Lemma sortedConversations_perm Date_parse batch :
  sortedConversations Date_parse batch ≡ₚ batch.
Proof.
  unfold sortedConversations.
  assert (∀ acc, foldl (λ sorted c, sorted_insert Date_parse c sorted) acc
                   batch ≡ₚ acc ++ batch) as Hgen; [|apply (Hgen [])].
  induction batch as [|c batch IH]; intros acc; simpl.
  - by rewrite app_nil_r.
  - rewrite IH, sorted_insert_perm. apply Permutation_middle.
Qed.

Lemma storeConversation_valid force c (data : list conversation) :
  truthy_string (uuid c) = true →
  storeConversation force c data =
    if shouldProcess force (findByUuid (uuid c) data) c
    then ((upsert c data).1, Stored) else (data, Skipped).
Proof.
  intros Hvalid. unfold storeConversation. rewrite Hvalid. simpl.
  by destruct (shouldProcess force (findByUuid (uuid c) data) c).
Qed.

Lemma storeTrace_conversations force sorted (data : list conversation) :
  (λ turn, turn.1.1) <$> storeTrace force sorted data = sorted.
Proof.
  revert data. induction sorted as [|c rest IH]; intros data; [done|].
  simpl. destruct (storeConversation force c data) as [data' d].
  simpl. by rewrite IH.
Qed.

Lemma storeTrace_decisions force sorted (data : list conversation) :
  Forall (λ turn, (storeConversation force turn.1.1 turn.1.2).2 = turn.2)
    (storeTrace force sorted data).
Proof.
  revert data. induction sorted as [|c rest IH]; intros data; [done|].
  simpl. destruct (storeConversation force c data) as [data' d] eqn:Hstep.
  constructor; [by simpl; rewrite Hstep|apply IH].
Qed.

(** C1.  For a conversation that carries a uuid, the step of the sync
    loop depends on the force flag, on the record found in the store
    under that uuid and on the incoming record only: the conversation is
    upserted when the flag is set, or no record with its uuid is stored,
    or the stored record is not marked processed, or the two
    [updated_at] differ; otherwise the store is left as it is and the
    conversation counts as skipped.  For every batch, the turns of the
    loop are the conversations of the batch in some order, and the
    decision of each turn follows the rule on the store as it is at that
    turn. *)
Theorem sync_decision (force : bool) :
  (∀ (c : conversation) (data : list conversation),
     truthy_string (uuid c) = true →
     let existing := findByUuid (uuid c) data in
     (existing = None ↔ ∀ x, x ∈ data → uuid x ≠ uuid c) ∧
     (shouldProcess force existing c = true ↔
        process_rule force existing c) ∧
     (process_rule force existing c →
        storeConversation force c data = ((upsert c data).1, Stored)) ∧
     (¬ process_rule force existing c →
        storeConversation force c data = (data, Skipped))) ∧
  (∀ Date_parse (batch data : list conversation),
     let turns :=
       storeTrace force (sortedConversations Date_parse batch) data in
     (λ turn, turn.1.1) <$> turns ≡ₚ batch ∧
     Forall (λ '(c, at_turn, d),
               truthy_string (uuid c) = true →
               let existing := findByUuid (uuid c) at_turn in
               process_rule force existing c ∧ d = Stored ∨
               ¬ process_rule force existing c ∧ d = Skipped) turns).
Proof.
  split.
  - intros c data Hvalid existing. split_and!.
    + apply findByUuid_None.
    + apply shouldProcess_rule.
    + intros Hrule%shouldProcess_rule.
      rewrite storeConversation_valid by done. fold existing.
      by rewrite Hrule.
    + intros Hrule. rewrite storeConversation_valid by done. fold existing.
      destruct (shouldProcess force existing c) eqn:Hs; [|done].
      by apply shouldProcess_rule in Hs.
  - intros Date_parse batch data turns. split.
    + unfold turns. rewrite storeTrace_conversations.
      apply sortedConversations_perm.
    + eapply Forall_impl; [apply storeTrace_decisions|].
      intros [[c at_turn] d] Hd Hvalid existing. simpl in Hd.
      rewrite storeConversation_valid in Hd by done. fold existing in Hd.
      destruct (shouldProcess force existing c) eqn:Hs.
      * left. split; [by apply shouldProcess_rule|done].
      * right. split; [|done]. intros Hr%shouldProcess_rule. congruence.
Qed.

Lemma sync_decision_witness :
  truthy_string (uuid Samples.changed) = true ∧
  storeConversation false Samples.changed [Samples.stored] =
    ((upsert Samples.changed [Samples.stored]).1, Stored) ∧
  storeConversation false Samples.stored [Samples.stored] =
    ([Samples.stored], Skipped).
Proof.
  split; [reflexivity|].
  destruct (proj1 (sync_decision false) Samples.changed [Samples.stored]
              eq_refl) as (_ & _ & Hyes & _).
  destruct (proj1 (sync_decision false) Samples.stored [Samples.stored]
              eq_refl) as (_ & _ & _ & Hno).
  split.
  - apply Hyes. right; right; right. exists Samples.stored. by split.
  - apply Hno. intros [?|[?|[(e & He & Hp)|(e & He & Hu)]]];
      [done|done| |]; vm_compute in He; by simplify_eq.
Defined.

(** C2, the failing input evaluated.  The store holds a rendered
    conversation; a later export brings it with another [updated_at]
    and one more message.  The sync engine upserts it, and the spread of
    [update] keeps [processed] and [markdownPath] of the stored record;
    the render phase then skips the conversation and writes no file,
    whatever the generator, the clock and the output directory are. *)
Theorem changed_conversation_not_rendered (outputDir : string)
  (Date_parse : string → option date) (now : date)
  (path_join : string → string → string)
  (generate : conversation → option string) :
  let synced := storeData false Date_parse [Samples.changed]
                  [Samples.stored] in
  let rendered := generateMarkdownFiles false outputDir Date_parse now
                    path_join generate synced.1 [] in
  synced = ([spread_conversation Samples.stored Samples.changed],
            {| processedCount := 1; skippedCount := 0 |}) ∧
  chat_messages <$> synced.1 = [Some [Samples.hello; Samples.reply]] ∧
  files rendered = [] ∧
  generatedCount rendered = 0 ∧
  renderSkipped rendered = 1 ∧
  markdownPath <$> conversations rendered =
    [Some "output/20250101_120000_test-conversation.md"].
Proof. repeat split. Qed.

Section RenderPhase.
Variable force : bool.
Variable outputDir : string.
Variable Date_parse : string → option date.
Variable now : date.
Variable path_join : string → string → string.
Variable generate : conversation → option string.

#[local] Abbreviation renderConversation :=
  (renderConversation force outputDir Date_parse now path_join generate).
#[local] Abbreviation renderLoop :=
  (renderLoop force outputDir Date_parse now path_join generate).
#[local] Abbreviation rendered_record :=
  (rendered_record force outputDir Date_parse now path_join generate).
#[local] Abbreviation partly_rendered :=
  (partly_rendered force outputDir Date_parse now path_join generate).

Lemma rendered_record_uuid c : uuid (rendered_record c) = uuid c.
Proof.
  unfold Spec.rendered_record.
  destruct (alreadyRendered force c); [done|].
  destruct (generate c); [|done].
  destruct (outputFilename Date_parse now c); [|done].
  simpl. done.
Qed.

(** In a collection with distinct uuids, the key of a record finds
    that record. *)
Lemma find_own_uuid (data : list conversation) i c :
  uuid_unique data → data !! i = Some c →
  list_find (has_uuid (uuid c)) data = Some (i, c).
Proof.
  intros Hnd Hi. apply list_find_Some. split_and!; [done|done|].
  intros j y Hj Hji Hy. unfold has_uuid in Hy. simpl in Hy.
  assert (j = i); [|lia].
  eapply (NoDup_lookup _ j i (uuid c) Hnd);
    rewrite list_lookup_fmap; [by rewrite Hj; simpl; f_equal|by rewrite Hi].
Qed.

(** One step of the loop on the record at [i] writes what
    [rendered_record] describes, at [i]. *)
Lemma renderConversation_store st i c :
  uuid_unique (conversations st) → conversations st !! i = Some c →
  conversations (renderConversation c st) =
    <[i := rendered_record c]> (conversations st).
Proof.
  intros Hnd Hi. unfold AppController.renderConversation,
    Spec.rendered_record.
  destruct (alreadyRendered force c);
    [by simpl; rewrite list_insert_id|].
  destruct (generate c); [|by rewrite list_insert_id].
  destruct (outputFilename Date_parse now c);
    [|by rewrite list_insert_id].
  simpl. by rewrite (update_found _ _ _ _ _ (find_own_uuid _ _ _ Hnd Hi)).
Qed.

Lemma partly_rendered_uuids (data : list conversation) i :
  uuid <$> partly_rendered data i = uuid <$> data.
Proof.
  unfold partly_rendered. rewrite fmap_app, <- list_fmap_compose.
  rewrite (list_fmap_ext (uuid ∘ rendered_record) uuid (take i data)).
  - by rewrite <- fmap_app, take_drop.
  - intros ? x _. apply rendered_record_uuid.
Qed.

Lemma partly_rendered_step (data : list conversation) i c :
  data !! i = Some c →
  <[i := rendered_record c]> (partly_rendered data i) =
    partly_rendered data (S i).
Proof.
  intros Hi. unfold Spec.partly_rendered.
  assert (i < length data) as Hlt by by eapply lookup_lt_Some.
  rewrite insert_app_r_alt by (rewrite length_fmap, length_take; lia).
  rewrite length_fmap, length_take.
  replace (i - i `min` length data) with 0 by lia.
  rewrite (drop_S _ _ _ Hi). simpl.
  rewrite (take_S_r _ _ _ Hi), fmap_app. simpl.
  by rewrite <- app_assoc.
Qed.

Lemma partly_rendered_lookup (data : list conversation) i :
  partly_rendered data i !! i = data !! i.
Proof.
  unfold partly_rendered.
  destruct (decide (i < length data)) as [Hlt|Hge].
  - rewrite lookup_app_r by (rewrite length_fmap, length_take; lia).
    rewrite length_fmap, length_take, lookup_drop. f_equal. lia.
  - rewrite (lookup_ge_None_2 data) by lia.
    apply lookup_ge_None_2.
    rewrite length_app, length_fmap, length_take, length_drop. lia.
Qed.

Lemma renderLoop_store (data : list conversation) steps i st :
  uuid_unique data → conversations st = partly_rendered data i →
  i + steps = length data →
  conversations (renderLoop steps i st) = rendered_record <$> data.
Proof.
  intros Hnd. revert i st. induction steps as [|steps IH];
    intros i st Hst Hlen; simpl.
  - rewrite Hst. unfold partly_rendered.
    rewrite take_ge, drop_ge by lia. by rewrite app_nil_r.
  - rewrite Hst, partly_rendered_lookup.
    destruct (data !! i) as [c|] eqn:Hi; rewrite ?Hi.
    + apply IH; [|lia].
      rewrite (renderConversation_store st i c).
      * rewrite Hst. by apply partly_rendered_step.
      * unfold uuid_unique. simpl. by rewrite Hst, partly_rendered_uuids.
      * by rewrite Hst, partly_rendered_lookup.
    + apply lookup_ge_None_1 in Hi. lia.
Qed.

(** With distinct uuids, the render phase handles every stored
    conversation on its own. *)
Lemma generateMarkdownFiles_store (data : list conversation) written :
  uuid_unique data →
  conversations
    (generateMarkdownFiles force outputDir Date_parse now path_join
       generate data written) = rendered_record <$> data.
Proof.
  intros Hnd. unfold generateMarkdownFiles.
  apply renderLoop_store; [done| |done].
  simpl. unfold partly_rendered. by rewrite take_0, drop_0.
Qed.

End RenderPhase.

(** The two phases keep the uuids of the store distinct. *)
Lemma storeLoop_keeps_unique force sorted (data : list conversation) t :
  uuid_unique data → uuid_unique (storeLoop force sorted data t).1.
Proof.
  revert data t. induction sorted as [|c rest IH]; intros data t Hnd; [done|].
  simpl. unfold storeConversation.
  destruct (negb (truthy_string (uuid c))); [by apply IH|].
  destruct (negb (shouldProcess force (findByUuid (uuid c) data) c));
    [by apply IH|].
  apply IH. by apply upsert_keeps_unique.
Qed.

Lemma storeData_keeps_unique force Date_parse batch
  (data : list conversation) :
  uuid_unique data → uuid_unique (storeData force Date_parse batch data).1.
Proof. apply storeLoop_keeps_unique. Qed.

Lemma generateMarkdownFiles_keeps_unique force outputDir Date_parse now
  path_join generate (data : list conversation) written :
  uuid_unique data →
  uuid_unique
    (conversations
       (generateMarkdownFiles force outputDir Date_parse now path_join
          generate data written)).
Proof.
  intros Hnd. rewrite generateMarkdownFiles_store by done.
  unfold uuid_unique. rewrite <- list_fmap_compose.
  rewrite (list_fmap_ext _ uuid data); [done|].
  intros ? x _. apply rendered_record_uuid.
Qed.

(** C10.  When rendering is due for a stored conversation and the
    generator throws on it, the step of the loop on that conversation
    changes neither the store nor the files, and the loop goes on.  In a
    store with distinct uuids the record is the same after the whole
    phase, so that [processed] and [markdownPath] are as before and the
    conversation is due again under every force flag under which it was
    due; and every other stored conversation ends as if it had been
    handled alone. *)
Theorem failed_render_leaves_record (force : bool) (outputDir : string)
  (Date_parse : string → option date) (now : date)
  (path_join : string → string → string)
  (generate : conversation → option string) (c : conversation) :
  alreadyRendered force c = false → generate c = None →
  (∀ st, renderConversation force outputDir Date_parse now path_join
           generate c st = st) ∧
  (∀ (data : list conversation) written i,
     uuid_unique data → data !! i = Some c →
     let after := generateMarkdownFiles force outputDir Date_parse now
                    path_join generate data written in
     conversations after !! i = Some c ∧
     (∀ f c', conversations after !! i = Some c' →
              processed c' = processed c ∧
              markdownPath c' = markdownPath c ∧
              alreadyRendered f c' = alreadyRendered f c) ∧
     (∀ j c', data !! j = Some c' →
              conversations after !! j =
                Some (rendered_record force outputDir Date_parse now
                        path_join generate c'))).
Proof.
  intros Hdue Hthrows. split.
  - intros st. unfold renderConversation. by rewrite Hdue, Hthrows.
  - intros data written i Hnd Hi after.
    assert (conversations after !! i = Some c) as Hsame.
    { unfold after. rewrite generateMarkdownFiles_store by done.
      rewrite list_lookup_fmap, Hi. simpl. f_equal.
      unfold rendered_record. by rewrite Hdue, Hthrows. }
    split_and!.
    + done.
    + intros f c' Hc'. rewrite Hsame in Hc'. by simplify_eq.
    + intros j c' Hj. unfold after.
      rewrite generateMarkdownFiles_store by done.
      by rewrite list_lookup_fmap, Hj.
Qed.

Lemma failed_render_leaves_record_witness :
  alreadyRendered false Samples.fresh = false ∧
  Samples.named_only Samples.fresh = None ∧
  let after := generateMarkdownFiles false "output" parse_utc epoch
                 Samples.join Samples.named_only
                 [Samples.fresh; Samples.changed] [] in
  conversations after !! 0 = Some Samples.fresh ∧
  conversations after !! 1 =
    Some (rendered_record false "output" parse_utc epoch Samples.join
            Samples.named_only Samples.changed).
Proof.
  split; [reflexivity|]. split; [reflexivity|].
  destruct (failed_render_leaves_record false "output" parse_utc epoch
              Samples.join Samples.named_only Samples.fresh eq_refl eq_refl)
    as [_ Hphase].
  assert (uuid_unique [Samples.fresh; Samples.changed]) as Hnd.
  { unfold uuid_unique. simpl. apply NoDup_cons. split.
    - intros [Heq|[]%elem_of_nil]%elem_of_cons. discriminate Heq.
    - apply NoDup_singleton. }
  destruct (Hphase [Samples.fresh; Samples.changed] [] 0 Hnd eq_refl)
    as (H0 & _ & Hothers).
  split; [exact H0|]. exact (Hothers 1 Samples.changed eq_refl).
Defined.

End ControllerProperties.

(** ** The archive reader *)

Module ZipProperties.
Import Js ZipProcessor.

Section Zip.
Context {J : Type}.
Implicit Types (zip other : archive J) (e : entry J).

Lemma findEntry_None fragment (es : list (entry J)) :
  findEntry fragment es = None ↔
  ∀ e, e ∈ es → includes fragment (entryName e) = false.
Proof.
  unfold findEntry. split.
  - intros Hf e He%list_elem_of_In. by apply (find_none _ _ Hf).
  - induction es as [|e es IH]; [done|]. intros Hall. simpl.
    rewrite (Hall e) by by left. apply IH. intros e' He'.
    apply Hall. by right.
Qed.

Lemma failed_inj (m1 m2 : string) :
  @failed J m1 = failed m2 → m1 = m2.
Proof. unfold failed. simpl. intros Heq. by simplify_eq. Qed.

Lemma conversations_failure_differs (c : file_content J) :
  processConversationsFile c ≠ Rejected missingMessage.
Proof. destruct c; simpl; intros Heq; simplify_eq. Qed.

(** C5.  An archive that opens and has no entry whose name contains
    [conversations.json] is rejected; the message of the error names
    the missing file, and [process] rejects with that message in no
    other way: an archive rejected with it either lacks the entry too,
    or one of the two library calls threw an error that carries the
    very sentence.  The failures to read and to parse the
    conversations have other messages. *)
Theorem missing_conversations_rejected zip :
  open_error zip = None →
  (∀ e, e ∈ entries zip →
        includes "conversations.json" (entryName e) = false) →
  process zip =
    Rejected ("Failed to process zip file: " +:+
              "Missing conversations.json file in the zip archive") ∧
  includes "Missing conversations.json"
    ("Failed to process zip file: " +:+ missingMessage) = true ∧
  ∀ other, process other = process zip →
    (open_error other = None ∧
     ∀ e, e ∈ entries other →
          includes "conversations.json" (entryName e) = false) ∨
    open_error other = Some missingMessage ∨
    extract_error other = Some missingMessage.
Proof.
  intros Hopen Hnone.
  assert (process zip = failed missingMessage) as Hzip.
  { unfold process. rewrite Hopen.
    by rewrite (proj2 (findEntry_None _ _) Hnone). }
  split; [exact Hzip|]. split; [reflexivity|].
  intros other. rewrite Hzip. unfold process.
  destruct (open_error other) as [m|] eqn:Ho.
  { intros ->%failed_inj. by right; left. }
  destruct (findEntry "conversations.json" (entries other))
    as [ce|] eqn:Hce.
  - destruct (extract_error other) as [m|] eqn:He.
    { intros ->%failed_inj. by right; right. }
    pose proof (conversations_failure_differs (content ce)) as Hne.
    destruct (processConversationsFile (content ce)) as [l|m|] eqn:Hp;
      [done| |done].
    intros ->%failed_inj. done.
  - intros _. left. split; [done|]. by apply findEntry_None.
Qed.

(** C6.  An archive that opens and extracts, whose conversations entry
    holds a JSON array and which has no entry whose name contains
    [users.json] or [projects.json], is processed without an error:
    the conversations of the result are the elements of the array, and
    users and projects are empty. *)
Theorem conversations_only_archive zip e (records : list J) :
  open_error zip = None → extract_error zip = None →
  findEntry "conversations.json" (entries zip) = Some e →
  content e = JsonArray records →
  (∀ e', e' ∈ entries zip →
         includes "users.json" (entryName e') = false) →
  (∀ e', e' ∈ entries zip →
         includes "projects.json" (entryName e') = false) →
  process zip =
    Resolved {| users := []; projects := []; conversations := records |} ∧
  ∃ result, process zip = Resolved result ∧
            length (conversations result) = length records ∧
            users result = [] ∧ projects result = [].
Proof.
  intros Hopen Hextract Hconv Hcontent Husers Hprojects.
  assert (process zip = Resolved {| users := []; projects := [];
                                    conversations := records |}) as Hp.
  { unfold process. rewrite Hopen, Hconv, Hextract.
    rewrite (proj2 (findEntry_None _ _) Husers).
    rewrite (proj2 (findEntry_None _ _) Hprojects).
    by rewrite Hcontent. }
  split; [done|]. eexists. by split.
Qed.

End Zip.

Lemma missing_conversations_rejected_witness :
  open_error Samples.users_only = None ∧
  (∀ e, e ∈ entries Samples.users_only →
        includes "conversations.json" (entryName e) = false) ∧
  process Samples.users_only =
    Rejected ("Failed to process zip file: " +:+
              "Missing conversations.json file in the zip archive").
Proof.
  assert (∀ e, e ∈ entries Samples.users_only →
               includes "conversations.json" (entryName e) = false) as Hno.
  { intros e [->|[]%elem_of_nil]%elem_of_cons. reflexivity. }
  split; [reflexivity|]. split; [exact Hno|].
  exact (proj1 (missing_conversations_rejected Samples.users_only
                  eq_refl Hno)).
Defined.

Lemma conversations_only_archive_witness :
  process Samples.conversations_only =
    Resolved {| users := []; projects := [];
                conversations := [Samples.fresh] |}.
Proof.
  refine (proj1 (conversations_only_archive Samples.conversations_only
                   {| entryName := "conversations.json";
                      content := JsonArray [Samples.fresh] |}
                   [Samples.fresh] eq_refl eq_refl eq_refl eq_refl _ _));
    intros e [->|[]%elem_of_nil]%elem_of_cons; reflexivity.
Defined.

End ZipProperties.

(** ** The renderer: titles and file names *)

Module RenderProperties.
Import Js MarkdownGenerator AppController Spec.

Lemma lift_chars (f : chars → chars) (s : string) :
  list_ascii_of_string (lift f s) = f (list_ascii_of_string s).
Proof. unfold lift. apply list_ascii_of_string_of_list_ascii. Qed.

Lemma truthy_Some (s : string) : truthy_string (Some s) = true ↔ s ≠ "".
Proof.
  simpl. rewrite negb_true_iff. split.
  - intros Hs ->. done.
  - intros Hs. by apply String.eqb_neq.
Qed.

Lemma named_iff (o : option string) :
  truthy_string o && truthy_string (trim <$> o) = true ↔
  ∃ s, o = Some s ∧ trim s ≠ "".
Proof.
  destruct o as [s|]; simpl; [|split; [done|by intros (? & ? & ?)]].
  change (negb (s =? "")%string) with (truthy_string (Some s)).
  change (negb (trim s =? "")%string) with (truthy_string (Some (trim s))).
  rewrite andb_true_iff, !truthy_Some. split.
  - intros [_ Ht]. eauto.
  - intros (s' & [= <-] & Ht). split; [|done]. by intros ->.
Qed.

Lemma blank_iff (o : option string) :
  truthy_string o && truthy_string (trim <$> o) = false ↔ blank o.
Proof.
  rewrite <- not_true_iff_false, named_iff. unfold blank. split.
  - intros Hno s ->. destruct (decide (trim s = "")); [done|].
    destruct Hno. eauto.
  - intros Hb (s & -> & Ht). by apply Ht, Hb.
Qed.

(** C9 (as amended).  The title is the name when the name is not blank,
    that is, not empty once white space is trimmed.  Otherwise, when the
    first message has a text that is not blank, it is the first line of
    that text, trimmed, cut after 50 characters with an ellipsis when it
    is longer.  Otherwise it is [Conversation] followed by the uuid.  A
    conversation without a name whose first message reads
    [What is the meaning of life?] has that text as its title. *)
Theorem getTitle_rule (c : conversation) :
  (∀ n, name c = Some n → trim n ≠ "" → getTitle c = n) ∧
  (blank (name c) →
   ∀ m rest t, chat_messages c = Some (m :: rest) → text m = Some t →
               trim t ≠ "" →
               getTitle c = ellipsize (trim (first_line t))) ∧
  (blank (name c) →
   chat_messages c = None ∨ chat_messages c = Some [] ∨
   (∃ m rest, chat_messages c = Some (m :: rest) ∧ blank (text m)) →
   getTitle c = "Conversation " +:+ interpolate (uuid c)) ∧
  getTitle Samples.fresh = "What is the meaning of life?".
Proof.
  split_and!.
  - intros n Hn Ht. unfold getTitle.
    rewrite (proj2 (named_iff (name c))) by eauto. by rewrite Hn.
  - intros Hb%blank_iff m rest t Hm Ht Hnb. unfold getTitle.
    rewrite Hb, Hm. rewrite (proj2 (named_iff (text m))) by eauto.
    by rewrite Ht.
  - intros Hb%blank_iff Hcases. unfold getTitle. rewrite Hb.
    destruct Hcases as [->|[->|(m & rest & -> & Hm%blank_iff)]];
      [done|done|]. by rewrite Hm.
  - reflexivity.
Qed.

Lemma getTitle_rule_witness :
  name Samples.stored = Some "Test Conversation" ∧
  trim "Test Conversation" ≠ "" ∧
  getTitle Samples.stored = "Test Conversation".
Proof.
  split; [reflexivity|]. split; [discriminate|].
  exact (proj1 (getTitle_rule Samples.stored) "Test Conversation"
           eq_refl ltac:(discriminate)).
Defined.

(** C9, counterexample.  A name of one space is not empty, and it is not
    the title: the title comes from the first message.  And the title
    taken from a first message is the first line without the white space
    around it, not the first line as it stands. *)
Lemma blank_name_is_not_title :
  (name Samples.blank_name = Some " " ∧ " " ≠ "" ∧
   getTitle Samples.blank_name ≠ " " ∧
   getTitle Samples.blank_name = "Hello, Claude!") ∧
  (name Samples.padded_message = None ∧
   first_line "  Hi there" = "  Hi there" ∧
   getTitle Samples.padded_message ≠ "  Hi there" ∧
   getTitle Samples.padded_message = "Hi there").
Proof.
  split; split_and!;
    first [reflexivity | discriminate].
Qed.

(** *** File names *)

Lemma digit_code (n : Z) : code_in 48 57 (digit n) = true.
Proof.
  unfold digit. pose proof (Z.mod_pos_bound n 10 eq_refl) as Hr.
  assert (n mod 10 = 0 ∨ n mod 10 = 1 ∨ n mod 10 = 2 ∨ n mod 10 = 3 ∨
          n mod 10 = 4 ∨ n mod 10 = 5 ∨ n mod 10 = 6 ∨ n mod 10 = 7 ∨
          n mod 10 = 8 ∨ n mod 10 = 9)%Z as Hcases by lia.
  repeat destruct Hcases as [->|Hcases]; try reflexivity.
  by rewrite Hcases.
Qed.

Lemma digit_kept (n : Z) : digit n ≠ "-"%char ∧ digit n ≠ ":"%char.
Proof.
  pose proof (digit_code n) as Hc.
  split; intros Heq; rewrite Heq in Hc; discriminate Hc.
Qed.

Lemma digit_not_T (n : Z) : Ascii.eqb (digit n) "T" = false.
Proof.
  pose proof (digit_code n) as Hc. apply Ascii.eqb_neq.
  intros Heq; rewrite Heq in Hc; discriminate Hc.
Qed.

Lemma keep_digit (n : Z) (l : chars) :
  remove_dashes_colons (digit n :: l) = digit n :: remove_dashes_colons l.
Proof.
  unfold remove_dashes_colons. apply filter_cons_True, digit_kept.
Qed.

Lemma keep_char (c : ascii) (l : chars) :
  c ≠ "-"%char → c ≠ ":"%char →
  remove_dashes_colons (c :: l) = c :: remove_dashes_colons l.
Proof. intros. unfold remove_dashes_colons. by apply filter_cons_True. Qed.

Lemma drop_punctuation (c : ascii) (l : chars) :
  c = "-"%char ∨ c = ":"%char →
  remove_dashes_colons (c :: l) = remove_dashes_colons l.
Proof.
  intros Hc. unfold remove_dashes_colons. apply filter_cons_False.
  intros [? ?]. by destruct Hc.
Qed.

Lemma pass_digit (n : Z) (l : chars) :
  replace_first_T (digit n :: l) = digit n :: replace_first_T l.
Proof. simpl. by rewrite digit_not_T. Qed.

(** The timestamp of a date with a four-digit year. *)
Lemma timestamp_stamp (d : date) :
  (0 ≤ year d ≤ 9999)%Z → timestamp d = stamp d.
Proof.
  intros [Hlo Hhi]. unfold timestamp, stamp, toISOString_text, iso_year.
  assert ((0 <=? year d)%Z && (year d <=? 9999)%Z = true) as ->.
  { apply andb_true_iff. split; by apply Z.leb_le. }
  f_equal. unfold pad4, pad3, pad2. simpl.
  repeat first
    [ rewrite keep_digit
    | rewrite (drop_punctuation "-") by (by left)
    | rewrite (drop_punctuation ":") by (by right)
    | rewrite keep_char by discriminate ].
  rewrite !pass_digit. reflexivity.
Qed.

Lemma dash_runs_characters (in_run : bool) (s : chars) :
  Forall (λ c, is_slug_char c || is_dash c = true) (dash_runs in_run s).
Proof.
  revert in_run. induction s as [|c s IH]; intros in_run; simpl; [done|].
  destruct (is_slug_char c) eqn:Hc.
  - constructor; [by rewrite Hc|done].
  - destruct in_run; [done|]. constructor; [by rewrite orb_true_r|done].
Qed.

Lemma drop_while_Forall (P : ascii → Prop) (p : ascii → bool) (s : chars) :
  Forall P s → Forall P (drop_while p s).
Proof.
  induction 1 as [|c s Hc Hs IH]; simpl; [done|].
  destruct (p c); [done|by constructor].
Qed.

Lemma slug_characters_slug (n : string) : slug_characters (slug n).
Proof.
  unfold slug_characters, slug. rewrite lift_chars.
  apply Forall_take. unfold strip_dashes.
  apply Forall_rev, drop_while_Forall, Forall_rev, drop_while_Forall.
  apply dash_runs_characters.
Qed.

Lemma string_length_chars (s : string) :
  String.length s = length (list_ascii_of_string s).
Proof. induction s; simpl; congruence. Qed.

Lemma slug_length (n : string) : (String.length (slug n) ≤ 50)%nat.
Proof.
  rewrite string_length_chars. unfold slug. rewrite lift_chars.
  rewrite length_take. lia.
Qed.

(** C8.  The date of the file name is the creation date of the
    conversation, or the current time when [created_at] is absent.  For
    a date with a four-digit year the file name is the stamp
    [YYYYMMDD_HHMMSS], an underscore, the slug or the uuid, and [.md].
    The slug is made of the lower-cased name with every run of other
    characters than lower-case letters and digits turned into a dash,
    without dashes at its ends, cut after 50 characters; the uuid stands
    in when there is no name or the slug is empty.  The conversation
    [Test Project!!] created at [2025-01-01T12:00:00Z] gets the file name
    [20250101_120000_test-project.md]. *)
Theorem outputFilename_format (Date_parse : string → option date)
  (now : date) (c : conversation) (d : date) :
  createdDate Date_parse now c = Some d → (0 ≤ year d ≤ 9999)%Z →
  outputFilename Date_parse now c =
    Some (stamp d +:+ "_" +:+ nameSlug c +:+ ".md") ∧
  (created_at c = None → d = now) ∧
  (∀ t, created_at c = Some t → t ≠ "" → Date_parse t = Some d) ∧
  (name c = None → nameSlug c = interpolate (uuid c)) ∧
  (∀ n, name c = Some n →
        nameSlug c = (if decide (slug n = "") then interpolate (uuid c)
                      else slug n) ∧
        slug n = lift (λ s, take 50 (strip_dashes (dash_runs false s)))
                   (toLowerCase n) ∧
        (String.length (slug n) ≤ 50)%nat ∧ slug_characters (slug n)) ∧
  outputFilename parse_utc now Samples.test_project =
    Some "20250101_120000_test-project.md".
Proof.
  intros Hd Hy. split_and!.
  - unfold outputFilename. rewrite Hd. simpl. by rewrite timestamp_stamp.
  - intros Hc. unfold createdDate in Hd. rewrite Hc in Hd. simpl in Hd.
    by simplify_eq.
  - intros t Hc Ht. unfold createdDate in Hd. rewrite Hc in Hd.
    rewrite (proj2 (truthy_Some t) Ht) in Hd. done.
  - intros Hn. unfold nameSlug. by rewrite Hn.
  - intros n Hn. split_and!.
    + unfold nameSlug. rewrite Hn.
      destruct (decide (n = "")) as [->|Hne]; [done|].
      rewrite (proj2 (truthy_Some n) Hne). cbn [interpolate].
      cbv beta iota zeta.
      destruct (decide (slug n = "")) as [->|Hs]; [done|].
      by rewrite (proj2 (truthy_Some (slug n)) Hs).
    + done.
    + apply slug_length.
    + apply slug_characters_slug.
  - reflexivity.
Qed.

Lemma outputFilename_format_witness :
  createdDate parse_utc epoch Samples.test_project =
    Some (mkDate 2025 1 1 12 0 0 0) ∧
  (0 ≤ 2025 ≤ 9999)%Z ∧
  outputFilename parse_utc epoch Samples.test_project =
    Some (stamp (mkDate 2025 1 1 12 0 0 0) +:+ "_" +:+
          nameSlug Samples.test_project +:+ ".md").
Proof.
  split; [reflexivity|]. split; [lia|].
  exact (proj1 (outputFilename_format parse_utc epoch Samples.test_project
                  (mkDate 2025 1 1 12 0 0 0) eq_refl
                  ltac:(simpl; lia))).
Defined.

End RenderProperties.

(** ** The renderer: code blocks *)

Module TextProperties.
Import Js MarkdownGenerator Spec.
Local Open Scope nat_scope.

Lemma word_not_backtick c : is_word c = true → c ≠ backtick.
Proof. intros Hw ->. discriminate Hw. Qed.

Lemma word_not_space c : is_word c = true → is_white_space c = false.
Proof.
  destruct c as [[] [] [] [] [] [] [] []]; intros Hw;
    vm_compute in Hw |- *; congruence.
Qed.

Lemma at_fence_cons c s : c ≠ backtick → at_fence (c :: s) = false.
Proof.
  intros Hc. apply bool_decide_eq_false. unfold fence.
  destruct s as [|x [|y s]]; simpl; intros Heq; simplify_eq.
Qed.

Lemma at_fence_true s : at_fence s = true → s = fence ++ drop 3 s.
Proof.
  intros Hf%bool_decide_eq_true. rewrite <- Hf at 1.
  by rewrite take_drop.
Qed.

Lemma at_fence_app b : at_fence (fence ++ b) = true.
Proof. by apply bool_decide_eq_true. Qed.

(** *** The first fence *)

Lemma split_fence_cons c s :
  split_fence (c :: s) =
    if at_fence (c :: s) then Some ([], drop 3 (c :: s))
    else prod_map (cons c) id <$> split_fence s.
Proof. done. Qed.

(** Whether a fence starts a text is decided by the first three
    characters. *)
Lemma at_fence_longer c p a b :
  at_fence (c :: p ++ fence ++ a) = at_fence (c :: p ++ fence ++ b).
Proof.
  unfold at_fence. f_equal.
  destruct p as [|x [|y p]]; done.
Qed.

Lemma split_fence_Some s p r :
  split_fence s = Some (p, r) → s = p ++ fence ++ r ∧ clean p.
Proof.
  revert p r. induction s as [|c s IH]; intros p r; [done|].
  rewrite split_fence_cons. destruct (at_fence (c :: s)) eqn:Hf.
  - intros [= <- <-]. split; [by apply at_fence_true|]. done.
  - destruct (split_fence s) as [[p' r']|] eqn:Hs; [|done].
    simpl. intros [= <- <-]. destruct (IH p' r' eq_refl) as [-> Hc].
    split; [done|]. unfold clean. rewrite <- app_comm_cons.
    rewrite split_fence_cons.
    rewrite <- (app_nil_r fence) at 1.
    rewrite (at_fence_longer c p' [] r'), Hf.
    by rewrite Hc.
Qed.

Lemma split_fence_clean p r :
  clean p → split_fence (p ++ fence ++ r) = Some (p, r).
Proof.
  unfold clean. induction p as [|c p IH]; [done|].
  rewrite <- !app_comm_cons, !split_fence_cons.
  rewrite <- (app_nil_r fence) at 1.
  rewrite (at_fence_longer c p [] r).
  destruct (at_fence (c :: p ++ fence ++ r)) eqn:Hf; [done|].
  destruct (split_fence (p ++ fence)) as [[p' r']|] eqn:Hs; [|done].
  intros Heq. simpl in Heq. simplify_eq. by rewrite IH.
Qed.

Lemma split_fence_first a t :
  ∃ p r, split_fence (a ++ fence ++ t) = Some (p, r) ∧
         length p ≤ length a.
Proof.
  induction a as [|c a (p & r & IH & Hle)].
  - exists [], t. done.
  - rewrite <- app_comm_cons, split_fence_cons.
    destruct (at_fence (c :: a ++ fence ++ t)).
    + eexists _, _. split; [done|]. simpl. lia.
    + rewrite IH. eexists _, _. split; [done|]. simpl. lia.
Qed.

Lemma split_fence_None s : split_fence s = None ↔ fenceless s.
Proof.
  split.
  - intros Hs a b ->. destruct (split_fence_first a b) as (p & r & Hp & _).
    congruence.
  - intros Hf. destruct (split_fence s) as [[p r]|] eqn:Hs; [|done].
    apply split_fence_Some in Hs as [-> _]. by destruct (Hf p r).
Qed.

Lemma clean_fenceless p : clean p → fenceless p.
Proof.
  intros Hc a b ->. unfold clean in Hc. rewrite <- !app_assoc in Hc.
  destruct (split_fence_first a (b ++ fence)) as (p & r & Hp & Hle).
  rewrite Hp in Hc. simplify_eq. rewrite !length_app in Hle.
  simpl in Hle. lia.
Qed.

Lemma fenceless_suffix a s : fenceless (a ++ s) → fenceless s.
Proof.
  intros Hf x y ->. apply (Hf (a ++ x) y). by rewrite <- app_assoc.
Qed.

Lemma fenceless_prefix s a : fenceless (s ++ a) → fenceless s.
Proof.
  intros Hf x y ->. apply (Hf x (y ++ a)). by rewrite <- !app_assoc.
Qed.

Lemma fenceless_at_fence s : fenceless s → at_fence s = false.
Proof.
  intros Hf. destruct (at_fence s) eqn:Ha; [|done].
  apply at_fence_true in Ha. by destruct (Hf [] (drop 3 s)).
Qed.

Lemma drop_while_suffix p (s : chars) : ∃ a, s = a ++ drop_while p s.
Proof.
  induction s as [|c s [a IH]]; [by exists []|]. simpl.
  destruct (p c); [|by exists []]. exists (c :: a). simpl. by f_equal.
Qed.

Lemma fenceless_drop_while p s : fenceless s → fenceless (drop_while p s).
Proof.
  intros Hf. destruct (drop_while_suffix p s) as [a Ha].
  rewrite Ha in Hf. by eapply fenceless_suffix.
Qed.

Lemma split_fence_words o :
  split_fence (drop_while is_word o) = None → split_fence o = None.
Proof.
  induction o as [|c o IH]; simpl; [done|].
  destruct (is_word c) eqn:Hw; [|done].
  intros Ho. rewrite (at_fence_cons c o) by by apply word_not_backtick.
  by rewrite (IH Ho).
Qed.

Lemma split_fence_length s p r :
  split_fence s = Some (p, r) → length r < length s.
Proof.
  intros [-> _]%split_fence_Some. rewrite !length_app. simpl. lia.
Qed.

Lemma drop_while_length p (s : chars) : length (drop_while p s) ≤ length s.
Proof.
  destruct (drop_while_suffix p s) as [a Ha]. rewrite Ha at 2.
  rewrite length_app. lia.
Qed.

(** *** The matcher in closed form *)

Lemma literal_fence {A} s (k : chars → chars → option A) :
  literal fence s k = if at_fence s then k fence (drop 3 s) else None.
Proof. done. Qed.

(** The lazy group followed by the closing fence stops at the first
    fence. *)
Lemma lazy_to_fence {A} (f : chars → chars → A) s :
  lazy_star any_char s
    (λ code s3, literal fence s3 (λ _ rest, Some (f code rest))) =
  (λ '(code, rest), f code rest) <$> split_fence s.
Proof.
  revert f. induction s as [|c s IH]; intros f; [done|].
  rewrite split_fence_cons. cbn [lazy_star].
  rewrite literal_fence. destruct (at_fence (c :: s)); [done|].
  cbn [any_char]. rewrite (IH (λ code rest, f (c :: code) rest)).
  by destruct (split_fence s) as [[code rest]|].
Qed.

(** The greedy group takes all the word characters: when the rest of
    the pattern fails behind them, it fails behind fewer of them too. *)
Lemma greedy_words {A} (g : chars → chars → chars → A) o :
  greedy_star is_word o
    (λ language s2,
       (λ '(code, rest), g language code rest) <$> split_fence s2) =
  (λ '(code, rest), g (take_while is_word o) code rest) <$>
    split_fence (drop_while is_word o).
Proof.
  revert g. induction o as [|c o IH]; intros g; [done|].
  cbn [greedy_star take_while drop_while].
  destruct (is_word c) eqn:Hw; [|done].
  rewrite (IH (λ language, g (c :: language))).
  destruct (split_fence (drop_while is_word o)) as [[code rest]|] eqn:Hs;
    [done|].
  rewrite split_fence_cons, (at_fence_cons c o)
    by by apply word_not_backtick.
  by rewrite (split_fence_words o Hs).
Qed.

Lemma greedy_star_ext {A} class s (k1 k2 : chars → chars → option A) :
  (∀ taken rest, k1 taken rest = k2 taken rest) →
  greedy_star class s k1 = greedy_star class s k2.
Proof.
  revert k1 k2. induction s as [|c s IH]; intros k1 k2 Hk; simpl; [done|].
  rewrite (IH (λ taken, k1 (c :: taken)) (λ taken, k2 (c :: taken)))
    by (intros; apply Hk).
  by rewrite Hk.
Qed.

Lemma match_fence_closed s :
  match_fence s =
    if at_fence s
    then (λ '(code, rest), (take_while is_word (drop 3 s), code, rest)) <$>
           split_fence (drop_while is_word (drop 3 s))
    else None.
Proof.
  unfold match_fence. rewrite literal_fence.
  destruct (at_fence s); [|done].
  rewrite <- (greedy_words (λ language code rest, (language, code, rest))).
  apply greedy_star_ext. intros language s2.
  apply (lazy_to_fence (λ code rest, (language, code, rest))).
Qed.

(** *** The replacement in closed form *)

Lemma match_fence_rest s language code rest :
  match_fence s = Some (language, code, rest) → length rest < length s.
Proof.
  rewrite match_fence_closed. destruct (at_fence s); [|done].
  destruct (split_fence (drop_while is_word (drop 3 s)))
    as [[code' rest']|] eqn:Hs; [|done].
  intros [= <- <- <-]. apply split_fence_length in Hs.
  pose proof (drop_while_length is_word (drop 3 s)) as Hd.
  rewrite length_drop in Hd. lia.
Qed.

Lemma replace_all_fuel n m s :
  length s ≤ n → length s ≤ m → replace_all n s = replace_all m s.
Proof.
  revert m s. induction n as [|n IH]; intros m s Hn Hm.
  - destruct s; [|simpl in Hn; lia]. by destruct m.
  - destruct m as [|m]; [destruct s; [done|simpl in Hm; lia]|].
    destruct s as [|c s]; [done|]. cbn [replace_all].
    simpl in Hn, Hm.
    destruct (match_fence (c :: s)) as [[[language code] rest]|] eqn:Hmf.
    + apply match_fence_rest in Hmf. simpl in Hmf.
      f_equal. apply IH; lia.
    + f_equal. apply IH; lia.
Qed.

Lemma replace_all_no_match n s :
  (∀ i, match_fence (drop i s) = None) → replace_all n s = s.
Proof.
  revert s. induction n as [|n IH]; intros s Hno; [by destruct s|].
  destruct s as [|c s]; [done|]. cbn [replace_all].
  pose proof (Hno 0) as H0. rewrite drop_0 in H0. rewrite H0.
  f_equal. apply IH. intros i. apply (Hno (S i)).
Qed.

(** Behind a fence that is not closed nothing matches. *)
Lemma unclosed_no_match s i :
  at_fence s = true →
  split_fence (drop_while is_word (drop 3 s)) = None →
  match_fence (drop (S i) s) = None.
Proof.
  intros Hf Ho%split_fence_words%split_fence_None.
  rewrite match_fence_closed.
  destruct (at_fence (drop (S i) s)) eqn:Hi; [|done].
  assert (split_fence (drop_while is_word (drop 3 (drop (S i) s))) = None)
    as ->; [|done].
  apply split_fence_None, fenceless_drop_while.
  rewrite drop_drop. replace (S i + 3) with (3 + S i) by lia.
  rewrite <- drop_drop. apply (fenceless_suffix (take (S i) (drop 3 s))).
  by rewrite take_drop.
Qed.

Lemma replace_blocks_unfold s :
  replace_blocks s =
    match split_fence s with
    | None => s
    | Some (before, opened) =>
        match split_fence (drop_while is_word opened) with
        | None => s
        | Some (code, rest) =>
            before ++ block (take_while is_word opened) code ++
            replace_blocks rest
        end
    end.
Proof.
  unfold replace_blocks. induction s as [|c s IH]; [done|].
  rewrite split_fence_cons. cbn [length replace_all].
  rewrite match_fence_closed.
  destruct (at_fence (c :: s)) eqn:Hf.
  - destruct (split_fence (drop_while is_word (drop 3 (c :: s))))
      as [[code rest]|] eqn:Hs.
    + cbn [fmap option_fmap option_map]. rewrite app_nil_l. f_equal.
      apply replace_all_fuel; [|done].
      apply split_fence_length in Hs.
      pose proof (drop_while_length is_word (drop 3 (c :: s))) as Hd.
      pose proof (length_drop (c :: s) 3) as Hl. cbn [length] in Hl. lia.
    + cbn [fmap option_fmap option_map]. f_equal.
      apply replace_all_no_match. intros i.
      apply (unclosed_no_match (c :: s) i Hf Hs).
  - rewrite IH. destruct (split_fence s) as [[before opened]|]; [|done].
    simpl. by destruct (split_fence (drop_while is_word opened))
      as [[code rest]|].
Qed.

(** *** The callback on its own output *)

Lemma take_while_words o :
  Forall (λ c, is_word c = true) (take_while is_word o).
Proof.
  induction o as [|c o IH]; simpl; [done|].
  destruct (is_word c) eqn:Hw; [by constructor|done].
Qed.

Lemma drop_while_none (p : ascii → bool) (l : chars) :
  Forall (λ c, p c = false) l → drop_while p l = l.
Proof. destruct 1 as [|c l Hc _]; simpl; [done|]. by rewrite Hc. Qed.

Lemma trim_words l : Forall (λ c, is_word c = true) l → trim_text l = l.
Proof.
  intros Hw.
  assert (Forall (λ c, is_white_space c = false) l) as Hs.
  { eapply Forall_impl; [done|]. apply word_not_space. }
  unfold trim_text. rewrite (drop_while_none _ _ Hs).
  rewrite drop_while_none by by apply Forall_rev.
  apply rev_involutive.
Qed.

Lemma words_then_stop (p : ascii → bool) l c rest :
  Forall (λ c, p c = true) l → p c = false →
  take_while p (l ++ c :: rest) = l ∧
  drop_while p (l ++ c :: rest) = c :: rest.
Proof.
  intros Hl Hc. induction Hl as [|x l Hx _ [IHt IHd]]; simpl.
  - by rewrite Hc.
  - rewrite Hx. by rewrite IHt, IHd.
Qed.

Lemma strip_restored code :
  strip_end (strip_start (newline :: code ++ [newline])) = code.
Proof.
  unfold strip_start. rewrite Ascii.eqb_refl. unfold strip_end.
  rewrite last_snoc, bool_decide_eq_true_2 by done.
  apply removelast_last.
Qed.

Lemma fenceless_strip code :
  fenceless code → fenceless (strip_end (strip_start code)).
Proof.
  intros Hf.
  assert (fenceless (strip_start code)) as Hs.
  { unfold strip_start. destruct code as [|c rest]; [done|].
    destruct (Ascii.eqb c newline); [|done].
    by apply (fenceless_suffix [c]). }
  unfold strip_end. case_bool_decide as Hl; [|done].
  destruct (strip_start code) as [|c rest] using rev_ind; [done|].
  rewrite removelast_last. by eapply fenceless_prefix.
Qed.

Lemma clean_cons_newline q : clean q → clean (newline :: q).
Proof.
  unfold clean. intros Hq. rewrite <- app_comm_cons, split_fence_cons.
  rewrite at_fence_cons by done. by rewrite Hq.
Qed.

Lemma fenceless_clean q : fenceless q → clean (q ++ [newline]).
Proof.
  unfold clean. induction q as [|c q IH]; intros Hf; [done|].
  rewrite <- !app_comm_cons, split_fence_cons.
  assert (at_fence (c :: (q ++ [newline]) ++ fence) = false) as ->.
  { apply bool_decide_eq_false. intros Heq.
    destruct q as [|x [|y q]]; [done|done|].
    simpl in Heq. injection Heq as -> -> ->.
    by apply (Hf [] q). }
  rewrite IH; [done|]. by apply (fenceless_suffix [c]).
Qed.

(** A block that the callback has written is matched whole, and the
    callback writes it again. *)
Lemma block_words language code :
  Forall (λ c, is_word c = true) language →
  block language code =
    fence ++ language ++
    newline :: strip_end (strip_start code) ++ newline :: fence.
Proof. intros Hw. unfold block. by rewrite (trim_words _ Hw). Qed.

Ltac flatten :=
  repeat first
    [ rewrite <- app_assoc | rewrite <- app_comm_cons | rewrite app_nil_l ].

Lemma replace_blocks_block before opened code rest tail :
  clean before → split_fence (drop_while is_word opened) = Some (code, rest) →
  replace_blocks
    (before ++ block (take_while is_word opened) code ++ tail) =
  before ++ block (take_while is_word opened) code ++ replace_blocks tail.
Proof.
  intros Hb [_ Hc%clean_fenceless%fenceless_strip]%split_fence_Some.
  pose proof (take_while_words opened) as Hw.
  set (language := take_while is_word opened) in *.
  rewrite (block_words language code Hw).
  set (inner := strip_end (strip_start code)) in *.
  rewrite replace_blocks_unfold. flatten.
  rewrite (split_fence_clean before _ Hb).
  destruct (words_then_stop is_word language newline
              (inner ++ newline :: fence ++ tail) Hw eq_refl)
    as [-> ->].
  assert (split_fence (newline :: inner ++ newline :: fence ++ tail) =
          Some (newline :: inner ++ [newline], tail)) as ->.
  { trans (split_fence ((newline :: inner ++ [newline]) ++ fence ++ tail));
      [by flatten|].
    by apply split_fence_clean, clean_cons_newline, fenceless_clean. }
  rewrite (block_words language _ Hw), strip_restored.
  by flatten.
Qed.

Lemma replace_blocks_idempotent s :
  replace_blocks (replace_blocks s) = replace_blocks s.
Proof.
  assert (∀ n s, length s < n →
                 replace_blocks (replace_blocks s) = replace_blocks s)
    as Hind; [|apply (Hind (S (length s))); lia].
  clear s. induction n as [|n IH]; intros s Hn; [lia|].
  rewrite (replace_blocks_unfold s).
  destruct (split_fence s) as [[before opened]|] eqn:Hs;
    [|by rewrite replace_blocks_unfold, Hs].
  destruct (split_fence (drop_while is_word opened))
    as [[code rest]|] eqn:Ho;
    [|by rewrite replace_blocks_unfold, Hs, Ho].
  pose proof Hs as [_ Hb]%split_fence_Some.
  rewrite (replace_blocks_block _ _ _ _ _ Hb Ho). rewrite IH; [done|].
  apply split_fence_length in Hs, Ho.
  pose proof (drop_while_length is_word opened). lia.
Qed.

Lemma strip_start_cases c code :
  strip_start (c :: code) = if decide (c = newline) then code else c :: code.
Proof.
  unfold strip_start. case_decide as Hc.
  - by rewrite Hc, Ascii.eqb_refl.
  - by apply Ascii.eqb_neq in Hc as ->.
Qed.

Lemma strip_end_cases code c :
  strip_end (code ++ [c]) = if decide (c = newline) then code else code ++ [c].
Proof.
  unfold strip_end. rewrite last_snoc. case_decide as Hc.
  - rewrite bool_decide_eq_true_2 by by rewrite Hc.
    apply removelast_last.
  - rewrite bool_decide_eq_false_2; [done|]. by intros [= ?].
Qed.

(** C7.  Normalising the code blocks of a text that has been normalised
    changes nothing: [processText (processText t) = processText t] for
    every text.  The callback writes the language of a span unchanged
    and its code between two newlines, after it has taken one newline
    off the start of the code and one off its end when they are there;
    so the next pass takes the two newlines off and puts them back. *)
Theorem processText_idempotent (t : string) :
  processText (processText t) = processText t ∧
  (∀ language code,
     Forall (λ c, is_word c = true) language →
     block language code =
       fence ++ language ++
       newline :: strip_end (strip_start code) ++ newline :: fence) ∧
  (∀ c code, strip_start (c :: code) =
               if decide (c = newline) then code else c :: code) ∧
  (∀ code c, strip_end (code ++ [c]) =
               if decide (c = newline) then code else code ++ [c]).
Proof.
  split_and!;
    [|apply block_words|apply strip_start_cases|apply strip_end_cases].
  unfold processText.
  destruct (negb (truthy_string (Some t))) eqn:Ht; [done|].
  destruct (negb (truthy_string (Some (lift replace_blocks t)))) eqn:Hr.
  - apply negb_true_iff, negb_false_iff, String.eqb_eq in Hr. done.
  - unfold lift at 1. rewrite RenderProperties.lift_chars.
    by rewrite replace_blocks_idempotent.
Qed.

End TextProperties.

(** ** The record store: lookups after a mutation *)

Module LookupProperties.
Import BaseRepository StoreProperties.
Local Open Scope nat_scope.
Section Lookup.
Context {R : Type} `{Item R}.
Implicit Types (data : list R) (item r : R) (k : option string).

Lemma findByUuid_nil k : findByUuid k ([] : list R) = None.
Proof. done. Qed.

Lemma findByUuid_cons k r data :
  findByUuid k (r :: data) =
    if decide (item_uuid r = k) then Some r else findByUuid k data.
Proof.
  unfold findByUuid. simpl. unfold has_uuid at 1.
  destruct (decide (item_uuid r = k)); [done|].
  destruct (list_find (has_uuid k) data) as [[i x]|]; done.
Qed.

Lemma findByUuid_app k data1 data2 :
  findByUuid k (data1 ++ data2) =
    match findByUuid k data1 with
    | Some r => Some r
    | None => findByUuid k data2
    end.
Proof.
  induction data1 as [|r data1 IH]; [done|].
  rewrite <- app_comm_cons, !findByUuid_cons.
  by destruct (decide (item_uuid r = k)).
Qed.

Lemma findByUuid_Some k data r :
  findByUuid k data = Some r → r ∈ data ∧ item_uuid r = k.
Proof.
  induction data as [|x data IH]; [done|]. rewrite findByUuid_cons.
  destruct (decide (item_uuid x = k)) as [Hx|Hx].
  - intros [= ->]. split; [by left|done].
  - intros [Hin Hk]%IH. split; [by right|done].
Qed.

Lemma findByUuid_find k data i x :
  list_find (has_uuid k) data = Some (i, x) → findByUuid k data = Some x.
Proof. intros Hf. unfold findByUuid. by rewrite Hf. Qed.

Lemma findByUuid_is_None k data :
  findByUuid k data = None ↔ list_find (has_uuid k) data = None.
Proof. unfold findByUuid. by rewrite fmap_None. Qed.

Lemma exists_iff_find k data :
  exists_ k data = true ↔ ∃ r, findByUuid k data = Some r.
Proof.
  split.
  - intros (i & x & Hf)%exists_true. exists x. by eapply findByUuid_find.
  - intros [r Hr]. destruct (exists_ k data) eqn:Hex; [done|].
    apply exists_false, findByUuid_is_None in Hex. congruence.
Qed.

Lemma exists_false_iff k data :
  exists_ k data = false ↔ findByUuid k data = None.
Proof.
  split.
  - intros Hex. by apply findByUuid_is_None, exists_false.
  - intros Hf. destruct (exists_ k data) eqn:Hex; [|done].
    apply exists_iff_find in Hex as [r Hr]. congruence.
Qed.

(** The list around the element that a lookup finds. *)
Lemma find_split k data i x :
  list_find (has_uuid k) data = Some (i, x) →
  data = take i data ++ x :: drop (S i) data ∧
  findByUuid k (take i data) = None ∧ item_uuid x = k ∧
  length (take i data) = i.
Proof.
  intros (Hi & Hx & Hfirst)%find_has_uuid. split_and!.
  - by rewrite <- (drop_S _ _ _ Hi), take_drop.
  - apply findByUuid_is_None, list_find_None, Forall_forall.
    intros y [j Hj]%list_elem_of_lookup_1.
    pose proof (lookup_lt_Some _ _ _ Hj) as Hlt. rewrite length_take in Hlt.
    rewrite lookup_take_lt in Hj by lia. eapply Hfirst; [done|lia].
  - done.
  - apply lookup_lt_Some in Hi. rewrite length_take. lia.
Qed.

Lemma insert_split data i x y :
  data !! i = Some x →
  <[i := y]> data = take i data ++ y :: drop (S i) data.
Proof.
  intros Hi. pose proof (lookup_lt_Some _ _ _ Hi) as Hlt.
  rewrite <- (take_drop i data) at 1.
  rewrite insert_app_r_alt by (rewrite length_take; lia).
  rewrite length_take. replace (i - i `min` length data) with 0 by lia.
  by rewrite (drop_S _ _ _ Hi).
Qed.

Lemma delete_split data i x :
  data !! i = Some x →
  base.delete i data = take i data ++ drop (S i) data.
Proof. intros _. by rewrite delete_take_drop. Qed.

(** Replacing the record found under [k] by one with another uuid than
    [k'] leaves the lookup of [k']. *)
Lemma findByUuid_insert_other k k' data i x y :
  list_find (has_uuid k) data = Some (i, x) →
  k' ≠ k → item_uuid y ≠ k' →
  findByUuid k' (<[i := y]> data) = findByUuid k' data.
Proof.
  intros Hf Hk Hy.
  pose proof Hf as (Hi & _)%find_has_uuid.
  pose proof Hf as (Hsplit & _ & Hx & _)%find_split.
  rewrite (insert_split _ _ _ _ Hi). rewrite Hsplit at 3.
  rewrite !findByUuid_app, !findByUuid_cons.
  destruct (decide (item_uuid y = k')); [done|].
  destruct (decide (item_uuid x = k')); [congruence|done].
Qed.

Lemma findByUuid_insert_same k data i x y :
  list_find (has_uuid k) data = Some (i, x) → item_uuid y = k →
  findByUuid k (<[i := y]> data) = Some y.
Proof.
  intros Hf Hy.
  pose proof Hf as (Hi & _)%find_has_uuid.
  pose proof Hf as (_ & Hnone & _)%find_split.
  rewrite (insert_split _ _ _ _ Hi), findByUuid_app, Hnone, findByUuid_cons.
  by destruct (decide (item_uuid y = k)).
Qed.

Lemma findByUuid_delete_other k k' data i x :
  list_find (has_uuid k) data = Some (i, x) → k' ≠ k →
  findByUuid k' (base.delete i data) = findByUuid k' data.
Proof.
  intros Hf Hk.
  pose proof Hf as (Hi & _)%find_has_uuid.
  pose proof Hf as (Hsplit & _ & Hx & _)%find_split.
  rewrite (delete_split _ _ _ Hi). rewrite Hsplit at 3.
  rewrite !findByUuid_app, findByUuid_cons.
  destruct (decide (item_uuid x = k')); [congruence|done].
Qed.

Lemma findByUuid_upsert_other item k' data :
  k' ≠ item_uuid item →
  findByUuid k' (upsert item data).1 = findByUuid k' data.
Proof.
  intros Hk.
  destruct (list_find (has_uuid (item_uuid item)) data) as [[i x]|] eqn:Hf.
  - rewrite (upsert_existing _ _ _ _ Hf).
    apply (findByUuid_insert_other _ _ _ _ _ _ Hf Hk).
    pose proof Hf as (_ & Hx & _)%find_has_uuid.
    rewrite (updated_uuid (item_uuid item) x item Hx); auto.
  - rewrite (upsert_new _ _ Hf), findByUuid_app.
    destruct (findByUuid k' data); [done|].
    rewrite findByUuid_cons. by destruct (decide (item_uuid item = k')).
Qed.

(** What [upsert] leaves under the uuid of the item. *)
Lemma findByUuid_upsert item data :
  findByUuid (item_uuid item) (upsert item data).1 =
    Some (from_option (λ e, spread e item) item
            (findByUuid (item_uuid item) data)).
Proof.
  destruct (list_find (has_uuid (item_uuid item)) data) as [[i x]|] eqn:Hf.
  - rewrite (upsert_existing _ _ _ _ Hf), (findByUuid_find _ _ _ _ Hf).
    simpl. apply (findByUuid_insert_same _ _ _ _ _ Hf).
    pose proof Hf as (_ & Hx & _)%find_has_uuid.
    apply updated_uuid; auto.
  - rewrite (upsert_new _ _ Hf), findByUuid_app.
    rewrite (proj2 (findByUuid_is_None _ _) Hf). simpl.
    rewrite findByUuid_cons.
    by destruct (decide (item_uuid item = item_uuid item)).
Qed.

Lemma upsert_result item data :
  (upsert item data).2 = findByUuid (item_uuid item) (upsert item data).1.
Proof.
  rewrite findByUuid_upsert. unfold upsert.
  destruct (exists_ (item_uuid item) data) eqn:Hex.
  - apply exists_true in Hex as (i & x & Hf).
    by rewrite (update_found _ _ _ _ _ Hf), (findByUuid_find _ _ _ _ Hf).
  - apply exists_false_iff in Hex. by rewrite Hex.
Qed.

Lemma upsert_count item data :
  count (upsert item data).1 =
    if exists_ (item_uuid item) data then count data else S (count data).
Proof.
  unfold upsert, count. destruct (exists_ (item_uuid item) data) eqn:Hex.
  - apply exists_true in Hex as (i & x & Hf).
    rewrite (update_found _ _ _ _ _ Hf). simpl. by rewrite length_insert.
  - simpl. rewrite length_app. simpl. lia.
Qed.

End Lookup.

(** X1.  [insert] and the lookups.  After [insert], the uuid of the new
    item finds the item when no stored record had that uuid, and goes on
    finding the older record when one had it; the lookup of every other
    uuid is as before, and [count()] has grown by one. *)
Theorem insert_then_find {R : Type} `{Item R} (item : R) (data : list R) :
  (exists_ (item_uuid item) data = false →
   findByUuid (item_uuid item) (insert item data).1 = Some item) ∧
  (∀ r, findByUuid (item_uuid item) data = Some r →
        findByUuid (item_uuid item) (insert item data).1 = Some r) ∧
  (∀ k, k ≠ item_uuid item →
        findByUuid k (insert item data).1 = findByUuid k data) ∧
  count (insert item data).1 = S (count data).
Proof.
  unfold insert. simpl. split_and!.
  - intros Hex%exists_false_iff. rewrite findByUuid_app, Hex.
    rewrite findByUuid_cons.
    by destruct (decide (item_uuid item = item_uuid item)).
  - intros r Hr. by rewrite findByUuid_app, Hr.
  - intros k Hk. rewrite findByUuid_app.
    destruct (findByUuid k data); [done|].
    rewrite findByUuid_cons. by destruct (decide (item_uuid item = k)).
  - unfold count. rewrite length_app. simpl. lia.
Qed.

(** X2.  [update] and the lookups.  When no record has the uuid,
    [update] returns [null] and leaves the collection.  Otherwise it
    returns the spread of the first record with that uuid and the
    updates, [count()] is as before, the uuid finds the returned record
    as long as the updates carry no other uuid, and the lookup of a uuid
    that is neither the one updated nor the one of the returned record is
    as before. *)
Theorem update_then_find {R : Type} `{Item R} (k : option string)
  (updates : R) (data : list R) :
  (findByUuid k data = None → update k updates data = (data, None)) ∧
  (∀ r, findByUuid k data = Some r →
     (update k updates data).2 = Some (spread r updates) ∧
     count (update k updates data).1 = count data ∧
     (item_uuid updates = None ∨ item_uuid updates = k →
      findByUuid k (update k updates data).1 = Some (spread r updates)) ∧
     (∀ k', k' ≠ k → k' ≠ item_uuid (spread r updates) →
            findByUuid k' (update k updates data).1 = findByUuid k' data)).
Proof.
  split.
  - intros Hf%findByUuid_is_None. unfold update. by rewrite Hf.
  - intros r Hr.
    destruct (list_find (has_uuid k) data) as [[i x]|] eqn:Hf;
      [|by apply findByUuid_is_None in Hf; congruence].
    rewrite (findByUuid_find _ _ _ _ Hf) in Hr. injection Hr as ->.
    rewrite (update_found _ _ _ _ _ Hf). simpl. split_and!.
    + done.
    + unfold count. by rewrite length_insert.
    + intros Hu. apply (findByUuid_insert_same _ _ _ _ _ Hf).
      pose proof Hf as (_ & Hx & _)%find_has_uuid. by apply updated_uuid.
    + intros k' Hk Hk'. apply (findByUuid_insert_other _ _ _ _ _ _ Hf Hk).
      congruence.
Qed.

(** X3.  [delete] and the lookups.  [delete] returns [false] and leaves
    the collection exactly when no record has the uuid.  When it returns
    [true], one record is gone, and in a collection with distinct uuids
    the uuid is not found any more; the lookup of every other uuid is as
    before. *)
Theorem delete_then_find {R : Type} `{Item R} (k : option string)
  (data : list R) :
  (exists_ k data = false → delete k data = (data, false)) ∧
  (exists_ k data = true →
     (delete k data).2 = true ∧
     S (count (delete k data).1) = count data ∧
     (uuid_unique data → exists_ k (delete k data).1 = false)) ∧
  (∀ k', k' ≠ k → findByUuid k' (delete k data).1 = findByUuid k' data).
Proof.
  split_and!.
  - intros Hf%exists_false. unfold delete. by rewrite Hf.
  - intros (i & x & Hf)%exists_true. unfold delete. rewrite Hf.
    cbn [fst snd].
    pose proof Hf as (Hi & Hx & _)%find_has_uuid.
    pose proof (lookup_lt_Some _ _ _ Hi) as Hlt. split_and!.
    + done.
    + unfold count. rewrite length_delete by eauto. lia.
    + intros Hnd. apply exists_false_iff, findByUuid_is_None, list_find_None.
      apply Forall_forall. intros y Hy Hyk.
      pose proof Hf as (Hsplit & _)%find_split.
      unfold uuid_unique in Hnd. rewrite Hsplit, fmap_app in Hnd.
      simpl in Hnd. apply NoDup_app in Hnd as (_ & Hdisj & Hnd).
      apply NoDup_cons in Hnd as [Hnotin _].
      unfold collection in Hy. rewrite (delete_split _ _ _ Hi) in Hy.
      apply elem_of_app in Hy as [Hy|Hy].
      * apply (Hdisj k); [|rewrite <- Hx; by left].
        rewrite <- Hyk. by apply list_elem_of_fmap_2.
      * apply Hnotin. rewrite Hx, <- Hyk. by apply list_elem_of_fmap_2.
  - intros k' Hk. unfold delete.
    destruct (list_find (has_uuid k) data) as [[i x]|] eqn:Hf; [|done].
    cbn [fst]. unfold collection.
    by apply (findByUuid_delete_other _ _ _ _ _ Hf).
Qed.

(** X4.  [upsert] and the lookups.  After [upsert], the uuid of the item
    finds the record that [upsert] returns: the item itself when no
    record had its uuid, the spread of the first such record and the
    item otherwise.  That record has every key of the item with the
    value of the item.  [count()] grows by one exactly when no record had
    the uuid, and the lookup of every other uuid is as before. *)
Theorem upsert_then_find {R : Type} `{Item R} (item : R) (data : list R) :
  let stored := from_option (λ e, spread e item) item
                  (findByUuid (item_uuid item) data) in
  findByUuid (item_uuid item) (upsert item data).1 = Some stored ∧
  (upsert item data).2 = Some stored ∧
  spread stored item = stored ∧
  count (upsert item data).1 =
    (if exists_ (item_uuid item) data then count data
     else S (count data)) ∧
  (∀ k, k ≠ item_uuid item →
        findByUuid k (upsert item data).1 = findByUuid k data).
Proof.
  intros stored. split_and!.
  - apply findByUuid_upsert.
  - rewrite upsert_result. apply findByUuid_upsert.
  - unfold stored. destruct (findByUuid (item_uuid item) data); simpl.
    + apply spread_again.
    + apply spread_self.
  - apply upsert_count.
  - intros k Hk. by apply findByUuid_upsert_other.
Qed.

(** X5.  [delete] undoes [insert]: when no stored record has the uuid of
    an item, inserting the item and deleting its uuid gives the
    collection back. *)
Theorem delete_undoes_insert {R : Type} `{Item R} (item : R)
  (data : list R) :
  exists_ (item_uuid item) data = false →
  delete (item_uuid item) (insert item data).1 = (data, true).
Proof.
  intros Hex. unfold insert, delete. simpl.
  assert (list_find (has_uuid (item_uuid item)) (data ++ [item]) =
          Some (length data, item)) as ->.
  { apply list_find_Some. split_and!.
    - by rewrite lookup_app_r, Nat.sub_diag by lia.
    - done.
    - intros j y Hj Hlt. rewrite lookup_app_l in Hj by lia.
      apply exists_false, list_find_None in Hex.
      rewrite Forall_forall in Hex. apply Hex.
      by eapply list_elem_of_lookup_2. }
  f_equal. rewrite delete_take_drop, take_app_length.
  rewrite drop_ge by (rewrite length_app; simpl; lia).
  by rewrite app_nil_r.
Qed.

Lemma delete_undoes_insert_witness :
  exists_ (item_uuid Samples.fresh) [Samples.stored] = false ∧
  delete (item_uuid Samples.fresh) (insert Samples.fresh [Samples.stored]).1 =
    ([Samples.stored], true).
Proof.
  split; [reflexivity|].
  exact (delete_undoes_insert Samples.fresh [Samples.stored] eq_refl).
Defined.

End LookupProperties.

(** ** Storing a batch of users or projects *)

Module StoreRecordsProperties.
Import BaseRepository StoreProperties LookupProperties StoreRecords Notions.
Local Open Scope nat_scope.
Section Records.
Context {R : Type} `{Item R}.
Implicit Types (data : list R) (item r : R) (k : option string).

Lemma upsertEach_cons item items data :
  upsertEach (item :: items) data = upsertEach items (upsert item data).1.
Proof. done. Qed.

Lemma exists_upsert_own item data :
  exists_ (item_uuid item) (upsert item data).1 = true.
Proof. apply exists_iff_find. rewrite findByUuid_upsert. eauto. Qed.

Lemma exists_upsert_kept k item data :
  exists_ k data = true → exists_ k (upsert item data).1 = true.
Proof.
  intros Hex. destruct (decide (k = item_uuid item)) as [->|Hk].
  - apply exists_upsert_own.
  - apply exists_iff_find. rewrite findByUuid_upsert_other by done.
    by apply exists_iff_find.
Qed.

Lemma upsert_count_bounds item data :
  count data ≤ count (upsert item data).1 ≤ S (count data).
Proof.
  rewrite upsert_count. destruct (exists_ (item_uuid item) data); lia.
Qed.

Lemma settled_after_upsert item data : settled item (upsert item data).1.
Proof.
  eexists. split; [apply findByUuid_upsert|].
  destruct (findByUuid (item_uuid item) data); simpl.
  - apply spread_again.
  - apply spread_self.
Qed.

Lemma settled_upsert_other item item' data :
  item_uuid item ≠ item_uuid item' →
  settled item data → settled item (upsert item' data).1.
Proof.
  intros Hne (r & Hr & Hs). exists r. split; [|done].
  by rewrite findByUuid_upsert_other.
Qed.

(** Upserting an item that is settled changes nothing. *)
Lemma upsert_settled item data :
  settled item data → (upsert item data).1 = data.
Proof.
  intros (r & Hr & Hs).
  destruct (list_find (has_uuid (item_uuid item)) data) as [[i x]|] eqn:Hf;
    [|by apply findByUuid_is_None in Hf; congruence].
  rewrite (findByUuid_find _ _ _ _ Hf) in Hr. injection Hr as ->.
  rewrite (upsert_existing _ _ _ _ Hf), Hs.
  apply list_insert_id. by apply find_has_uuid in Hf as (Hi & _).
Qed.

Lemma upsertEach_keeps_unique items data :
  uuid_unique data → uuid_unique (upsertEach items data).
Proof.
  revert data. induction items as [|item items IH]; intros data Hnd; [done|].
  rewrite upsertEach_cons. by apply IH, upsert_keeps_unique.
Qed.

Lemma upsertEach_exists_kept k items data :
  exists_ k data = true → exists_ k (upsertEach items data) = true.
Proof.
  revert data. induction items as [|item items IH]; intros data Hex; [done|].
  rewrite upsertEach_cons. by apply IH, exists_upsert_kept.
Qed.

Lemma upsertEach_count items data :
  count data ≤ count (upsertEach items data) ≤ count data + length items.
Proof.
  revert data. induction items as [|item items IH]; intros data.
  - simpl. lia.
  - rewrite upsertEach_cons. specialize (IH (upsert item data).1).
    pose proof (upsert_count_bounds item data). simpl. lia.
Qed.

Lemma upsertEach_other k items data :
  (∀ item, item ∈ items → item_uuid item ≠ k) →
  findByUuid k (upsertEach items data) = findByUuid k data.
Proof.
  revert data. induction items as [|item items IH]; intros data Hk; [done|].
  rewrite upsertEach_cons, IH.
  - apply findByUuid_upsert_other. intros ->. by apply (Hk item); [left|].
  - intros item' Hin. apply Hk. by right.
Qed.

Lemma settled_upsertEach item items data :
  (∀ item', item' ∈ items → item_uuid item' ≠ item_uuid item) →
  settled item data → settled item (upsertEach items data).
Proof.
  intros Hk (r & Hr & Hs). exists r. split; [|done].
  by rewrite upsertEach_other.
Qed.

Lemma upsertEach_settles items data :
  NoDup (item_uuid <$> items) →
  ∀ item, item ∈ items → settled item (upsertEach items data).
Proof.
  revert data. induction items as [|x items IH]; intros data Hnd item Hin.
  { by apply elem_of_nil in Hin. }
  rewrite fmap_cons in Hnd. apply NoDup_cons in Hnd as [Hx Hnd].
  rewrite upsertEach_cons. apply elem_of_cons in Hin as [->|Hin].
  - apply settled_upsertEach; [|apply settled_after_upsert].
    intros item' Hin Heq. apply Hx. rewrite <- Heq.
    by apply list_elem_of_fmap_2.
  - by apply IH.
Qed.

Lemma upsertEach_settled items data :
  (∀ item, item ∈ items → settled item data) → upsertEach items data = data.
Proof.
  induction items as [|x items IH]; intros Hall; [done|].
  rewrite upsertEach_cons, upsert_settled by (apply Hall; by left).
  apply IH. intros item Hin. apply Hall. by right.
Qed.

End Records.

(** X6.  The loops of [storeData] over the users and over the projects.
    Upserting a batch keeps the uuids of a collection distinct, never
    loses a uuid that was stored, leaves every item of the batch stored
    under its uuid (also under the missing uuid), adds at most one
    record for each item, and leaves the lookup of every uuid that does
    not occur in the batch. *)
Theorem upsertEach_stores_batch {R : Type} `{Item R} (items : list R)
  (data : list R) :
  (uuid_unique data → uuid_unique (upsertEach items data)) ∧
  (∀ k, exists_ k data = true → exists_ k (upsertEach items data) = true) ∧
  (∀ item, item ∈ items →
           exists_ (item_uuid item) (upsertEach items data) = true) ∧
  count data ≤ count (upsertEach items data) ≤ count data + length items ∧
  (∀ k, (∀ item, item ∈ items → item_uuid item ≠ k) →
        findByUuid k (upsertEach items data) = findByUuid k data).
Proof.
  split_and!.
  - apply upsertEach_keeps_unique.
  - intros k. apply upsertEach_exists_kept.
  - intros item Hin. revert data.
    induction items as [|x items IH]; intros data.
    { by apply elem_of_nil in Hin. }
    rewrite upsertEach_cons. apply elem_of_cons in Hin as [->|Hin].
    + apply upsertEach_exists_kept, exists_upsert_own.
    + by apply IH.
  - apply upsertEach_count.
  - apply upsertEach_count.
  - intros k. apply upsertEach_other.
Qed.

Lemma upsertEach_stores_batch_witness :
  uuid_unique [Samples.stored] ∧
  uuid_unique (upsertEach [Samples.changed; Samples.fresh] [Samples.stored]) ∧
  exists_ (item_uuid Samples.fresh)
    (upsertEach [Samples.changed; Samples.fresh] [Samples.stored]) = true ∧
  count (upsertEach [Samples.changed; Samples.fresh] [Samples.stored]) = 2.
Proof.
  assert (uuid_unique [Samples.stored]) as Hnd.
  { unfold uuid_unique. simpl. apply NoDup_singleton. }
  destruct (upsertEach_stores_batch [Samples.changed; Samples.fresh]
              [Samples.stored]) as (Hunique & _ & Hstored & _).
  split; [exact Hnd|]. split; [exact (Hunique Hnd)|].
  split; [|reflexivity].
  apply Hstored. apply elem_of_cons. right. apply elem_of_cons. by left.
Defined.

(** X7.  Storing the same batch of users or projects again changes
    nothing, when the uuids of the batch are pairwise distinct: after
    the first pass every item is settled, and the second pass leaves
    the collection as the first one made it. *)
Theorem upsertEach_again {R : Type} `{Item R} (items : list R)
  (data : list R) :
  NoDup (item_uuid <$> items) →
  (∀ item, item ∈ items → settled item (upsertEach items data)) ∧
  upsertEach items (upsertEach items data) = upsertEach items data.
Proof.
  intros Hnd. split.
  - by apply upsertEach_settles.
  - apply upsertEach_settled. by apply upsertEach_settles.
Qed.

Lemma upsertEach_again_witness :
  NoDup (item_uuid <$> [Samples.changed; Samples.fresh]) ∧
  upsertEach [Samples.changed; Samples.fresh]
    (upsertEach [Samples.changed; Samples.fresh] [Samples.stored]) =
  upsertEach [Samples.changed; Samples.fresh] [Samples.stored].
Proof.
  assert (NoDup (item_uuid <$> [Samples.changed; Samples.fresh])) as Hnd.
  { simpl. apply NoDup_cons. split.
    - intros [Heq|[]%elem_of_nil]%elem_of_cons. discriminate Heq.
    - apply NoDup_singleton. }
  split; [exact Hnd|].
  exact (proj2 (upsertEach_again [Samples.changed; Samples.fresh]
                  [Samples.stored] Hnd)).
Defined.

End StoreRecordsProperties.

(** ** Sorting by date *)

Module SortProperties.
Import Js Queries Notions.
Local Open Scope nat_scope.
Section Sorting.
Context {A : Type}.
Variable compare : A → A → option Z.
Variable time : A → Z.
Variable valid : A → Prop.
Hypothesis compare_times :
  ∀ a b, valid a → valid b → compare a b = Some (time b - time a)%Z.

Lemma sort_insert_perm x sorted :
  JsArray.sort_insert compare x sorted ≡ₚ x :: sorted.
Proof.
  induction sorted as [|y rest IH]; [done|]. simpl.
  case_bool_decide; [done|]. rewrite IH. apply Permutation_swap.
Qed.

Lemma sort_from_perm acc array :
  foldl (λ sorted x, JsArray.sort_insert compare x sorted) acc array
    ≡ₚ acc ++ array.
Proof.
  revert acc. induction array as [|x array IH]; intros acc; simpl.
  - by rewrite app_nil_r.
  - rewrite IH, sort_insert_perm. apply Permutation_middle.
Qed.

Lemma sort_perm array : JsArray.sort compare array ≡ₚ array.
Proof. apply (sort_from_perm []). Qed.

Lemma sort_insert_newest_first x sorted :
  valid x → Forall valid sorted → newest_first time sorted →
  newest_first time (JsArray.sort_insert compare x sorted).
Proof.
  intros Hx. unfold newest_first.
  induction sorted as [|y rest IH]; intros Hvalid Hsorted; simpl.
  - apply Sorted.SSorted_cons; [apply Sorted.SSorted_nil|done].
  - apply Forall_cons in Hvalid as [Hy Hvalid].
    apply Sorted.StronglySorted_inv in Hsorted as [Hrest Hafter].
    rewrite (compare_times y x Hy Hx). simpl. case_bool_decide as Hlt.
    + apply Sorted.SSorted_cons.
      * by apply Sorted.SSorted_cons.
      * apply Forall_cons. split; [lia|].
        eapply Forall_impl; [exact Hafter|]. simpl. intros z Hz. lia.
    + apply Sorted.SSorted_cons; [by apply IH|].
      rewrite sort_insert_perm. apply Forall_cons. split; [lia|done].
Qed.

Lemma sort_newest_first array :
  Forall valid array → newest_first time (JsArray.sort compare array).
Proof.
  unfold JsArray.sort.
  assert (∀ acc, Forall valid acc → newest_first time acc →
                 Forall valid array →
                 newest_first time
                   (foldl (λ sorted x, JsArray.sort_insert compare x sorted)
                      acc array)) as Hgen.
  { induction array as [|x array IH]; intros acc Hacc Hsorted Harray;
      [done|]. simpl.
    apply Forall_cons in Harray as [Hx Harray]. apply IH; [| |done].
    - rewrite sort_insert_perm. by apply Forall_cons.
    - by apply sort_insert_newest_first. }
  intros Harray. apply Hgen; [done| |done]. apply Sorted.SSorted_nil.
Qed.

End Sorting.

Lemma newest_first_app_le {A} (time : A → Z) (l1 l2 : list A) a b :
  newest_first time (l1 ++ l2) → a ∈ l1 → b ∈ l2 → (time b ≤ time a)%Z.
Proof.
  unfold newest_first. induction l1 as [|x l1 IH]; intros Hs Ha Hb.
  { by apply elem_of_nil in Ha. }
  simpl in Hs. apply Sorted.StronglySorted_inv in Hs as [Hrest Hafter].
  apply elem_of_cons in Ha as [->|Ha]; [|by apply IH].
  rewrite Forall_forall in Hafter. apply Hafter, elem_of_app. by right.
Qed.

Lemma newest_first_head {A} (time : A → Z) (l : list A) a b :
  newest_first time l → l !! 0 = Some a → b ∈ l → (time b ≤ time a)%Z.
Proof.
  unfold newest_first. destruct l as [|x l]; [done|].
  intros Hs [= ->] Hb.
  apply Sorted.StronglySorted_inv in Hs as [_ Hafter].
  apply elem_of_cons in Hb as [->|Hb]; [lia|].
  rewrite Forall_forall in Hafter. by apply Hafter.
Qed.

(** The comparator of [findRecent] on records whose [updated_at] is a
    valid date. *)
Lemma byUpdated_times {R} Date_parse (updated : R → option string) a b :
  is_Some (newDate Date_parse (updated a)) →
  is_Some (newDate Date_parse (updated b)) →
  byUpdated Date_parse updated a b =
    Some (recentRank Date_parse updated b -
          recentRank Date_parse updated a)%Z.
Proof.
  intros [ta Ha] [tb Hb]. unfold byUpdated, recentRank.
  by rewrite Ha, Hb.
Qed.

(** The comparator of [storeData] on conversations whose [updated_at] is
    absent, empty or a valid date. *)
Lemma newestFirst_times Date_parse a b :
  is_Some (AppController.updatedDate Date_parse a) →
  is_Some (AppController.updatedDate Date_parse b) →
  AppController.newestFirst Date_parse a b =
    Some (updatedRank Date_parse b - updatedRank Date_parse a)%Z.
Proof.
  intros [ta Ha] [tb Hb]. unfold AppController.newestFirst, updatedRank.
  by rewrite Ha, Hb.
Qed.

Lemma sorted_insert_sort Date_parse c sorted :
  AppController.sorted_insert Date_parse c sorted =
    JsArray.sort_insert (AppController.newestFirst Date_parse) c sorted.
Proof. induction sorted as [|d rest IH]; [done|]. simpl. by rewrite IH. Qed.

Lemma sortedConversations_sort Date_parse batch :
  AppController.sortedConversations Date_parse batch =
    JsArray.sort (AppController.newestFirst Date_parse) batch.
Proof.
  unfold AppController.sortedConversations, JsArray.sort.
  generalize (@nil conversation).
  induction batch as [|c batch IH]; intros acc; [done|]. simpl.
  by rewrite sorted_insert_sort, IH.
Qed.

Lemma recent_newest_first {R} Date_parse (updated : R → option string)
  limit (data : list R) :
  Forall (λ r, is_Some (newDate Date_parse (updated r))) data →
  let recent :=
    JsArray.slice_to limit
      (JsArray.sort (byUpdated Date_parse updated) data) in
  (∃ older, recent ++ older ≡ₚ data ∧
            newest_first (recentRank Date_parse updated)
              (recent ++ older)) ∧
  length recent = limit `min` length data ∧
  (∀ r r', recent !! 0 = Some r → r' ∈ data →
           (recentRank Date_parse updated r' ≤
            recentRank Date_parse updated r)%Z).
Proof.
  intros Hvalid recent.
  pose proof (sort_perm (byUpdated Date_parse updated) data) as Hperm.
  pose proof (sort_newest_first (byUpdated Date_parse updated)
                (recentRank Date_parse updated) _
                (byUpdated_times Date_parse updated) data Hvalid) as Hsorted.
  split_and!.
  - exists (drop limit (JsArray.sort (byUpdated Date_parse updated) data)).
    unfold recent, JsArray.slice_to. by rewrite take_drop.
  - unfold recent, JsArray.slice_to. by rewrite length_take, Hperm.
  - intros r r' Hr Hr'. eapply newest_first_head; [exact Hsorted| |].
    + unfold recent, JsArray.slice_to in Hr.
      destruct limit; [by rewrite take_0 in Hr|].
      by rewrite lookup_take_lt in Hr by lia.
    + by rewrite Hperm.
Qed.

(** X8.  [findRecent] of the conversations and of the projects.  When
    the [updated_at] of every stored record is a valid date, the result
    holds the [limit] newest records, newest first: it has [limit]
    records, or all of them when fewer are stored; together with the
    records that are left out it is the collection in another order, in
    which no record is newer than one before it; and its first record,
    which the status command shows as the most recent conversation, is
    at least as new as every stored record. *)
Theorem findRecent_newest_first (Date_parse : string → option date)
  (limit : nat) :
  (∀ data : list conversation,
     Forall (λ c, is_Some (newDate Date_parse (updated_at c))) data →
     let recent := ConversationsRepository.findRecent Date_parse limit data in
     (∃ older, recent ++ older ≡ₚ data ∧
               newest_first (recentRank Date_parse updated_at)
                 (recent ++ older)) ∧
     length recent = limit `min` length data ∧
     (∀ c c', recent !! 0 = Some c → c' ∈ data →
              (recentRank Date_parse updated_at c' ≤
               recentRank Date_parse updated_at c)%Z)) ∧
  (∀ data : list ProjectsRepository.project,
     Forall (λ p, is_Some (newDate Date_parse
                             (ProjectsRepository.updated_at p))) data →
     let recent := ProjectsQueries.findRecent Date_parse limit data in
     (∃ older, recent ++ older ≡ₚ data ∧
               newest_first
                 (recentRank Date_parse ProjectsRepository.updated_at)
                 (recent ++ older)) ∧
     length recent = limit `min` length data ∧
     (∀ p p', recent !! 0 = Some p → p' ∈ data →
              (recentRank Date_parse ProjectsRepository.updated_at p' ≤
               recentRank Date_parse ProjectsRepository.updated_at p)%Z)).
Proof.
  split; intros data Hvalid; by apply recent_newest_first.
Qed.

Lemma findRecent_newest_first_witness :
  let data := [Samples.stored; Samples.changed; Samples.fresh] in
  Forall (λ c, is_Some (newDate parse_utc (updated_at c))) data ∧
  ConversationsRepository.findRecent parse_utc 1 data = [Samples.changed] ∧
  ∀ c', c' ∈ data →
        (recentRank parse_utc updated_at c' ≤
         recentRank parse_utc updated_at Samples.changed)%Z.
Proof.
  intros data.
  assert (Forall (λ c, is_Some (newDate parse_utc (updated_at c))) data)
    as Hvalid.
  { repeat constructor; by eexists. }
  split; [exact Hvalid|]. split; [reflexivity|].
  destruct (proj1 (findRecent_newest_first parse_utc 1) data Hvalid)
    as (_ & _ & Hfirst).
  intros c'. exact (Hfirst Samples.changed c' eq_refl).
Defined.

(** X9.  The order of the sync loop.  When the [updated_at] of every
    conversation of a batch is absent, empty or a valid date, [storeData]
    takes the conversations of the batch newest first, an absent or
    empty date counting as the oldest possible one. *)
Theorem storeData_newest_first (force : bool)
  (Date_parse : string → option date) (batch data : list conversation) :
  Forall (λ c, is_Some (AppController.updatedDate Date_parse c)) batch →
  let visited :=
    (λ turn, turn.1.1) <$>
      AppController.storeTrace force
        (AppController.sortedConversations Date_parse batch) data in
  visited ≡ₚ batch ∧ newest_first (updatedRank Date_parse) visited.
Proof.
  intros Hvalid visited. unfold visited.
  rewrite ControllerProperties.storeTrace_conversations.
  rewrite sortedConversations_sort. split.
  - apply sort_perm.
  - eapply sort_newest_first; [|exact Hvalid].
    apply newestFirst_times.
Qed.

Lemma storeData_newest_first_witness :
  let batch := [Samples.stored; Samples.changed; Samples.fresh] in
  Forall (λ c, is_Some (AppController.updatedDate parse_utc c)) batch ∧
  (λ turn, turn.1.1) <$>
    AppController.storeTrace false
      (AppController.sortedConversations parse_utc batch) [] =
    [Samples.changed; Samples.stored; Samples.fresh] ∧
  newest_first (updatedRank parse_utc)
    [Samples.changed; Samples.stored; Samples.fresh].
Proof.
  intros batch.
  assert (Forall (λ c, is_Some (AppController.updatedDate parse_utc c))
            batch) as Hvalid.
  { repeat constructor; by eexists. }
  split; [exact Hvalid|]. split; [reflexivity|].
  exact (proj2 (storeData_newest_first false parse_utc batch [] Hvalid)).
Defined.

End SortProperties.

(** ** The queries of the repositories *)

Module QueryProperties.
Import Js BaseRepository Queries Notions StoreProperties LookupProperties.
Local Open Scope nat_scope.

Lemma filter_elem_of {A} (f : A → bool) (l : list A) x :
  x ∈ List.filter f l ↔ x ∈ l ∧ f x = true.
Proof. rewrite !list_elem_of_In. apply filter_In. Qed.

Lemma filter_partition {A} (f : A → bool) (l : list A) :
  List.filter f l ++ List.filter (λ x, negb (f x)) l ≡ₚ l.
Proof.
  induction l as [|x l IH]; [done|]. simpl. destruct (f x); simpl.
  - by rewrite IH.
  - rewrite <- Permutation_middle. by rewrite IH.
Qed.

Lemma filter_sublist {A} (f : A → bool) (l : list A) :
  List.filter f l `sublist_of` l.
Proof.
  induction l as [|x l IH]; [done|]. simpl. destruct (f x).
  - by apply sublist_skip.
  - by apply sublist_cons.
Qed.




Lemma nameIncludes_truthy lowerName o :
  nameIncludes lowerName o = true → truthy_string o = true.
Proof. unfold nameIncludes. by intros [? _]%andb_true_iff. Qed.

(** X10.  [findProcessed] and [findUnprocessed] split the collection:
    every stored conversation is in exactly one of the two results, so
    that the two counts of the status command add up to the number of
    conversations. *)
Theorem processed_partition (data : list conversation) :
  ConversationsRepository.findProcessed data ++
    ConversationsRepository.findUnprocessed data ≡ₚ data ∧
  length (ConversationsRepository.findProcessed data) +
    length (ConversationsRepository.findUnprocessed data) = count data ∧
  (∀ c, c ∈ data →
        (c ∈ ConversationsRepository.findProcessed data ↔
         processed c = Some true) ∧
        (c ∈ ConversationsRepository.findUnprocessed data ↔
         processed c ≠ Some true)).
Proof.
  unfold ConversationsRepository.findProcessed,
    ConversationsRepository.findUnprocessed. split_and!.
  - apply filter_partition.
  - apply filter_length.
  - intros c Hc. rewrite !filter_elem_of. split.
    + split; [|by intros ->].
      intros [_ Hp]. by destruct (processed c) as [[]|].
    + split.
      * intros [_ Hp] Heq. by rewrite Heq in Hp.
      * intros Hp. split; [done|]. by destruct (processed c) as [[]|].
Qed.

(** X11.  [markAsProcessed].  On a uuid that no record has it returns
    [null] and changes nothing.  Otherwise the first record with the
    uuid gets [processed: true] and the path, and keeps every other
    key; the uuid finds the marked record, which [findProcessed] now
    returns, and with a path that is not empty the render phase without
    the force flag skips the record. *)
Theorem markAsProcessed_marks (k : option string) (path : string)
  (data : list conversation) :
  (findByUuid k data = None →
   ConversationsRepository.markAsProcessed k path data = (data, None)) ∧
  (∀ c, findByUuid k data = Some c →
     let after := ConversationsRepository.markAsProcessed k path data in
     let marked :=
       {| uuid := uuid c; name := name c; created_at := created_at c;
          updated_at := updated_at c; account := account c;
          chat_messages := chat_messages c;
          processed := Some true; markdownPath := Some path |} in
     after.2 = Some marked ∧
     findByUuid k after.1 = Some marked ∧
     count after.1 = count data ∧
     marked ∈ ConversationsRepository.findProcessed after.1 ∧
     (path ≠ "" → AppController.alreadyRendered false marked = true)).
Proof.
  split.
  - intros Hf%findByUuid_is_None.
    unfold ConversationsRepository.markAsProcessed, update. by rewrite Hf.
  - intros c Hc after marked.
    destruct (list_find (has_uuid k) data) as [[i x]|] eqn:Hf;
      [|by apply findByUuid_is_None in Hf; congruence].
    rewrite (findByUuid_find _ _ _ _ Hf) in Hc. injection Hc as ->.
    pose proof Hf as (Hi & Hx & _)%find_has_uuid.
    assert (after = (<[i := marked]> data, Some marked)) as ->.
    { unfold after, ConversationsRepository.markAsProcessed.
      by rewrite (update_found _ _ _ _ _ Hf). }
    cbn [fst snd].
    assert (findByUuid k (<[i := marked]> data) = Some marked) as Hfound.
    { by apply (findByUuid_insert_same _ _ _ _ _ Hf). }
    split_and!.
    + done.
    + done.
    + unfold count. by rewrite length_insert.
    + apply filter_elem_of. split; [|done].
      by apply findByUuid_Some in Hfound as [Hin _].
    + intros Hpath. unfold AppController.alreadyRendered. simpl.
      apply negb_true_iff, String.eqb_neq. done.
Qed.



End QueryProperties.

(** ** The render phase as a whole *)

Module RenderPhaseProperties.
Import Js BaseRepository AppController Spec Notions.
Import StoreProperties LookupProperties ControllerProperties.
Local Open Scope nat_scope.

Section Phase.
Variable force : bool.
Variable outputDir : string.
Variable Date_parse : string → option date.
Variable now : date.
Variable path_join : string → string → string.
Variable generate : conversation → option string.

#[local] Abbreviation rendered :=
  (rendered_record force outputDir Date_parse now path_join generate).
#[local] Abbreviation file_of :=
  (rendered_file force outputDir Date_parse now path_join generate).
#[local] Abbreviation render_step :=
  (renderConversation force outputDir Date_parse now path_join generate).
#[local] Abbreviation render_loop :=
  (renderLoop force outputDir Date_parse now path_join generate).
#[local] Abbreviation partly :=
  (partly_rendered force outputDir Date_parse now path_join generate).

#[local] Abbreviation state_after :=
  (state_after force outputDir Date_parse now path_join generate).

Lemma render_step_state (data : list conversation) written i c :
  uuid_unique data → data !! i = Some c →
  render_step c (state_after data written i) =
    state_after data written (S i).
Proof.
  intros Hnd Hi. unfold Notions.state_after.
  rewrite (take_S_r _ _ _ Hi), omap_app, List.filter_app, !length_app.
  rewrite <- (partly_rendered_step _ _ _ _ _ _ _ _ _ Hi).
  assert (list_find (has_uuid (uuid c)) (partly data i) = Some (i, c))
    as Hfind.
  { apply find_own_uuid.
    - unfold uuid_unique. simpl.
      by rewrite (partly_rendered_uuids force outputDir Date_parse now
                    path_join generate).
    - by rewrite (partly_rendered_lookup force outputDir Date_parse now
                    path_join generate). }
  unfold AppController.renderConversation, Spec.rendered_record,
    Notions.rendered_file. simpl.
  destruct (alreadyRendered force c) eqn:Hskip; simpl.
  - rewrite list_insert_id
      by by rewrite (partly_rendered_lookup force outputDir Date_parse now
                       path_join generate).
    rewrite !app_nil_r. f_equal; lia.
  - destruct (generate c) as [markdown|]; simpl.
    + destruct (outputFilename Date_parse now c) as [filename|]; simpl.
      * rewrite (update_found _ _ _ _ _ Hfind). simpl.
        rewrite app_assoc. f_equal; lia.
      * rewrite list_insert_id
          by by rewrite (partly_rendered_lookup force outputDir Date_parse
                           now path_join generate).
        rewrite !app_nil_r. f_equal; lia.
    + rewrite list_insert_id
        by by rewrite (partly_rendered_lookup force outputDir Date_parse now
                         path_join generate).
      rewrite !app_nil_r. f_equal; lia.
Qed.

Lemma render_loop_state (data : list conversation) written steps i :
  uuid_unique data → i + steps = length data →
  render_loop steps i (state_after data written i) =
    state_after data written (length data).
Proof.
  intros Hnd. revert i. induction steps as [|steps IH]; intros i Hlen.
  - simpl. f_equal. lia.
  - simpl. rewrite (partly_rendered_lookup force outputDir Date_parse now
                      path_join generate).
    destruct (data !! i) as [c|] eqn:Hi.
    + rewrite (render_step_state _ _ _ _ Hnd Hi). apply IH. lia.
    + apply lookup_ge_None_1 in Hi. lia.
Qed.

(** With distinct uuids, the render phase by its four results. *)
Lemma generateMarkdownFiles_state (data : list conversation) written :
  uuid_unique data →
  generateMarkdownFiles force outputDir Date_parse now path_join generate
    data written =
  {| conversations := rendered <$> data;
     files := written ++ omap file_of data;
     generatedCount := length (omap file_of data);
     renderSkipped := length (List.filter (alreadyRendered force) data) |}.
Proof.
  intros Hnd. unfold generateMarkdownFiles.
  pose proof (render_loop_state data written (length data) 0 Hnd eq_refl)
    as Hloop.
  unfold Notions.state_after in Hloop. unfold Spec.partly_rendered in Hloop.
  rewrite take_0, drop_0, !firstn_all, drop_all, app_nil_r in Hloop.
  simpl in Hloop. by rewrite app_nil_r in Hloop.
Qed.



End Phase.

(** The record and the file of a second look at a rendered record,
    without the force flag. *)
Lemma rendered_again force outputDir Date_parse now path_join generate c :
  (∀ dir file, path_join dir file ≠ "") →
  let c' := rendered_record force outputDir Date_parse now path_join
              generate c in
  rendered_record false outputDir Date_parse now path_join generate c' = c' ∧
  rendered_file false outputDir Date_parse now path_join generate c' = None.
Proof.
  intros Hpath c'.
  assert (alreadyRendered false c' = true ∨
          c' = c ∧ (generate c = None ∨
                    outputFilename Date_parse now c = None)) as Hcases.
  { unfold c', Spec.rendered_record.
    destruct (alreadyRendered force c) eqn:Hskip.
    - left. unfold alreadyRendered in *. by destruct force.
    - destruct (generate c) as [markdown|]; [|by right; split; [|left]].
      destruct (outputFilename Date_parse now c) as [filename|];
        [|by right; split; [|right]].
      left. unfold alreadyRendered. simpl.
      apply negb_true_iff, String.eqb_neq, Hpath. }
  clearbody c'. unfold Spec.rendered_record, Notions.rendered_file.
  destruct Hcases as [->|[-> Hfails]]; [done|].
  destruct (alreadyRendered false c); [done|].
  destruct Hfails as [->| ->]; [done|]. by destruct (generate c).
Qed.

Lemma no_file_again force outputDir Date_parse now path_join generate
  (data : list conversation) :
  (∀ dir file, path_join dir file ≠ "") →
  omap (rendered_file false outputDir Date_parse now path_join generate)
    (rendered_record force outputDir Date_parse now path_join generate <$>
       data) = [].
Proof.
  intros Hpath. induction data as [|c data IH]; [done|].
  rewrite fmap_cons.
  change (omap ?f (?x :: ?l))
    with (match f x with Some y => y :: omap f l | None => omap f l end).
  by rewrite (proj2 (rendered_again force outputDir Date_parse now path_join
                       generate c Hpath)).
Qed.



Lemma second_render_state force outputDir Date_parse now path_join generate
  data (written : list (string * string)) :
  uuid_unique data →
  (∀ dir file, path_join dir file ≠ "") →
  let first := generateMarkdownFiles force outputDir Date_parse now
                 path_join generate data written in
  let second := generateMarkdownFiles false outputDir Date_parse now
                  path_join generate (conversations first) (files first) in
  conversations second = conversations first ∧
  files second = files first ∧
  generatedCount second = 0.
Proof.
  intros Hnd Hpath first second.
  assert (uuid_unique (conversations first)) as Hnd'.
  { by apply generateMarkdownFiles_keeps_unique. }
  unfold second. rewrite generateMarkdownFiles_state by done.
  unfold first. rewrite generateMarkdownFiles_state by done. simpl.
  rewrite (no_file_again force outputDir Date_parse now path_join generate
             data Hpath).
  split_and!; [|by rewrite app_nil_r|done].
  rewrite <- list_fmap_compose. apply list_fmap_ext. intros i c _. simpl.
  apply (rendered_again force outputDir Date_parse now path_join generate c
           Hpath).
Qed.

(** X14.  Rendering twice.  When [path.join] never gives the empty
    path, a render phase without the force flag that follows a render
    phase, forced or not, on a store with distinct uuids writes no
    file and leaves every record: the conversations that were rendered
    are skipped, and those whose rendering threw throw again. *)
Theorem second_render_writes_nothing (force : bool) (outputDir : string)
  (Date_parse : string → option date) (now : date)
  (path_join : string → string → string)
  (generate : conversation → option string)
  (data : list conversation) (written : list (string * string)) :
  uuid_unique data →
  (∀ dir file, path_join dir file ≠ "") →
  let first := generateMarkdownFiles force outputDir Date_parse now
                 path_join generate data written in
  let second := generateMarkdownFiles false outputDir Date_parse now
                  path_join generate (conversations first) (files first) in
  conversations second = conversations first ∧
  files second = files first ∧
  generatedCount second = 0.
Proof.
  intros Hnd Hpath.
  by apply second_render_state.
Qed.

Lemma second_render_writes_nothing_witness :
  let first := generateMarkdownFiles false "output" parse_utc epoch
                 Samples.join Samples.named_only
                 [Samples.fresh; Samples.test_project] [] in
  let second := generateMarkdownFiles false "output" parse_utc epoch
                  Samples.join Samples.named_only (conversations first)
                  (files first) in
  uuid_unique [Samples.fresh; Samples.test_project] ∧
  (∀ dir file, Samples.join dir file ≠ "") ∧
  length (files first) = 1 ∧
  conversations second = conversations first ∧
  files second = files first.
Proof.
  intros first second.
  assert (uuid_unique [Samples.fresh; Samples.test_project]) as Hnd.
  { unfold uuid_unique. simpl. apply NoDup_cons. split.
    - intros [Heq|[]%elem_of_nil]%elem_of_cons. discriminate Heq.
    - apply NoDup_singleton. }
  assert (∀ dir file, Samples.join dir file ≠ "") as Hpath.
  { intros dir file. unfold Samples.join. by destruct dir. }
  split; [exact Hnd|]. split; [exact Hpath|]. split; [reflexivity|].
  destruct (second_render_writes_nothing false "output" parse_utc epoch
              Samples.join Samples.named_only
              [Samples.fresh; Samples.test_project] [] Hnd Hpath)
    as (Hstore & Hfiles & _).
  split; [exact Hstore|exact Hfiles].
Defined.

End RenderPhaseProperties.

(** ** The sync loop as a whole *)

Module SyncProperties.
Import Js BaseRepository AppController Spec Notions.
Import StoreProperties LookupProperties StoreRecordsProperties.
Import ControllerProperties RenderPhaseProperties.
Local Open Scope nat_scope.

Implicit Types (c : conversation) (data batch sorted : list conversation).

Lemma storeConversation_cases force c data :
  storeConversation force c data = (data, Invalid) ∧ has_id c = false ∨
  storeConversation force c data = (data, Skipped) ∧ has_id c = true ∧
    shouldProcess force (findByUuid (uuid c) data) c = false ∨
  storeConversation force c data = ((upsert c data).1, Stored) ∧
    has_id c = true.
Proof.
  unfold storeConversation, has_id.
  destruct (truthy_string (uuid c)); simpl; [|by left].
  destruct (shouldProcess force (findByUuid (uuid c) data) c); simpl.
  - by right; right.
  - by right; left.
Qed.

Lemma storeLoop_cons force c sorted data t :
  storeLoop force (c :: sorted) data t =
    storeLoop force sorted (storeConversation force c data).1
      (count_decision (storeConversation force c data).2 t).
Proof. simpl. by destruct (storeConversation force c data). Qed.

(** The uuids of the store after one step: those before it, and the
    uuid of the conversation when it was not stored yet. *)
Lemma storeConversation_uuids force c data :
  ∃ added,
    uuid <$> (storeConversation force c data).1 = (uuid <$> data) ++ added ∧
    (added = [] ∨
     added = [uuid c] ∧ has_id c = true ∧
     (storeConversation force c data).2 = Stored).
Proof.
  destruct (storeConversation_cases force c data)
    as [[-> _]|[[-> _]|[-> Hid]]]; simpl.
  - exists []. split; [by rewrite app_nil_r|by left].
  - exists []. split; [by rewrite app_nil_r|by left].
  - destruct (list_find (has_uuid (item_uuid c)) data) as [[i x]|] eqn:Hf.
    + exists []. split; [|by left]. rewrite app_nil_r.
      rewrite (upsert_existing _ _ _ _ Hf).
      pose proof Hf as (Hi & Hx & _)%find_has_uuid.
      change (item_uuid <$> <[i := spread x c]> data = item_uuid <$> data).
      apply (uuids_after_update (uuid c) x c i data Hi).
      rewrite Hx. apply updated_uuid; auto.
    + exists [uuid c]. split; [|by right].
      by rewrite (upsert_new _ _ Hf), fmap_app.
Qed.

Lemma storeLoop_accounts force sorted data t :
  let after := storeLoop force sorted data t in
  processedCount after.2 + skippedCount after.2 =
    processedCount t + skippedCount t + length sorted ∧
  ∃ added,
    uuid <$> after.1 = (uuid <$> data) ++ added ∧
    processedCount t + length added ≤ processedCount after.2 ∧
    Forall (λ k, truthy_string k = true ∧ k ∈ uuid <$> sorted) added.
Proof.
  revert data t. induction sorted as [|c sorted IH]; intros data t after.
  - unfold after. simpl. split; [lia|]. exists [].
    split; [by rewrite app_nil_r|]. split; [simpl; lia|done].
  - unfold after. rewrite storeLoop_cons.
    destruct (IH (storeConversation force c data).1
                (count_decision (storeConversation force c data).2 t))
      as (Hsum & added & Huuids & Hcount & Hvalid).
    destruct (storeConversation_uuids force c data)
      as (first & Hfirst & Hcases).
    assert (processedCount
              (count_decision (storeConversation force c data).2 t) +
            skippedCount
              (count_decision (storeConversation force c data).2 t) =
            S (processedCount t + skippedCount t)) as Hstep.
    { destruct (storeConversation force c data).2; simpl; lia. }
    assert (processedCount t ≤
            processedCount
              (count_decision (storeConversation force c data).2 t))
      as Hmono.
    { destruct (storeConversation force c data).2; simpl; lia. }
    split; [cbn [length]; rewrite Hsum, Hstep; lia|].
    exists (first ++ added). split_and!.
    + by rewrite Huuids, Hfirst, app_assoc.
    + destruct Hcases as [->|(-> & _ & Hd)].
      * cbn [app]. lia.
      * assert (processedCount
                  (count_decision (storeConversation force c data).2 t) =
                S (processedCount t)) as Hone by by rewrite Hd.
        cbn [app length]. lia.
    + apply Forall_app. split.
      * destruct Hcases as [->|(-> & Hid & _)]; [done|].
        apply Forall_singleton. split; [done|]. rewrite fmap_cons. by left.
      * eapply Forall_impl; [exact Hvalid|]. cbv beta. intros k [Hk Hin].
        split; [done|]. rewrite fmap_cons. by right.
Qed.

Lemma storeConversation_exists force c data :
  has_id c = true →
  exists_ (uuid c) (storeConversation force c data).1 = true.
Proof.
  intros Hid. destruct (storeConversation_cases force c data)
    as [[_ Hno]|[(-> & _ & Hskip)|[-> _]]]; [congruence| |].
  - simpl. apply exists_iff_find. unfold shouldProcess in Hskip.
    destruct (findByUuid (uuid c) data) as [e|]; [by exists e|].
    by rewrite orb_true_r in Hskip.
  - exact (exists_upsert_own c data).
Qed.

Lemma storeConversation_exists_kept force c data k :
  exists_ k data = true →
  exists_ k (storeConversation force c data).1 = true.
Proof.
  intros Hex. destruct (storeConversation_cases force c data)
    as [[-> _]|[[-> _]|[-> _]]]; [done|done|].
  exact (exists_upsert_kept k c data Hex).
Qed.

Lemma storeLoop_exists_kept force sorted data t k :
  exists_ k data = true → exists_ k (storeLoop force sorted data t).1 = true.
Proof.
  revert data t. induction sorted as [|c sorted IH]; intros data t Hex;
    [done|].
  rewrite storeLoop_cons. by apply IH, storeConversation_exists_kept.
Qed.

Lemma storeLoop_exists force sorted data t c :
  c ∈ sorted → has_id c = true →
  exists_ (uuid c) (storeLoop force sorted data t).1 = true.
Proof.
  revert data t. induction sorted as [|x sorted IH]; intros data t Hin Hid.
  { by apply elem_of_nil in Hin. }
  rewrite storeLoop_cons. apply elem_of_cons in Hin as [->|Hin].
  - by apply storeLoop_exists_kept, storeConversation_exists.
  - by apply IH.
Qed.

(** X15.  What [storeData] does to the store, for every store, batch and
    force flag.  Every conversation of the batch is counted once, as
    processed or as skipped.  The store keeps its records in their
    places, with their uuids, and grows at its end by at most one record
    for each conversation counted as processed; no record without a uuid
    is added; and afterwards every conversation of the batch that
    carries a uuid is stored under it. *)
Theorem storeData_appends_valid (force : bool)
  (Date_parse : string → option date) (batch data : list conversation) :
  let after := storeData force Date_parse batch data in
  processedCount after.2 + skippedCount after.2 = length batch ∧
  (∃ added,
     uuid <$> after.1 = (uuid <$> data) ++ added ∧
     length added ≤ processedCount after.2 ∧
     Forall (λ k, truthy_string k = true ∧ k ∈ uuid <$> batch) added) ∧
  (∀ c, c ∈ batch → truthy_string (uuid c) = true →
        exists_ (uuid c) after.1 = true).
Proof.
  intros after. unfold after, storeData.
  pose proof (sortedConversations_perm Date_parse batch) as Hperm.
  destruct (storeLoop_accounts force (sortedConversations Date_parse batch)
              data {| processedCount := 0; skippedCount := 0 |})
    as (Hsum & added & Huuids & Hcount & Hvalid).
  split_and!.
  - rewrite Hsum, Hperm. simpl. lia.
  - exists added. split_and!; [done|simpl in Hcount; lia|].
    eapply Forall_impl; [exact Hvalid|]. simpl. intros k [Hk Hin].
    split; [done|]. by rewrite <- Hperm.
  - intros c Hin Hid. apply storeLoop_exists; [|done]. by rewrite Hperm.
Qed.

(** *** A second run on the same export *)

Lemma findByUuid_fmap (f : conversation → conversation) k data :
  (∀ c, uuid (f c) = uuid c) →
  findByUuid k (f <$> data) = f <$> findByUuid k data.
Proof.
  intros Hf. induction data as [|x data IH]; [done|].
  rewrite fmap_cons, !findByUuid_cons.
  pose proof (Hf x) as Hfx.
  destruct (decide (item_uuid (f x) = k)) as [H1|H1],
    (decide (item_uuid x = k)) as [H2|H2]; [done| | |exact IH].
  - exfalso. apply H2. rewrite <- H1. symmetry. exact Hfx.
  - exfalso. apply H1. rewrite <- H2. exact Hfx.
Qed.

Lemma storeConversation_other force c k data :
  has_id c = true → uuid c ≠ k →
  findByUuid k (storeConversation force c data).1 = findByUuid k data.
Proof.
  intros Hid Hk. destruct (storeConversation_cases force c data)
    as [[-> _]|[[-> _]|[-> _]]]; [done|done|].
  refine (findByUuid_upsert_other c k data _). by intros ->.
Qed.

Lemma storeLoop_other force sorted data t k :
  (∀ c, c ∈ sorted → has_id c = true → uuid c ≠ k) →
  findByUuid k (storeLoop force sorted data t).1 = findByUuid k data.
Proof.
  revert data t. induction sorted as [|c sorted IH]; intros data t Hk;
    [done|].
  rewrite storeLoop_cons, IH.
  - destruct (has_id c) eqn:Hid.
    + apply storeConversation_other; [done|]. apply Hk; [by left|done].
    + by destruct (storeConversation_cases force c data)
        as [[-> _]|[(_ & ? & _)|[_ ?]]]; [|congruence|congruence].
  - intros c' Hin. apply Hk. by right.
Qed.

(** The two notions look at the record under the uuid only. *)
Lemma settled_or_kept_back_transfer c data data' :
  findByUuid (uuid c) data' = findByUuid (uuid c) data →
  settled c data ∨ kept_back c data → settled c data' ∨ kept_back c data'.
Proof.
  intros Heq [(r & Hr & Hs)|(e & He & Hp & Hu)].
  - left. exists r. split; [|done]. rewrite <- Hr. exact Heq.
  - right. exists e. split; [|done]. by rewrite Heq.
Qed.

Lemma storeConversation_settles force c data :
  has_id c = true →
  settled c (storeConversation force c data).1 ∨
  kept_back c (storeConversation force c data).1.
Proof.
  intros Hid. destruct (storeConversation_cases force c data)
    as [[_ Hno]|[(-> & _ & Hskip)|[-> _]]]; [congruence| |].
  - right. simpl. unfold shouldProcess in Hskip.
    destruct force; [done|]. simpl in Hskip.
    destruct (findByUuid (uuid c) data) as [e|] eqn:He; [|done].
    apply orb_false_iff in Hskip as [Hp Hu]. exists e. split_and!.
    + done.
    + by apply negb_false_iff in Hp.
    + by apply negb_false_iff, bool_decide_eq_true in Hu.
  - left. exact (settled_after_upsert c data).
Qed.

Lemma storeLoop_settles force sorted data t :
  NoDup (uuid <$> List.filter has_id sorted) →
  ∀ c, c ∈ sorted → has_id c = true →
       settled c (storeLoop force sorted data t).1 ∨
       kept_back c (storeLoop force sorted data t).1.
Proof.
  revert data t. induction sorted as [|x sorted IH];
    intros data t Hnd c Hin Hid.
  { by apply elem_of_nil in Hin. }
  rewrite storeLoop_cons. apply elem_of_cons in Hin as [->|Hin].
  - eapply settled_or_kept_back_transfer;
      [|by apply (storeConversation_settles force x data)].
    apply storeLoop_other. intros c' Hc' Hid' Heq.
    simpl in Hnd. rewrite Hid in Hnd. rewrite fmap_cons in Hnd.
    apply NoDup_cons in Hnd as [Hnotin _]. apply Hnotin.
    rewrite <- Heq. apply list_elem_of_fmap_2.
    by apply QueryProperties.filter_elem_of.
  - apply IH; [|done|done]. simpl in Hnd.
    destruct (has_id x); [|done]. rewrite fmap_cons in Hnd.
    by apply NoDup_cons in Hnd as [_ Hnd].
Qed.

(** The render phase leaves a conversation settled or kept back. *)
Lemma rendered_settled force outputDir Date_parse now path_join generate
  c data :
  processed c = None → markdownPath c = None →
  settled c data ∨ kept_back c data →
  let data' := rendered_record force outputDir Date_parse now path_join
                 generate <$> data in
  settled c data' ∨ kept_back c data'.
Proof.
  intros Hp Hm Hcases data'.
  assert (∀ k, findByUuid k data' =
               rendered_record force outputDir Date_parse now path_join
                 generate <$> findByUuid k data) as Hfind.
  { intros k. apply findByUuid_fmap. intros x.
    apply rendered_record_uuid. }
  destruct Hcases as [(r & Hr & Hs)|(e & He & Hpe & Hu)].
  - left. eexists. split; [by rewrite Hfind, Hr|].
    unfold rendered_record.
    destruct (alreadyRendered force r); [done|].
    destruct (generate r); [|done].
    destruct (outputFilename Date_parse now r); [|done].
    simpl. simpl in Hs. rewrite <- Hs at 2.
    unfold spread_conversation. simpl. by rewrite Hp, Hm.
  - right. eexists. split; [by rewrite Hfind, He|].
    unfold rendered_record.
    destruct (alreadyRendered force e); [done|].
    destruct (generate e); [|done].
    destruct (outputFilename Date_parse now e); [|done].
    simpl. split; [done|]. rewrite <- Hu. by destruct (updated_at e).
Qed.

(** The step of the loop on a conversation that is settled or kept back
    leaves the store. *)
Lemma storeConversation_idle c data :
  settled c data ∨ kept_back c data →
  (storeConversation false c data).1 = data.
Proof.
  intros Hcases. unfold storeConversation.
  destruct (negb (truthy_string (uuid c))); [done|].
  destruct (shouldProcess false (findByUuid (uuid c) data) c) eqn:Hsp;
    simpl; [|done].
  destruct Hcases as [Hs|(e & He & Hp & Hu)]; [by apply upsert_settled|].
  exfalso. unfold shouldProcess in Hsp. rewrite He in Hsp. simpl in Hsp.
  rewrite Hp in Hsp. simpl in Hsp. unfold strict_eq in Hsp.
  by rewrite bool_decide_eq_true_2 in Hsp.
Qed.

Lemma storeLoop_idle sorted data t :
  (∀ c, c ∈ sorted → has_id c = true →
        settled c data ∨ kept_back c data) →
  (storeLoop false sorted data t).1 = data.
Proof.
  revert t. induction sorted as [|c sorted IH]; intros t Hall; [done|].
  rewrite storeLoop_cons.
  assert ((storeConversation false c data).1 = data) as ->.
  { destruct (has_id c) eqn:Hid.
    - apply storeConversation_idle, Hall; [by left|done].
    - by destruct (storeConversation_cases false c data)
        as [[-> _]|[(_ & ? & _)|[_ ?]]]; [|congruence|congruence]. }
  apply IH. intros c' Hin. apply Hall. by right.
Qed.

Lemma filter_Permutation {A} (f : A → bool) (l l' : list A) :
  l ≡ₚ l' → List.filter f l ≡ₚ List.filter f l'.
Proof.
  induction 1 as [|x l l' _ IH|x y l|l l' l'' _ IH1 _ IH2]; simpl.
  - done.
  - destruct (f x); [by rewrite IH|done].
  - destruct (f x), (f y); try done. apply Permutation_swap.
  - by rewrite IH1.
Qed.

(** X16.  A second run on the same export changes nothing.  Let a run,
    forced or not, store a batch and render the store; let the uuids of
    the store be distinct at the start and those of the batch too, let
    no conversation of the batch carry the keys [processed] and
    [markdownPath], and let [path.join] never give the empty path.
    Then a second run without the force flag on the same batch leaves
    the store of the first run, in both phases, and writes no file. *)
Theorem second_run_changes_nothing (force : bool) (outputDir : string)
  (Date_parse : string → option date) (now : date)
  (path_join : string → string → string)
  (generate : conversation → option string)
  (batch data : list conversation) (written : list (string * string)) :
  uuid_unique data →
  NoDup (uuid <$> List.filter has_id batch) →
  Forall (λ c, processed c = None ∧ markdownPath c = None) batch →
  (∀ dir file, path_join dir file ≠ "") →
  let first := generateMarkdownFiles force outputDir Date_parse now
                 path_join generate
                 (storeData force Date_parse batch data).1 written in
  let stored := (storeData false Date_parse batch (conversations first)).1 in
  let second := generateMarkdownFiles false outputDir Date_parse now
                  path_join generate stored (files first) in
  stored = conversations first ∧
  conversations second = conversations first ∧
  files second = files first.
Proof.
  intros Hnd Hbatch Hkeys Hpath first stored second.
  pose proof (sortedConversations_perm Date_parse batch) as Hperm.
  assert (uuid_unique (storeData force Date_parse batch data).1) as Hnd1.
  { by apply storeData_keeps_unique. }
  assert (conversations first =
          rendered_record force outputDir Date_parse now path_join generate
            <$> (storeData force Date_parse batch data).1) as Hfirst.
  { unfold first. by rewrite generateMarkdownFiles_store. }
  assert (stored = conversations first) as Hstored.
  { unfold stored, storeData at 1. apply storeLoop_idle.
    intros c Hin Hid. rewrite Hfirst. apply rendered_settled.
    - rewrite Hperm in Hin. rewrite Forall_forall in Hkeys.
      by apply Hkeys.
    - rewrite Hperm in Hin. rewrite Forall_forall in Hkeys.
      by apply Hkeys.
    - unfold storeData. apply storeLoop_settles; [|done|done].
      by rewrite (filter_Permutation _ _ _ Hperm). }
  split; [done|]. unfold second. rewrite Hstored.
  destruct (second_render_state force outputDir Date_parse now path_join
              generate _ written Hnd1 Hpath) as (Hs & Hf & _).
  by split.
Qed.

Lemma second_run_changes_nothing_witness :
  let batch := [Samples.fresh; Samples.test_project] in
  let data := [Samples.stored] in
  let first := generateMarkdownFiles false "output" parse_utc epoch
                 Samples.join Samples.named_only
                 (storeData false parse_utc batch data).1 [] in
  let stored := (storeData false parse_utc batch (conversations first)).1 in
  let second := generateMarkdownFiles false "output" parse_utc epoch
                  Samples.join Samples.named_only stored (files first) in
  uuid_unique data ∧
  NoDup (uuid <$> List.filter has_id batch) ∧
  Forall (λ c, processed c = None ∧ markdownPath c = None) batch ∧
  (∀ dir file, Samples.join dir file ≠ "") ∧
  length (conversations first) = 3 ∧ length (files first) = 1 ∧
  stored = conversations first ∧
  conversations second = conversations first ∧
  files second = files first.
Proof.
  intros batch data first stored second.
  assert (uuid_unique data) as Hnd.
  { unfold uuid_unique. simpl. apply NoDup_singleton. }
  assert (NoDup (uuid <$> List.filter has_id batch)) as Hbatch.
  { simpl. apply NoDup_cons. split.
    - intros [Heq|[]%elem_of_nil]%elem_of_cons. discriminate Heq.
    - apply NoDup_singleton. }
  assert (Forall (λ c, processed c = None ∧ markdownPath c = None) batch)
    as Hkeys.
  { by repeat constructor. }
  assert (∀ dir file, Samples.join dir file ≠ "") as Hpath.
  { intros dir file. unfold Samples.join. by destruct dir. }
  split; [exact Hnd|]. split; [exact Hbatch|]. split; [exact Hkeys|].
  split; [exact Hpath|]. split; [reflexivity|]. split; [reflexivity|].
  exact (second_run_changes_nothing false "output" parse_utc epoch
           Samples.join Samples.named_only batch data [] Hnd Hbatch Hkeys
           Hpath).
Defined.

(** *** The force flag *)

Lemma forced_loop_counts sorted data t :
  let after := storeLoop true sorted data t in
  processedCount after.2 =
    processedCount t + length (List.filter has_id sorted) ∧
  skippedCount after.2 =
    skippedCount t + length (List.filter (λ c, negb (has_id c)) sorted).
Proof.
  revert data t. induction sorted as [|c sorted IH]; intros data t after.
  - unfold after. simpl. lia.
  - unfold after. rewrite storeLoop_cons.
    destruct (IH (storeConversation true c data).1
                (count_decision (storeConversation true c data).2 t))
      as [Hp Hs].
    rewrite Hp, Hs. cbn [List.filter].
    destruct (storeConversation_cases true c data)
      as [[-> ->]|[(_ & _ & Hskip)|[-> ->]]]; [|done|]; simpl; lia.
Qed.

(** X17.  The force flag.  With the flag, [storeData] counts every
    conversation that carries a uuid as processed and skips only the
    others, whatever the store holds; and the render phase, on a store
    with distinct uuids, skips nothing: every stored conversation that
    the generator renders and whose date gives a file name is written
    again, also when it was marked processed before. *)
Theorem force_processes_everything :
  (∀ (Date_parse : string → option date) (batch data : list conversation),
     let after := storeData true Date_parse batch data in
     processedCount after.2 = length (List.filter has_id batch) ∧
     skippedCount after.2 =
       length (List.filter (λ c, negb (has_id c)) batch)) ∧
  (∀ (outputDir : string) (Date_parse : string → option date) (now : date)
     (path_join : string → string → string)
     (generate : conversation → option string)
     (data : list conversation) (written : list (string * string)),
     uuid_unique data →
     let after := generateMarkdownFiles true outputDir Date_parse now
                    path_join generate data written in
     renderSkipped after = 0 ∧
     ∀ c markdown filename,
       c ∈ data → generate c = Some markdown →
       outputFilename Date_parse now c = Some filename →
       (path_join outputDir filename, markdown) ∈ files after).
Proof.
  split.
  - intros Date_parse batch data after. unfold after, storeData.
    pose proof (sortedConversations_perm Date_parse batch) as Hperm.
    destruct (forced_loop_counts (sortedConversations Date_parse batch) data
                {| processedCount := 0; skippedCount := 0 |}) as [Hp Hs].
    rewrite Hp, Hs. simpl.
    by rewrite !(filter_Permutation _ _ _ Hperm).
  - intros outputDir Date_parse now path_join generate data written Hnd
      after.
    unfold after. rewrite generateMarkdownFiles_state by done. simpl.
    split.
    + clear Hnd. induction data as [|c data IH]; [done|]. simpl. exact IH.
    + intros c markdown filename Hc Hgen Hname. apply elem_of_app. right.
      apply list_elem_of_omap. exists c. split; [done|].
      unfold rendered_file. simpl. by rewrite Hgen, Hname.
Qed.

Lemma force_processes_everything_witness :
  let after := generateMarkdownFiles true "output" parse_utc epoch
                 Samples.join Samples.named_only [Samples.stored] [] in
  uuid_unique [Samples.stored] ∧
  processedCount
    (storeData true parse_utc [Samples.stored] [Samples.stored]).2 = 1 ∧
  renderSkipped after = 0 ∧
  ("output/20250101_120000_test-conversation.md", "# document")
    ∈ files after.
Proof.
  intros after.
  assert (uuid_unique [Samples.stored]) as Hnd.
  { unfold uuid_unique. simpl. apply NoDup_singleton. }
  destruct force_processes_everything as [Hstore Hrender].
  destruct (Hstore parse_utc [Samples.stored] [Samples.stored])
    as [Hprocessed _].
  destruct (Hrender "output" parse_utc epoch Samples.join
              Samples.named_only [Samples.stored] [] Hnd)
    as [Hskipped Hfiles].
  split; [exact Hnd|]. split; [exact Hprocessed|].
  split; [exact Hskipped|].
  refine (Hfiles Samples.stored "# document"
            "20250101_120000_test-conversation.md" _ eq_refl eq_refl).
  by left.
Defined.

End SyncProperties.

(** ** fileUtils *)

Module FileUtilsProperties.
Import Js MarkdownGenerator AppController FileUtils Document.
Local Open Scope nat_scope.

(** *** Strings and their lists of characters *)

Lemma chars_app (a b : string) :
  list_ascii_of_string (a +:+ b) =
    list_ascii_of_string a ++ list_ascii_of_string b.
Proof. induction a as [|c a IH]; simpl; [done|]. by rewrite IH. Qed.

Lemma string_app (a b : list ascii) :
  string_of_list_ascii (a ++ b) =
    string_of_list_ascii a +:+ string_of_list_ascii b.
Proof. induction a as [|c a IH]; simpl; [done|]. by rewrite IH. Qed.

Lemma prefix_chars (a b : string) :
  String.prefix a b = true ↔
  take (length (list_ascii_of_string a)) (list_ascii_of_string b) =
    list_ascii_of_string a.
Proof.
  revert b. induction a as [|c a IH]; intros b.
  - by destruct b.
  - destruct b as [|d b]; simpl; [done|].
    destruct (ascii_dec c d) as [->|Hne].
    + rewrite IH. split; [by intros ->|by intros [= ->]].
    + split; [done|]. intros [= Heq _]. by destruct Hne.
Qed.

(** *** extractConversationUuid *)

(** A greedy star in front of a continuation that always succeeds takes
    the longest run. *)
Lemma greedy_star_longest {A} class s (k : chars → chars → A) :
  greedy_star class s (λ taken rest, Some (k taken rest)) =
    Some (k (take_while class s) (drop_while class s)).
Proof.
  revert k. induction s as [|c s IH]; intros k; [done|].
  cbn [greedy_star take_while drop_while].
  destruct (class c); [|done].
  by rewrite (IH (λ taken rest, k (c :: taken) rest)).
Qed.

Lemma take_while_Forall (p : ascii → bool) (s : chars) :
  Forall (λ c, p c = true) (take_while p s).
Proof.
  induction s as [|c s IH]; simpl; [done|].
  destruct (p c) eqn:Hc; [by constructor|done].
Qed.

Lemma take_while_drop_while (p : ascii → bool) (s : chars) :
  take_while p s ++ drop_while p s = s.
Proof.
  induction s as [|c s IH]; simpl; [done|].
  destruct (p c); simpl; [by rewrite IH|done].
Qed.

Lemma take_while_all (p : ascii → bool) (s rest : chars) :
  Forall (λ c, p c = true) s →
  match rest with [] => True | c :: _ => p c = false end →
  take_while p (s ++ rest) = s.
Proof.
  intros Hs Hrest. induction Hs as [|c s Hc _ IH]; simpl.
  - destruct rest as [|c rest]; [done|]. simpl. by rewrite Hrest.
  - by rewrite Hc, IH.
Qed.

#[local] Abbreviation address := (list_ascii_of_string chatAddress).

Lemma match_address_closed s :
  match_address s =
    if bool_decide (take 23 s = address)
    then match take_while is_id_char (drop 23 s) with
         | [] => None
         | group => Some group
         end
    else None.
Proof.
  unfold match_address, literal.
  change (length address) with 23.
  case_bool_decide; [|done]. unfold greedy_plus.
  destruct (drop 23 s) as [|c s1]; [done|]. cbn [take_while].
  destruct (is_id_char c); [|done].
  exact (greedy_star_longest is_id_char s1 (λ taken _, c :: taken)).
Qed.

Lemma first_match_unfold s :
  first_match s =
    match match_address s with
    | Some group => Some group
    | None =>
        match s with
        | [] => None
        | _ :: s' => first_match s'
        end
    end.
Proof. by destruct s. Qed.

Lemma match_address_sound s group :
  match_address s = Some group →
  group ≠ [] ∧ Forall (λ c, is_id_char c = true) group ∧
  ∃ after, s = address ++ group ++ after.
Proof.
  rewrite match_address_closed. case_bool_decide as Hhead; [|done].
  destruct (take_while is_id_char (drop 23 s)) as [|c g] eqn:Hrun; [done|].
  intros [= <-]. split_and!.
  - done.
  - rewrite <- Hrun. apply take_while_Forall.
  - exists (drop_while is_id_char (drop 23 s)).
    rewrite <- Hrun, take_while_drop_while, <- Hhead. by rewrite take_drop.
Qed.

Lemma first_match_sound s group :
  first_match s = Some group →
  group ≠ [] ∧ Forall (λ c, is_id_char c = true) group ∧
  ∃ before after, s = before ++ address ++ group ++ after.
Proof.
  induction s as [|c s IH]; rewrite first_match_unfold.
  - destruct (match_address []) as [g|] eqn:Hm; [|done].
    intros [= <-]. apply match_address_sound in Hm as (? & ? & after & ?).
    split_and!; [done|done|]. by exists [], after.
  - destruct (match_address (c :: s)) as [g|] eqn:Hm.
    + intros [= <-]. apply match_address_sound in Hm as (? & ? & after & ?).
      split_and!; [done|done|]. by exists [], after.
    + intros (? & ? & before & after & ->)%IH.
      split_and!; [done|done|]. by exists (c :: before), after.
Qed.

(** No match starts in a text in which the address does not occur, when
    the text is followed by a character that the address does not
    contain. *)
Lemma first_match_skip (pre : string) (x : ascii) (rest : chars) :
  includes chatAddress pre = false → x ∉ address →
  first_match (list_ascii_of_string pre ++ x :: rest) =
    first_match (x :: rest).
Proof.
  intros Hpre Hx. induction pre as [|c pre IH]; [done|].
  simpl in Hpre. apply orb_false_iff in Hpre as [Hhead Hpre].
  rewrite first_match_unfold.
  assert (match_address
            (list_ascii_of_string (String c pre) ++ x :: rest) = None) as ->.
  { rewrite match_address_closed. case_bool_decide as Htake; [|done].
    exfalso.
    destruct (decide (23 ≤ length (list_ascii_of_string (String c pre))))
      as [Hlong|Hshort].
    - rewrite take_app_le in Htake by done.
      assert (String.prefix chatAddress (String c pre) = true) as Hp.
      { by apply prefix_chars. }
      simpl in Hp. congruence.
    - rewrite take_app_ge in Htake by lia. apply Hx. rewrite <- Htake.
      apply elem_of_app. right.
      destruct (23 - length (list_ascii_of_string (String c pre)))
        as [|n] eqn:Hn; [lia|]. simpl. by left. }
  simpl. by apply IH.
Qed.

Lemma first_match_label rest :
  first_match (list_ascii_of_string "Original conversation: " ++ rest) =
    first_match rest.
Proof.
  simpl. repeat (rewrite first_match_unfold, match_address_closed;
                 rewrite bool_decide_eq_false_2 by (by intros [=])).
  done.
Qed.

(** X18.  What [extractConversationUuid] returns.  It returns [null]
    when the file cannot be read.  An id that it returns is not empty,
    is made of the characters a-f, 0-9 and the dash, and stands in the
    content of the file behind the address of a chat. *)
Theorem extractConversationUuid_sound :
  extractConversationUuid None = None ∧
  ∀ content id, extractConversationUuid (Some content) = Some id →
    id ≠ "" ∧
    Forall (λ c, is_id_char c = true) (list_ascii_of_string id) ∧
    ∃ before after, content = before +:+ chatAddress +:+ id +:+ after.
Proof.
  split; [done|]. intros content id. unfold extractConversationUuid.
  destruct (first_match (list_ascii_of_string content)) as [group|] eqn:Hm;
    [|done].
  destruct (truthy_string (Some (string_of_list_ascii group))) eqn:Ht;
    [|done].
  intros [= <-].
  apply first_match_sound in Hm as (Hne & Hid & before & after & Hs).
  split_and!.
  - by apply RenderProperties.truthy_Some.
  - by rewrite list_ascii_of_string_of_list_ascii.
  - exists (string_of_list_ascii before), (string_of_list_ascii after).
    rewrite <- (string_of_list_ascii_of_string content), Hs.
    rewrite !string_app. by rewrite string_of_list_ascii_of_string.
Qed.

Lemma extractConversationUuid_sound_witness :
  let content := "see https://claude.ai/chat/12ab-34cd for details" in
  extractConversationUuid (Some content) = Some "12ab-34cd" ∧
  "12ab-34cd" ≠ "" ∧
  ∃ before after,
    content = before +:+ chatAddress +:+ "12ab-34cd" +:+ after.
Proof.
  intros content. split; [reflexivity|].
  destruct (proj2 extractConversationUuid_sound content "12ab-34cd" eq_refl)
    as (Hne & _ & Hin).
  split; [exact Hne|exact Hin].
Defined.

(** X19.  [extractConversationUuid] reads back the link that [generate]
    writes.  For a conversation whose uuid is not empty and is made of
    the characters a-f, 0-9 and the dash, as the uuids of the export
    are, and a document that ends with the line of the link and in
    which the address of a chat does not occur before that line, the
    id read from the document is the uuid of the conversation. *)
Theorem extractConversationUuid_reads_link (c : conversation)
  (id before : string) :
  uuid c = Some id → id ≠ "" →
  Forall (λ c, is_id_char c = true) (list_ascii_of_string id) →
  includes chatAddress before = false →
  extractConversationUuid (Some (before +:+ originalLink c)) = Some id.
Proof.
  intros Hid Hne Hchars Hbefore. unfold extractConversationUuid.
  assert (first_match (list_ascii_of_string (before +:+ originalLink c)) =
          Some (list_ascii_of_string id)) as ->.
  { unfold originalLink. rewrite Hid. simpl interpolate.
    change "Original conversation: https://claude.ai/chat/"
      with ("Original conversation: " +:+ chatAddress).
    rewrite !chars_app.
    change (list_ascii_of_string "Original conversation: ")
      with ("O"%char :: list_ascii_of_string "riginal conversation: ").
    rewrite <- !app_assoc, <- app_comm_cons.
    rewrite first_match_skip; [|done|].
    - rewrite app_comm_cons.
      change ("O"%char :: list_ascii_of_string "riginal conversation: ")
        with (list_ascii_of_string "Original conversation: ").
      rewrite first_match_label, first_match_unfold, match_address_closed.
      rewrite take_app_length' by done.
      rewrite bool_decide_eq_true_2 by done.
      rewrite drop_app_length' by done.
      rewrite take_while_all; [| done | by vm_compute].
      destruct (list_ascii_of_string id) as [|x l] eqn:Hl; [|done].
      exfalso. apply Hne.
      by rewrite <- (string_of_list_ascii_of_string id), Hl.
    - intros Hin. vm_compute in Hin.
      repeat (apply elem_of_cons in Hin as [Hin|Hin]; [discriminate Hin|]).
      by apply elem_of_nil in Hin. }
  rewrite string_of_list_ascii_of_string.
  by rewrite (proj2 (RenderProperties.truthy_Some id) Hne).
Qed.

Lemma extractConversationUuid_reads_link_witness :
  let c := {| uuid := Some "0a1b2c3d-4e5f-6789-abcd-ef0123456789";
              name := Some "Test Conversation";
              created_at := None; updated_at := None; account := None;
              chat_messages := None; processed := None;
              markdownPath := None |} in
  let before :=
    "# Test Conversation" +:+ lineFeed +:+ lineFeed +:+ "--- " +:+ lineFeed in
  includes chatAddress before = false ∧
  extractConversationUuid (Some (before +:+ originalLink c)) =
    Some "0a1b2c3d-4e5f-6789-abcd-ef0123456789".
Proof.
  intros c before. split; [reflexivity|].
  refine (extractConversationUuid_reads_link c
            "0a1b2c3d-4e5f-6789-abcd-ef0123456789" before eq_refl _ _
            eq_refl); [done|].
  apply Forall_forall. intros x Hx. vm_compute in Hx.
  repeat (apply elem_of_cons in Hx as [->|Hx]; [reflexivity|]).
  by apply elem_of_nil in Hx.
Defined.

End FileUtilsProperties.

Module FileNameProperties.
Import Js MarkdownGenerator AppController FileUtils.

(** X20.  The two functions that name the file of a conversation.
    [generateFilename] of fileUtils gives the name that the render phase
    of [AppController] builds, unless the conversation has a name whose
    slug is empty, as a name made of punctuation is: there the render
    phase puts the uuid in the place of the slug and [generateFilename]
    leaves the place empty, so that it gives one and the same name to
    all such conversations created in the same second. *)
Theorem generateFilename_agreement (Date_parse : string → option date)
  (now : date) :
  (∀ c, truthy_string (name c) = false ∨
        slug (interpolate (name c)) ≠ "" →
        generateFilename Date_parse now c = outputFilename Date_parse now c) ∧
  (∀ c, truthy_string (name c) = true →
        slug (interpolate (name c)) = "" →
        generateFilename Date_parse now c =
          (λ d, timestamp d +:+ "_.md") <$> createdDate Date_parse now c ∧
        outputFilename Date_parse now c =
          (λ d, timestamp d +:+ "_" +:+ interpolate (uuid c) +:+ ".md") <$>
            createdDate Date_parse now c) ∧
  (∀ c1 c2, truthy_string (name c1) = true →
            truthy_string (name c2) = true →
            slug (interpolate (name c1)) = "" →
            slug (interpolate (name c2)) = "" →
            created_at c1 = created_at c2 →
            generateFilename Date_parse now c1 =
              generateFilename Date_parse now c2).
Proof.
  split_and!.
  - intros c Hc. unfold generateFilename, outputFilename, createdDate,
      nameSlug.
    destruct (truthy_string (name c)) eqn:Hname; [|done].
    destruct Hc as [?|Hslug]; [done|].
    by rewrite (proj2 (RenderProperties.truthy_Some _) Hslug).
  - intros c Hname Hslug. unfold generateFilename, outputFilename,
      createdDate, nameSlug.
    rewrite Hname, Hslug. simpl.
    by destruct (if truthy_string (created_at c)
                 then Date_parse (interpolate (created_at c))
                 else Some now).
  - intros c1 c2 H1 H2 Hs1 Hs2 Hcreated. unfold generateFilename.
    by rewrite H1, H2, Hs1, Hs2, Hcreated.
Qed.

Lemma append_assoc (a b c : string) : (a +:+ b) +:+ c = a +:+ b +:+ c.
Proof.
  induction a as [|x a IH]; [done|].
  change (String x ((a +:+ b) +:+ c) = String x (a +:+ b +:+ c)).
  by rewrite IH.
Qed.

Local Open Scope Z_scope.

Lemma tenths_bounds size unit :
  0 < unit →
  2 * Z.abs (10 * size - unit * tenths size unit) ≤ unit.
Proof.
  intros Hunit. unfold tenths.
  pose proof (Z.div_mod (20 * size + unit) (2 * unit)) as Hdm.
  pose proof (Z.mod_pos_bound (20 * size + unit) (2 * unit)) as Hmod.
  lia.
Qed.

Lemma tenths_range size unit lo hi :
  0 < unit → lo * unit ≤ size → size < hi * unit →
  10 * lo ≤ tenths size unit ≤ 10 * hi.
Proof.
  intros Hunit Hlo Hhi. unfold tenths. split.
  - apply Z.div_le_lower_bound; [lia|].
    replace (2 * unit * (10 * lo)) with (20 * (lo * unit)) by ring. lia.
  - apply Z.lt_succ_r, Z.div_lt_upper_bound; [lia|].
    replace (2 * unit * Z.succ (10 * hi))
      with (20 * (hi * unit) + 2 * unit) by ring.
    lia.
Qed.

(** X21.  [formatFileSize] on a whole number of bytes.  Below 1024 it
    prints the number itself.  From there on it prints a number of
    tenths of the unit, KB below 1024 KB, MB below 1024 MB and GB
    above, and what it prints is not further than a twentieth of the
    unit from the size.  The number printed in KB and in MB goes from
    1.0 up to 1024.0: the last 51 sizes below 1 MB are printed as
    [1024.0 KB]. *)
Theorem formatFileSize_rounds (size : Z) :
  (size < 1024 → formatFileSize size = decimal size +:+ " bytes") ∧
  (∀ unit suffix,
     (unit = 1024 ∧ suffix = " KB" ∧ 1024 ≤ size < 1024 * 1024) ∨
     (unit = 1024 * 1024 ∧ suffix = " MB" ∧
      1024 * 1024 ≤ size < 1024 * 1024 * 1024) ∨
     (unit = 1024 * 1024 * 1024 ∧ suffix = " GB" ∧
      1024 * 1024 * 1024 ≤ size) →
     ∃ n, formatFileSize size =
            decimal (n / 10) +:+ "." +:+ decimal (n mod 10) +:+ suffix ∧
          10 ≤ n ∧ (suffix ≠ " GB" → n ≤ 10240) ∧
          2 * Z.abs (10 * size - unit * n) ≤ unit) ∧
  (1048525 ≤ size < 1048576 → formatFileSize size = "1024.0 KB").
Proof.
  split_and!.
  - intros Hsmall. unfold formatFileSize.
    by rewrite (proj2 (Z.ltb_lt _ _) Hsmall).
  - intros unit suffix Hcases. exists (tenths size unit).
    unfold formatFileSize, toFixed1.
    destruct Hcases as [(-> & -> & Hlo & Hhi)|[(-> & -> & Hlo & Hhi)|
                        (-> & -> & Hlo)]].
    + rewrite (proj2 (Z.ltb_ge _ _)) by lia.
      rewrite (proj2 (Z.ltb_lt _ _)) by lia.
      pose proof (tenths_range size 1024 1 1024). split_and!.
      * by rewrite !append_assoc.
      * lia.
      * lia.
      * apply tenths_bounds. lia.
    + rewrite (proj2 (Z.ltb_ge _ _)) by lia.
      rewrite (proj2 (Z.ltb_ge size (1024 * 1024))) by lia.
      rewrite (proj2 (Z.ltb_lt _ _)) by lia.
      pose proof (tenths_range size (1024 * 1024) 1 1024). split_and!.
      * by rewrite !append_assoc.
      * lia.
      * lia.
      * apply tenths_bounds. lia.
    + rewrite (proj2 (Z.ltb_ge _ _)) by lia.
      rewrite (proj2 (Z.ltb_ge size (1024 * 1024))) by lia.
      rewrite (proj2 (Z.ltb_ge size (1024 * 1024 * 1024))) by lia.
      pose proof (tenths_range size (1024 * 1024 * 1024) 1 (size + 1)).
      split_and!.
      * by rewrite !append_assoc.
      * nia.
      * done.
      * apply tenths_bounds. lia.
  - intros [Hlo Hhi]. unfold formatFileSize, toFixed1.
    rewrite (proj2 (Z.ltb_ge _ _)) by lia.
    rewrite (proj2 (Z.ltb_lt _ _)) by lia.
    assert (tenths size 1024 = 10240) as ->; [|reflexivity].
    unfold tenths. symmetry.
    apply (Z.div_unique _ _ _ (20 * size + 1024 - 2 * 1024 * 10240)); lia.
Qed.

Lemma formatFileSize_rounds_witness :
  1024 ≤ 1536 < 1024 * 1024 ∧
  formatFileSize 1536 = "1.5 KB" ∧
  ∃ n, formatFileSize 1536 =
         decimal (n / 10) +:+ "." +:+ decimal (n mod 10) +:+ " KB" ∧
       2 * Z.abs (10 * 1536 - 1024 * n) ≤ 1024.
Proof.
  assert (1024 ≤ 1536 < 1024 * 1024) as Hrange by lia.
  split; [exact Hrange|]. split; [reflexivity|].
  destruct (proj1 (proj2 (formatFileSize_rounds 1536)) 1024 " KB")
    as (n & Hprint & _ & _ & Hclose).
  { left. split; [done|]. split; [done|exact Hrange]. }
  exists n. split; [exact Hprint|exact Hclose].
Defined.

End FileNameProperties.

(** ** The archive reader: optional files and failures *)

Module ZipOutcomeProperties.
Import Js ZipProcessor.



(** X23.  The outcomes of [process].  It resolves exactly when the
    archive opens and extracts and the first entry whose name contains
    [conversations.json] holds an array, and then with the elements of
    that array.  Every rejection carries a message that starts with
    [Failed to process zip file: ], followed by the message of the
    library call that threw, by the sentence about the missing file, or
    by the message of the read or parse error behind [Error reading
    file: ] or [Error parsing JSON: ]. *)
Theorem process_outcomes {J : Type} (zip : archive J) :
  ((∃ result, process zip = Resolved result) ↔
   open_error zip = None ∧ extract_error zip = None ∧
   ∃ e records, findEntry "conversations.json" (entries zip) = Some e ∧
                content e = JsonArray records) ∧
  (∀ result e, process zip = Resolved result →
     findEntry "conversations.json" (entries zip) = Some e →
     content e = JsonArray (conversations result)) ∧
  (∀ message, process zip = Rejected message →
     ∃ cause, message = "Failed to process zip file: " +:+ cause ∧
       (open_error zip = Some cause ∨
        extract_error zip = Some cause ∨
        cause = missingMessage ∨
        ∃ e detail,
          findEntry "conversations.json" (entries zip) = Some e ∧
          (content e = Unreadable detail ∧
           cause = "Error reading file: " +:+ detail ∨
           content e = Malformed detail ∧
           cause = "Error parsing JSON: " +:+ detail))).
Proof.
  unfold process, failed. split_and!.
  - split.
    + intros [result Hresult]. revert Hresult.
      destruct (open_error zip); [done|].
      destruct (findEntry "conversations.json" (entries zip)) as [e|];
        [|done].
      destruct (extract_error zip); [done|].
      destruct (content e) as [records| | |] eqn:Hc; simpl; try done.
      intros _. split_and!; [done|done|]. by exists e, records.
    + intros (-> & -> & e & records & -> & ->). simpl. by eexists.
  - intros result e.
    destruct (open_error zip); [done|].
    destruct (findEntry "conversations.json" (entries zip)) as [e'|];
      [|done].
    destruct (extract_error zip); [done|].
    destruct (content e') eqn:Hc; simpl; try done.
    by intros [= <-] [= <-].
  - intros message.
    destruct (open_error zip) as [m|].
    { intros [= <-]. exists m. split; [done|by left]. }
    destruct (findEntry "conversations.json" (entries zip)) as [e|].
    + destruct (extract_error zip) as [m|].
      { intros [= <-]. exists m. split; [done|by right; left]. }
      destruct (content e) as [l| |m|m] eqn:Hc; simpl; try done.
      * intros [= <-]. eexists. split; [done|].
        right; right; right. exists e, m. split; [done|by right].
      * intros [= <-]. eexists. split; [done|].
        right; right; right. exists e, m. split; [done|by left].
    + intros [= <-]. exists missingMessage. split; [done|].
      by right; right; left.
Qed.

End ZipOutcomeProperties.

(** ** The renderer: text direction and metadata *)

Module DocumentProperties.
Import Js Document.

Lemma includes_units_spec (needle haystack : list N) :
  includes_units needle haystack = true ↔
  ∃ before after, haystack = before ++ needle ++ after.
Proof.
  induction haystack as [|u haystack IH]; simpl.
  - rewrite orb_false_r, bool_decide_eq_true. split.
    + intros [after ->]. by exists [], after.
    + intros (before & after & Heq). symmetry in Heq.
      apply app_eq_nil in Heq as [-> Heq].
      apply app_eq_nil in Heq as [-> _]. by exists [].
  - rewrite orb_true_iff, bool_decide_eq_true, IH. split.
    + intros [[after ->]|(before & after & ->)].
      * by exists [], after.
      * by exists (u :: before), after.
    + intros (before & after & Heq). destruct before as [|x before].
      * left. exists after. done.
      * right. injection Heq as -> ->. by exists before, after.
Qed.

Lemma includes_unit (u : N) (text : list N) :
  includes_units [u] text = true ↔ u ∈ text.
Proof.
  rewrite includes_units_spec. split.
  - intros (before & after & ->). apply elem_of_app. right. by left.
  - intros (before & after & ->)%list_elem_of_split. by exists before, after.
Qed.

Lemma includes_units_longer needle before text after :
  includes_units needle text = true →
  includes_units needle (before ++ text ++ after) = true.
Proof.
  rewrite !includes_units_spec. intros (a & b & ->).
  exists (before ++ a), (b ++ after). by rewrite <- !app_assoc.
Qed.

Lemma rtlUnicode_letters u :
  u = 0x05d2%N ∨ u = 0x05d1%N ∨ u = 0x05e5%N → rtlUnicode u = true.
Proof. by intros [->|[->| ->]]. Qed.

Lemma rtlUnicode_high u : rtlUnicode u = true → (0x0591 ≤ u)%N.
Proof.
  unfold rtlUnicode, unit_in. rewrite !orb_true_iff, !andb_true_iff.
  rewrite !N.leb_le. lia.
Qed.

Lemma detectTextDirection_rtl text :
  detectTextDirection text = rtl ↔
  (∃ u, u ∈ text ∧ rtlUnicode u = true) ∨
  includes_units (units "\u05") text = true ∨
  includes_units (units "\u06") text = true ∨
  (0x00d7%N ∈ text ∧ 0x2014%N ∈ text).
Proof.
  unfold detectTextDirection. case_bool_decide as Hempty.
  { subst text. split; [done|].
    intros [(u & Hu & _)|[H|[H|[H _]]]]; try done.
    - by apply elem_of_nil in Hu.
    - by apply elem_of_nil in H. }
  destruct (existsb rtlUnicode text) eqn:Hclass.
  { split; [|done]. intros _. left.
    apply existsb_exists in Hclass as (u & Hu & Hr).
    exists u. by rewrite list_elem_of_In. }
  assert (∀ u, u ∈ text → rtlUnicode u = false) as Hnone.
  { intros u Hu. destruct (rtlUnicode u) eqn:Hr; [|done].
    assert (existsb rtlUnicode text = true); [|congruence].
    apply existsb_exists. exists u. by rewrite <- list_elem_of_In. }
  destruct (includes_units (units "\u05") text) eqn:H05.
  { split; [|done]. intros _. by right; left. }
  destruct (includes_units (units "\u06") text) eqn:H06.
  { split; [|done]. intros _. by right; right; left. }
  simpl.
  assert (∀ u, rtlUnicode u = true → includes_units [u] text = false)
    as Hletter.
  { intros u Hu. destruct (includes_units [u] text) eqn:Hi; [|done].
    apply includes_unit, Hnone in Hi. congruence. }
  rewrite (Hletter 0x05d2%N), (Hletter 0x05d1%N), (Hletter 0x05e5%N)
    by reflexivity.
  rewrite !orb_false_r.
  destruct (includes_units [215%N] text && includes_units [8212%N] text)
    eqn:Hgarbled.
  - split; [|done]. intros _. right; right; right.
    apply andb_true_iff in Hgarbled as [H1 H2].
    by rewrite <- !includes_unit.
  - split; [done|]. intros [(u & Hu & Hr)|[H|[H|[H1 H2]]]]; try done.
    + by rewrite (Hnone u Hu) in Hr.
    + apply includes_unit in H1, H2.
      change (includes_units [215%N] text) with
        (includes_units [0x00d7%N] text) in Hgarbled.
      rewrite H1 in Hgarbled.
      change (includes_units [8212%N] text) with
        (includes_units [0x2014%N] text) in Hgarbled.
      by rewrite H2 in Hgarbled.
Qed.

(** X24.  [detectTextDirection].  A text is right-to-left exactly when
    it holds a code unit of the Hebrew and Arabic blocks and
    presentation forms, or the first characters of an escape of such a
    unit, or both the multiplication sign and the em dash; the three
    Hebrew letters that the function looks for last are in the blocks
    and decide nothing.  Text added before or behind a right-to-left
    text leaves it right-to-left.  A text of code units below 256, as a
    text of Latin-1 characters is, is right-to-left only through the
    escapes. *)
Theorem detectTextDirection_rule (text : list N) :
  (detectTextDirection text = rtl ↔
   (∃ u, u ∈ text ∧ rtlUnicode u = true) ∨
   includes_units (units "\u05") text = true ∨
   includes_units (units "\u06") text = true ∨
   (0x00d7%N ∈ text ∧ 0x2014%N ∈ text)) ∧
  (∀ before after,
     detectTextDirection text = rtl →
     detectTextDirection (before ++ text ++ after) = rtl) ∧
  (Forall (λ u, (u < 256)%N) text →
   (detectTextDirection text = rtl ↔
    includes_units (units "\u05") text = true ∨
    includes_units (units "\u06") text = true)).
Proof.
  split_and!.
  - apply detectTextDirection_rtl.
  - intros before after. rewrite !detectTextDirection_rtl.
    intros [(u & Hu & Hr)|[H|[H|[H1 H2]]]].
    + left. exists u. split; [|done]. rewrite !elem_of_app. auto.
    + right; left. by apply includes_units_longer.
    + right; right; left. by apply includes_units_longer.
    + right; right; right. rewrite !elem_of_app. auto.
  - intros Hlatin. rewrite Forall_forall in Hlatin.
    rewrite detectTextDirection_rtl.
    split; [|by intros [H|H]; [right; left|right; right; left]].
    intros [(u & Hu & Hr)|[H|[H|[H1 H2]]]]; [|by left|by right|].
    + apply rtlUnicode_high in Hr. specialize (Hlatin u Hu). lia.
    + specialize (Hlatin _ H2). lia.
Qed.

Lemma truthy_append (a b : string) :
  a ≠ "" → truthy_string (Some (a +:+ b)) = true.
Proof. intros Ha. destruct a as [|c a]; [done|]. done. Qed.

(** X25.  [generateMetadata].  The block is the empty string exactly
    when the conversation has no [created_at], no [updated_at] and no
    account uuid, absent or empty; otherwise it opens with the heading
    [## Metadata] and a blank line and ends with two line breaks, a
    rule and a blank line. *)
Theorem generateMetadata_empty_iff (formatDate : string → string)
  (c : conversation) :
  (generateMetadata formatDate c = "" ↔
   truthy_string (created_at c) = false ∧
   truthy_string (updated_at c) = false ∧
   truthy_string (account c) = false) ∧
  (generateMetadata formatDate c ≠ "" →
   ∃ lines, lines ≠ "" ∧
     generateMetadata formatDate c =
       "## Metadata" +:+ lineFeed +:+ lineFeed +:+ lines +:+
       lineFeed +:+ lineFeed +:+ "---" +:+ lineFeed +:+ lineFeed).
Proof.
  unfold generateMetadata.
  set (m1 := if truthy_string (created_at c)
             then "" +:+ "- **Created at**: " +:+
                  formatDate (interpolate (created_at c)) +:+ lineFeed
             else "").
  set (m2 := if truthy_string (updated_at c)
             then m1 +:+ "- **Last updated**: " +:+
                  formatDate (interpolate (updated_at c)) +:+ lineFeed
             else m1).
  set (m3 := if truthy_string (account c)
             then m2 +:+ "- **Account UUID**: " +:+
                  interpolate (account c) +:+ lineFeed
             else m2).
  assert (m3 = "" ↔
          truthy_string (created_at c) = false ∧
          truthy_string (updated_at c) = false ∧
          truthy_string (account c) = false) as Hm3.
  { unfold m3, m2, m1.
    destruct (truthy_string (created_at c)),
      (truthy_string (updated_at c)), (truthy_string (account c));
      split; try done; try (by intros (? & ? & ?)).
    all: intros Heq; vm_compute in Heq; discriminate Heq. }
  destruct (truthy_string (Some m3)) eqn:Ht.
  - apply RenderProperties.truthy_Some in Ht. split.
    + split; [done|]. intros Hall. by apply Hm3 in Hall.
    + intros _. by exists m3.
  - assert (m3 = "") as Hempty.
    { destruct (decide (m3 = "")) as [|Hne]; [done|].
      apply RenderProperties.truthy_Some in Hne. congruence. }
    split; [|done]. split; [by intros _; apply Hm3|done].
Qed.

End DocumentProperties.

(** ** The renderer: the shape of titles, slugs and plain text *)

Module ShapeProperties.
Import Js MarkdownGenerator AppController Spec.
Import RenderProperties TextProperties FileUtilsProperties.
Local Open Scope nat_scope.

Lemma drop_while_subset (p : ascii → bool) (s : chars) x :
  x ∈ drop_while p s → x ∈ s.
Proof.
  intros Hx. destruct (drop_while_suffix p s) as [a Ha]. rewrite Ha.
  apply elem_of_app. by right.
Qed.

Lemma rev_elem_of (s : chars) x : x ∈ rev s ↔ x ∈ s.
Proof. by rewrite !list_elem_of_In, <- in_rev. Qed.

Lemma trim_text_subset (s : chars) x : x ∈ trim_text s → x ∈ s.
Proof.
  unfold trim_text. intros Hx.
  apply (proj1 (rev_elem_of _ _)) in Hx. apply drop_while_subset in Hx.
  apply (proj1 (rev_elem_of _ _)) in Hx. by apply drop_while_subset in Hx.
Qed.

Lemma first_line_chars (t : string) :
  newline ∉ list_ascii_of_string (first_line t).
Proof.
  unfold first_line. rewrite lift_chars. intros Hin.
  pose proof (take_while_Forall (λ c, negb (Ascii.eqb c newline))
                (list_ascii_of_string t)) as Hall.
  rewrite Forall_forall in Hall. specialize (Hall _ Hin).
  by rewrite Ascii.eqb_refl in Hall.
Qed.

Lemma ellipsize_chars (line : string) :
  list_ascii_of_string (ellipsize line) =
    if 50 <? String.length line
    then take 50 (list_ascii_of_string line) ++ list_ascii_of_string "..."
    else list_ascii_of_string line.
Proof.
  unfold ellipsize. destruct (50 <? String.length line); [|done].
  unfold substring_to. by rewrite chars_app, lift_chars.
Qed.

(** X26.  The title taken from the first message.  When the name is
    blank and the text of the first message is not, the title is a
    single line of at most 53 characters, whatever the length of the
    text and the number of its lines; and when the text starts with a
    line break the title is empty, since the first line is taken before
    the white space is trimmed. *)
Theorem getTitle_from_message (c : conversation) (m : message)
  (rest : list message) (t : string) :
  blank (name c) → chat_messages c = Some (m :: rest) →
  text m = Some t → trim t ≠ "" →
  String.length (getTitle c) ≤ 53 ∧
  (newline ∉ list_ascii_of_string (getTitle c)) ∧
  (∀ after, t = String newline after → getTitle c = "").
Proof.
  intros Hb%blank_iff Hm Ht Hnb.
  assert (getTitle c = ellipsize (trim (first_line t))) as ->.
  { unfold getTitle. rewrite Hb, Hm.
    rewrite (proj2 (named_iff (text m))) by eauto. by rewrite Ht. }
  split_and!.
  - rewrite string_length_chars, ellipsize_chars.
    destruct (50 <? String.length (trim (first_line t))) eqn:Hlong.
    + rewrite length_app, length_take.
      change (length (list_ascii_of_string "...")) with 3. lia.
    + apply Nat.ltb_ge in Hlong. rewrite <- string_length_chars. lia.
  - rewrite ellipsize_chars. intros Hin.
    assert (newline ∈ list_ascii_of_string (trim (first_line t))) as Hin'.
    { destruct (50 <? String.length (trim (first_line t))); [|done].
      apply elem_of_app in Hin as [Hin|Hin].
      - apply list_elem_of_lookup_1 in Hin as [i Hi].
        apply lookup_take_Some in Hi as [Hi _].
        by eapply list_elem_of_lookup_2.
      - vm_compute in Hin.
        repeat (apply elem_of_cons in Hin as [Hin|Hin]; [discriminate Hin|]).
        by apply elem_of_nil in Hin. }
    unfold trim in Hin'. rewrite lift_chars in Hin'.
    apply trim_text_subset in Hin'. by apply first_line_chars in Hin'.
  - intros after ->. by vm_compute.
Qed.

Lemma getTitle_from_message_witness :
  let c := {| uuid := Some "test-uuid-6"; name := None;
              created_at := None; updated_at := None; account := None;
              chat_messages :=
                Some [{| sender := Some "human";
                         text := Some (String newline "Hello") |}];
              processed := None; markdownPath := None |} in
  blank (name c) ∧ trim (String newline "Hello") ≠ "" ∧ getTitle c = "".
Proof.
  intros c. split; [by intros s [=]|]. split; [discriminate|].
  refine (proj2 (proj2 (getTitle_from_message c
            {| sender := Some "human";
               text := Some (String newline "Hello") |} []
            (String newline "Hello") _ eq_refl eq_refl _)) "Hello" eq_refl).
  - by intros s [=].
  - discriminate.
Defined.

(** X27.  [processText] changes nothing outside closed code spans: a
    text in which no fence of three backticks occurs is returned as it
    is, and so is a text in which the fence occurs once only, as it
    does when a code block is opened and not closed. *)
Theorem processText_plain_text (t : string) :
  (fenceless (list_ascii_of_string t) → processText t = t) ∧
  (∀ before after,
     list_ascii_of_string t = before ++ fence ++ after →
     (∀ a b, list_ascii_of_string t = a ++ fence ++ b → a = before) →
     processText t = t).
Proof.
  assert (replace_blocks (list_ascii_of_string t) = list_ascii_of_string t →
          processText t = t) as Hsame.
  { intros Heq. unfold processText.
    destruct (negb (truthy_string (Some t))) eqn:Ht.
    - apply negb_true_iff, negb_false_iff, String.eqb_eq in Ht. done.
    - unfold lift. by rewrite Heq, string_of_list_ascii_of_string. }
  split.
  - intros Hf%split_fence_None. apply Hsame.
    by rewrite replace_blocks_unfold, Hf.
  - intros before after Hsplit Honce. apply Hsame.
    rewrite replace_blocks_unfold.
    destruct (split_fence (list_ascii_of_string t)) as [[p r]|] eqn:Hs;
      [|done].
    pose proof Hs as [Hpr _]%split_fence_Some.
    assert (split_fence (drop_while is_word r) = None) as ->; [|done].
    apply split_fence_None. intros x y Heq.
    destruct (drop_while_suffix is_word r) as [w Hw].
    rewrite Heq in Hw. pose proof (Honce p r Hpr) as Hp.
    assert (list_ascii_of_string t = (p ++ fence ++ w ++ x) ++ fence ++ y)
      as Hlong.
    { rewrite Hpr. rewrite Hw at 1. by rewrite <- !app_assoc. }
    apply Honce in Hlong. rewrite <- Hp in Hlong.
    apply (f_equal length) in Hlong. rewrite !length_app in Hlong.
    simpl in Hlong. lia.
Qed.

Lemma processText_plain_text_witness :
  fenceless (list_ascii_of_string "Use `code` here") ∧
  processText "Use `code` here" = "Use `code` here" ∧
  processText ("Open ```js" +:+ String newline "let x = 1;") =
    "Open ```js" +:+ String newline "let x = 1;".
Proof.
  assert (fenceless (list_ascii_of_string "Use `code` here")) as Hplain.
  { by apply split_fence_None. }
  split; [exact Hplain|].
  split; [exact (proj1 (processText_plain_text _) Hplain)|].
  refine (proj2 (processText_plain_text
                   ("Open ```js" +:+ String newline "let x = 1;"))
            (list_ascii_of_string "Open ")
            (list_ascii_of_string ("js" +:+ String newline "let x = 1;"))
            _ _); [by vm_compute|].
  intros a b Heq.
  assert (at_fence
            (drop (length a)
               (list_ascii_of_string
                  ("Open ```js" +:+ String newline "let x = 1;"))) = true)
    as Hat.
  { rewrite Heq, drop_app_length. apply at_fence_app. }
  transitivity
    (take (length a)
       (list_ascii_of_string
          ("Open ```js" +:+ String newline "let x = 1;")));
    [by rewrite Heq, take_app_length|].
  clear Heq. revert Hat. generalize (length a) as n. intros n Hat.
  do 22 (destruct n as [|n];
         [vm_compute in Hat; first [discriminate Hat | reflexivity]|]).
  vm_compute in Hat. discriminate Hat.
Defined.

(** *** Slugs *)

#[local] Abbreviation dash := ("-"%char).

Lemma slug_char_not_dash c : is_slug_char c = true → c ≠ dash.
Proof. intros Hc ->. discriminate Hc. Qed.

(** No two dashes in a row, and no dash at the start when a run has
    begun. *)
Lemma dash_runs_spaced (in_run : bool) (s : chars) :
  (∀ i, dash_runs in_run s !! i = Some dash →
        dash_runs in_run s !! S i ≠ Some dash) ∧
  (in_run = true → head (dash_runs in_run s) ≠ Some dash).
Proof.
  revert in_run. induction s as [|c s IH]; intros in_run; [done|].
  cbn [dash_runs]. destruct (is_slug_char c) eqn:Hc.
  - destruct (IH false) as [Hs _]. split.
    + intros [|i] Hi; [|by apply Hs].
      injection Hi as ->. discriminate Hc.
    + intros _ [= ->]. discriminate Hc.
  - destruct in_run; [apply IH|].
    destruct (IH true) as [Hs Hh]. split; [|done].
    intros [|i] Hi; [|by apply Hs].
    intros Hnext. apply Hh; [done|]. by destruct (dash_runs true s).
Qed.

Lemma spaced_infix (a m b : chars) :
  (∀ i, (a ++ m ++ b) !! i = Some dash → (a ++ m ++ b) !! S i ≠ Some dash) →
  ∀ i, m !! i = Some dash → m !! S i ≠ Some dash.
Proof.
  intros Hs i Hi Hnext.
  apply (Hs (length a + i)).
  - rewrite lookup_app_r, lookup_app_l by (try apply lookup_lt_Some in Hi; lia).
    by replace (length a + i - length a) with i by lia.
  - replace (S (length a + i)) with (length a + S i) by lia.
    rewrite lookup_app_r, lookup_app_l
      by (try apply lookup_lt_Some in Hnext; lia).
    by replace (length a + S i - length a) with (S i) by lia.
Qed.

Lemma head_drop_while (p : ascii → bool) (s : chars) c :
  head (drop_while p s) = Some c → p c = false.
Proof.
  induction s as [|x s IH]; [done|]. simpl.
  destruct (p x) eqn:Hx; [done|]. by intros [= <-].
Qed.

Lemma last_rev (s : chars) : last (rev s) = head s.
Proof. destruct s as [|c s]; [done|]. simpl. by rewrite last_snoc. Qed.

Lemma strip_dashes_infix (s : chars) :
  ∃ a b, s = a ++ strip_dashes s ++ b.
Proof.
  unfold strip_dashes.
  destruct (drop_while_suffix is_dash s) as [a Ha].
  destruct (drop_while_suffix is_dash (rev (drop_while is_dash s)))
    as [b Hb].
  exists a, (rev b). rewrite <- rev_app_distr, <- Hb, rev_involutive.
  exact Ha.
Qed.

Lemma strip_dashes_head (s : chars) : head (strip_dashes s) ≠ Some dash.
Proof.
  unfold strip_dashes.
  destruct (drop_while_suffix is_dash (rev (drop_while is_dash s)))
    as [b Hb].
  apply (f_equal (@rev ascii)) in Hb.
  rewrite rev_involutive, rev_app_distr in Hb.
  destruct (rev (drop_while is_dash (rev (drop_while is_dash s))))
    as [|c u] eqn:Hu; [done|].
  simpl. intros [= ->].
  assert (head (drop_while is_dash s) = Some dash) as Hh
    by by rewrite Hb.
  by apply head_drop_while in Hh.
Qed.

Lemma strip_dashes_last (s : chars) : last (strip_dashes s) ≠ Some dash.
Proof.
  unfold strip_dashes. rewrite last_rev. intros Hh.
  by apply head_drop_while in Hh.
Qed.

Lemma prefix_dash (s : string) :
  head (list_ascii_of_string s) ≠ Some dash → String.prefix "-" s = false.
Proof.
  intros Hc. destruct (String.prefix "-" s) eqn:Hp; [|done].
  apply prefix_chars in Hp. destruct Hc.
  change (length (list_ascii_of_string "-")) with 1 in Hp.
  by destruct (list_ascii_of_string s) as [|c l]; [|injection Hp as ->].
Qed.

Lemma includes_dashes (s : string) :
  (∀ i, list_ascii_of_string s !! i = Some dash →
        list_ascii_of_string s !! S i ≠ Some dash) →
  includes "--" s = false.
Proof.
  induction s as [|c s IH]; intros Hs; [done|].
  change (String.prefix "--" (String c s) || includes "--" s = false).
  rewrite IH by (intros i; apply (Hs (S i))). rewrite orb_false_r.
  destruct (String.prefix "--" (String c s)) eqn:Hp; [|done].
  apply prefix_chars in Hp.
  change (length (list_ascii_of_string "--")) with 2 in Hp.
  change (list_ascii_of_string (String c s))
    with (c :: list_ascii_of_string s) in *.
  destruct (list_ascii_of_string s) as [|d l]; [done|].
  simpl in Hp. injection Hp as -> ->. by destruct (Hs 0).
Qed.

(** X28.  The shape of a slug.  The slug of a name does not start with
    a dash and has no two dashes in a row; and it ends with a dash only
    when it has 50 characters, the cut of [slice] having come after the
    dashes at the end were removed. *)
Theorem slug_shape (n : string) :
  String.prefix "-" (slug n) = false ∧
  includes "--" (slug n) = false ∧
  (∀ s, slug n = s +:+ "-" → String.length (slug n) = 50).
Proof.
  set (runs := dash_runs false (list_ascii_of_string (toLowerCase n))).
  assert (list_ascii_of_string (slug n) = take 50 (strip_dashes runs))
    as Hchars.
  { unfold slug. by rewrite lift_chars. }
  split_and!.
  - apply prefix_dash. rewrite Hchars.
    destruct (strip_dashes runs) as [|c u] eqn:Hu; [done|].
    simpl. intros [= ->]. by apply (strip_dashes_head runs); rewrite Hu.
  - apply includes_dashes. rewrite Hchars. intros i Hi Hnext.
    apply lookup_take_Some in Hi as [Hi _].
    apply lookup_take_Some in Hnext as [Hnext _].
    destruct (strip_dashes_infix runs) as (a & b & Hab).
    refine (spaced_infix a (strip_dashes runs) b _ i Hi Hnext).
    rewrite <- Hab. apply (dash_runs_spaced false).
  - intros s Hs. rewrite string_length_chars, Hchars.
    assert (last (take 50 (strip_dashes runs)) = Some dash) as Hlast.
    { rewrite <- Hchars, Hs, chars_app. simpl. by rewrite last_snoc. }
    destruct (decide (length (strip_dashes runs) ≤ 50)) as [Hshort|Hlong].
    + rewrite take_ge in Hlast by done.
      by apply strip_dashes_last in Hlast.
    + rewrite length_take. lia.
Qed.

End ShapeProperties.

(** ** Two versions of a conversation in one batch *)

Module DuplicateProperties.
Import Js BaseRepository AppController Spec Notions.
Import StoreProperties LookupProperties StoreRecordsProperties.
Import ControllerProperties SortProperties SyncProperties.

Lemma sorted_pair Date_parse (a b : conversation) :
  is_Some (updatedDate Date_parse a) → is_Some (updatedDate Date_parse b) →
  (updatedRank Date_parse b < updatedRank Date_parse a)%Z →
  sortedConversations Date_parse [a; b] = [a; b] ∧
  sortedConversations Date_parse [b; a] = [a; b].
Proof.
  intros Ha Hb Hlt. unfold sortedConversations. simpl.
  rewrite (newestFirst_times Date_parse a b Ha Hb).
  rewrite (newestFirst_times Date_parse b a Hb Ha). simpl.
  rewrite bool_decide_eq_false_2 by lia.
  by rewrite bool_decide_eq_true_2 by lia.
Qed.

Lemma updated_after_step force (a : conversation) data ta :
  has_id a = true → updated_at a = Some ta →
  ∀ r, findByUuid (uuid a) (storeConversation force a data).1 = Some r →
       updated_at r = Some ta.
Proof.
  intros Hid Hta r Hr.
  destruct (storeConversation_settles force a data Hid)
    as [(r' & Hr' & Hs)|(e & He & _ & Hu)].
  - assert (Some r = Some r') as [= <-]
      by exact (eq_trans (eq_sym Hr) Hr').
    apply (f_equal updated_at) in Hs. simpl in Hs. by rewrite Hta in Hs.
  - assert (Some r = Some e) as [= <-]
      by exact (eq_trans (eq_sym Hr) He).
    by rewrite Hu.
Qed.

(** X29.  The older version wins.  When a batch holds two versions of
    one conversation, with dates that are valid and differ, the loop
    takes the newer version first and the older one last, and the older
    one is always stored, under every force flag and on every store:
    after [storeData] the record of the conversation has every key of
    the older version with the value of the older version, its
    [updated_at] among them. *)
Theorem older_duplicate_wins (force : bool)
  (Date_parse : string → option date) (newer older : conversation)
  (data : list conversation) (tn to : string) :
  truthy_string (uuid newer) = true → uuid older = uuid newer →
  updated_at newer = Some tn → updated_at older = Some to →
  is_Some (updatedDate Date_parse newer) →
  is_Some (updatedDate Date_parse older) →
  (updatedRank Date_parse older < updatedRank Date_parse newer)%Z →
  ∀ batch, batch = [newer; older] ∨ batch = [older; newer] →
    ∃ r, findByUuid (uuid older) (storeData force Date_parse batch data).1 =
           Some r ∧
         spread r older = r ∧ updated_at r = Some to.
Proof.
  intros Hid Huuid Htn Hto Hn Ho Hlt batch Hbatch.
  assert (sortedConversations Date_parse batch = [newer; older]) as Hsorted.
  { destruct (sorted_pair Date_parse newer older Hn Ho Hlt) as [H1 H2].
    by destruct Hbatch as [-> | ->]. }
  assert (tn ≠ to) as Hne.
  { intros ->. unfold updatedRank, updatedDate in Hlt.
    rewrite Htn, Hto in Hlt. lia. }
  assert (has_id older = true) as Hid'.
  { unfold has_id. by rewrite Huuid. }
  unfold storeData. rewrite Hsorted, !storeLoop_cons. simpl.
  set (data1 := (storeConversation force newer data).1).
  assert (storeConversation force older data1 =
          ((upsert older data1).1, Stored)) as Hstep.
  { rewrite storeConversation_valid by done.
    assert (shouldProcess force (findByUuid (uuid older) data1) older = true)
      as ->; [|done].
    unfold shouldProcess. destruct force; [done|]. simpl.
    destruct (findByUuid (uuid older) data1) as [r1|] eqn:Hr1; [|done].
    rewrite Huuid in Hr1.
    rewrite (updated_after_step false newer data tn Hid Htn r1 Hr1), Hto.
    unfold strict_eq. rewrite bool_decide_eq_false_2 by congruence.
    by rewrite orb_true_r. }
  rewrite Hstep. cbn [fst].
  destruct (settled_after_upsert older data1) as (r & Hr & Hs).
  exists r. split_and!; [exact Hr|exact Hs|].
  apply (f_equal updated_at) in Hs. simpl in Hs. by rewrite Hto in Hs.
Qed.

Lemma older_duplicate_wins_witness :
  truthy_string (uuid Samples.changed) = true ∧
  (updatedRank parse_utc Samples.stored <
   updatedRank parse_utc Samples.changed)%Z ∧
  ∃ r, findByUuid (uuid Samples.stored)
         (storeData false parse_utc [Samples.stored; Samples.changed] []).1 =
         Some r ∧
       updated_at r = Some "2025-01-01T12:30:00Z".
Proof.
  split; [reflexivity|]. split; [reflexivity|].
  destruct (older_duplicate_wins false parse_utc Samples.changed
              Samples.stored [] "2025-03-05T08:00:00Z"
              "2025-01-01T12:30:00Z" eq_refl eq_refl eq_refl eq_refl
              ltac:(by eexists) ltac:(by eexists) eq_refl
              [Samples.stored; Samples.changed] ltac:(by right))
    as (r & Hr & _ & Hu).
  exists r. split; [exact Hr|exact Hu].
Defined.

End DuplicateProperties.

(** ** The other searches *)

Module SearchProperties.
Import Js BaseRepository Queries Notions QueryProperties.

Lemma find_elem_of {A} (f : A → bool) (l : list A) x :
  List.find f l = Some x → x ∈ l ∧ f x = true.
Proof.
  intros Hf. apply find_some in Hf as [Hin Hx].
  by rewrite list_elem_of_In.
Qed.

(** X30.  The searches select stored records.  Every search of the
    repositories returns records of the collection, in the order of the
    collection and each at most as often as it is stored.  A search by
    date range with a bound that is not a valid date returns nothing,
    and never returns a conversation whose [created_at] is absent or
    invalid; a search by content never returns a conversation without
    messages; and the search by email returns a user with that address
    when there is one, none otherwise. *)
Theorem searches_select_stored_records
  (Date_parse : string → option date) :
  (∀ (data : list conversation) accountUuid startDate endDate content,
     ConversationsRepository.findByAccount accountUuid data
       `sublist_of` data ∧
     ConversationsRepository.findByDateRange Date_parse startDate endDate
       data `sublist_of` data ∧
     ConversationsRepository.findByContent content data
       `sublist_of` data ∧
     ConversationsRepository.findProcessed data `sublist_of` data ∧
     ConversationsRepository.findUnprocessed data `sublist_of` data) ∧
  (∀ (data : list conversation) startDate endDate,
     (Date_parse startDate = None ∨ Date_parse endDate = None →
      ConversationsRepository.findByDateRange Date_parse startDate endDate
        data = []) ∧
     ∀ c, c ∈ ConversationsRepository.findByDateRange Date_parse startDate
                endDate data →
          ∃ s d e, Date_parse startDate = Some s ∧
                   newDate Date_parse (created_at c) = Some d ∧
                   Date_parse endDate = Some e ∧
                   (date_rank s ≤ date_rank d ≤ date_rank e)%Z) ∧
  (∀ (data : list conversation) content c,
     c ∈ ConversationsRepository.findByContent content data →
     ∃ messages m, chat_messages c = Some messages ∧ m ∈ messages ∧
                   truthy_string (text m) = true) ∧
  (∀ (data : list ProjectsRepository.project) creatorUuid,
     ProjectsQueries.findByCreator creatorUuid data `sublist_of` data) ∧
  (∀ (data : list UsersRepository.user) email,
     (∀ u, UsersQueries.findByEmail email data = Some u →
           u ∈ data ∧ UsersRepository.email_address u = Some email) ∧
     (UsersQueries.findByEmail email data = None ↔
      ∀ u, u ∈ data → UsersRepository.email_address u ≠ Some email)).
Proof.
  split_and!.
  - intros data accountUuid startDate endDate content.
    split_and!; apply filter_sublist.
  - intros data startDate endDate.
    assert (∀ c, c ∈ ConversationsRepository.findByDateRange Date_parse
                       startDate endDate data →
                 ∃ s d e, Date_parse startDate = Some s ∧
                          newDate Date_parse (created_at c) = Some d ∧
                          Date_parse endDate = Some e ∧
                          (date_rank s ≤ date_rank d ≤ date_rank e)%Z)
      as Hin.
    { intros c [_ Hc]%filter_elem_of. unfold time_le, time_ge in Hc.
      simpl in Hc.
      destruct (Date_parse startDate) as [s|]; simpl in Hc;
        [|by destruct (date_rank <$> newDate Date_parse (created_at c))].
      destruct (newDate Date_parse (created_at c)) as [d|]; simpl in Hc;
        [|done].
      destruct (Date_parse endDate) as [e|]; simpl in Hc;
        [|by rewrite andb_false_r in Hc].
      apply andb_true_iff in Hc as [H1%Z.leb_le H2%Z.leb_le].
      exists s, d, e. split_and!; done. }
    split; [|exact Hin]. intros Hbound.
    destruct (ConversationsRepository.findByDateRange Date_parse startDate
                endDate data) as [|c l]; [done|].
    destruct (Hin c) as (s & d & e & Hs & _ & He & _); [by left|].
    destruct Hbound; congruence.
  - intros data content c [_ Hc]%filter_elem_of.
    destruct (chat_messages c) as [messages|]; [|done].
    apply existsb_exists in Hc as (m & Hm & Hinc).
    exists messages, m. split_and!; [done|by apply list_elem_of_In|].
    by eapply nameIncludes_truthy.
  - intros data creatorUuid. apply filter_sublist.
  - intros data email. split.
    + intros u [Hu Heq]%find_elem_of. split; [done|].
      by apply bool_decide_eq_true in Heq.
    + split.
      * intros Hnone u Hu Heq. apply list_elem_of_In in Hu.
        pose proof (find_none _ _ Hnone u Hu) as Hf. simpl in Hf.
        unfold strict_eq in Hf. by apply bool_decide_eq_false in Hf.
      * intros Hall. unfold UsersQueries.findByEmail.
        destruct (List.find _ data) as [u|] eqn:Hf; [|done].
        apply find_elem_of in Hf as [Hu Heq].
        apply bool_decide_eq_true in Heq. by destruct (Hall u Hu).
Qed.

End SearchProperties.

(** ** The rest of the program on sample inputs *)

Module MoreChecks.
Import Js FileUtils Document.

Example formatFileSize_samples :
  formatFileSize 0 = "0 bytes" ∧
  formatFileSize 1023 = "1023 bytes" ∧
  formatFileSize 1024 = "1.0 KB" ∧
  formatFileSize 1536 = "1.5 KB" ∧
  formatFileSize 2500 = "2.4 KB" ∧
  formatFileSize 1048576 = "1.0 MB" ∧
  formatFileSize 5242880 = "5.0 MB" ∧
  formatFileSize 1610612736 = "1.5 GB".
Proof. repeat split. Qed.

Example generateFilename_samples :
  generateFilename parse_utc epoch Samples.test_project =
    Some "20250101_120000_test-project.md" ∧
  generateFilename parse_utc epoch Samples.fresh =
    Some "20250101_120000_test-uuid-2.md" ∧
  generateFilename parse_utc epoch
    {| uuid := Some "test-uuid-7"; name := Some "?!";
       created_at := None; updated_at := None; account := None;
       chat_messages := None; processed := None; markdownPath := None |} =
    Some "19700101_000000_.md".
Proof. repeat split. Qed.

Example extractConversationUuid_samples :
  extractConversationUuid
    (Some ("Original conversation: https://claude.ai/chat/" +:+
           "0a1b2c3d-4e5f-6789-abcd-ef0123456789" +:+ lineFeed)) =
    Some "0a1b2c3d-4e5f-6789-abcd-ef0123456789" ∧
  extractConversationUuid
    (Some (originalLink Samples.stored)) = None ∧
  extractConversationUuid (Some "no link here") = None.
Proof. repeat split. Qed.

Example generateMetadata_samples :
  generateMetadata id Samples.test_project =
    "## Metadata" +:+ lineFeed +:+ lineFeed +:+
    "- **Created at**: 2025-01-01T12:00:00Z" +:+ lineFeed +:+
    "- **Last updated**: 2025-01-01T12:30:00Z" +:+ lineFeed +:+
    lineFeed +:+ lineFeed +:+ "---" +:+ lineFeed +:+ lineFeed ∧
  generateMetadata id
    {| uuid := Some "test-uuid-7"; name := None;
       created_at := None; updated_at := None; account := None;
       chat_messages := None; processed := None; markdownPath := None |} =
    "".
Proof. repeat split. Qed.

Example detectTextDirection_samples :
  detectTextDirection (units "Hello, Claude!") = ltr ∧
  detectTextDirection [0x05e9; 0x05dc; 0x05d5; 0x05dd]%N = rtl ∧
  detectTextDirection (units "caf" ++ [0x00e9; 0x0020; 0x0645]%N) = rtl ∧
  detectTextDirection (units "\u05e9\u05dc\u05d5\u05dd") = rtl ∧
  detectTextDirection [0x00d7; 0x0020; 0x2014]%N = rtl ∧
  detectTextDirection [] = ltr.
Proof. repeat split. Qed.

Example queries_samples :
  ConversationsRepository.findByName "test"
    [Samples.stored; Samples.fresh; Samples.test_project] =
    [Samples.stored; Samples.test_project] ∧
  ConversationsRepository.findProcessed [Samples.stored; Samples.fresh] =
    [Samples.stored] ∧
  ConversationsRepository.findUnprocessed [Samples.stored; Samples.fresh] =
    [Samples.fresh] ∧
  ConversationsRepository.findByContent "HELLO"
    [Samples.stored; Samples.fresh] = [Samples.stored] ∧
  ConversationsRepository.findByDateRange parse_utc "2025-01-01T00:00:00Z"
    "2025-01-31T00:00:00Z" [Samples.stored; Samples.fresh] =
    [Samples.stored; Samples.fresh] ∧
  ConversationsRepository.findByDateRange parse_utc "yesterday"
    "2025-01-31T00:00:00Z" [Samples.stored; Samples.fresh] = [].
Proof. repeat split. Qed.

End MoreChecks.

(** ** The embedding on the inputs of the test suite *)

Module Checks.
Import Js MarkdownGenerator AppController ZipProcessor.
Import Samples (nl).

(** The message of the code block test is normalised already. *)
Example processText_normalised :
  let t := "Here is a simple JavaScript function:" +:+ nl +:+ nl +:+
           "```javascript" +:+ nl +:+ "function greet(name) {" +:+ nl +:+
           "}" +:+ nl +:+ "```" +:+ nl +:+ nl +:+ "This will output it." in
  processText t = t.
Proof. vm_compute. reflexivity. Qed.

(** A span on one line gets its two newlines; a fence that is not closed
    is left alone; of four backticks the fourth belongs to the code. *)
Example processText_spans :
  processText "a ```py foo``` b" =
    "a ```py" +:+ nl +:+ " foo" +:+ nl +:+ "``` b" ∧
  processText "```jsfoo```" = "```jsfoo" +:+ nl +:+ nl +:+ "```" ∧
  processText "```js open" = "```js open" ∧
  processText "````foo```" = "```" +:+ nl +:+ "`foo" +:+ nl +:+ "```" ∧
  processText "" = "".
Proof. vm_compute. repeat split; reflexivity. Qed.

Example getTitle_samples :
  getTitle Samples.stored = "Test Conversation" ∧
  getTitle Samples.fresh = "What is the meaning of life?" ∧
  getTitle
    {| uuid := Some "u"; name := Some ""; created_at := None;
       updated_at := None; account := None; chat_messages := Some [];
       processed := None; markdownPath := None |} = "Conversation u" ∧
  getTitle
    {| uuid := Some "u"; name := None; created_at := None;
       updated_at := None; account := None;
       chat_messages :=
         Some [{| sender := Some "human";
                  text := Some ("  0123456789012345678901234567890123456789" +:+
                                "0123456789abc" +:+ nl +:+ "second line") |}];
       processed := None; markdownPath := None |} =
    "01234567890123456789012345678901234567890123456789...".
Proof. vm_compute. repeat split; reflexivity. Qed.

Example slug_samples :
  slug "Test Project!!" = "test-project" ∧
  slug "  --Hello,   World--  " = "hello-world" ∧
  slug "!!!" = "" ∧
  nameSlug Samples.test_project = "test-project" ∧
  nameSlug Samples.fresh = "test-uuid-2".
Proof. vm_compute. repeat split; reflexivity. Qed.

Example date_samples :
  parse_utc "2025-01-01T12:00:00Z" = Some (mkDate 2025 1 1 12 0 0 0) ∧
  parse_utc "2024-02-29T23:59:59.123456Z" =
    Some (mkDate 2024 2 29 23 59 59 123) ∧
  parse_utc "2025-02-29T00:00:00Z" = None ∧
  toISOString (mkDate 2025 1 1 12 0 0 0) = "2025-01-01T12:00:00.000Z" ∧
  timestamp (mkDate 2025 1 1 12 0 0 0) = "20250101_120000".
Proof. vm_compute. repeat split; reflexivity. Qed.

(** A first run on an empty store: both conversations are stored, newest
    first, and rendered. *)
Example first_run :
  let synced := storeData false parse_utc
                  [Samples.fresh; Samples.changed] [] in
  let rendered := generateMarkdownFiles false "output" parse_utc epoch
                    Samples.join (λ c, Some (getTitle c)) synced.1 [] in
  synced = ([Samples.changed; Samples.fresh],
            {| processedCount := 2; skippedCount := 0 |}) ∧
  files rendered =
    [("output/20250101_120000_test-conversation.md", "Test Conversation");
     ("output/20250101_120000_test-uuid-2.md",
      "What is the meaning of life?")] ∧
  processed <$> AppController.conversations rendered =
    [Some true; Some true] ∧
  generatedCount rendered = 2.
Proof. vm_compute. repeat split; reflexivity. Qed.

(** The archive of the first test of the reader. *)
Example process_full_archive :
  process
    {| open_error := None;
       entries :=
         [{| entryName := "conversations.json";
             content := JsonArray ["test-uuid-1"] |};
          {| entryName := "users.json";
             content := JsonArray ["test-user-uuid"] |};
          {| entryName := "projects.json";
             content := JsonArray ["test-project-uuid"] |}];
       extract_error := None |} =
  Resolved {| users := ["test-user-uuid"];
              projects := ["test-project-uuid"];
              conversations := ["test-uuid-1"] |}.
Proof. reflexivity. Qed.

End Checks.
